(** * bigram.py: a character-level decoder-only transformer

    A shallow embedding of [src/bigram.py].  The file follows the script
    top-down: hyperparameters, vocabulary and codec, train/validation split,
    batch sampling, then the torch operations the model calls, the layers,
    the language model and its sampling loop.

    Conventions.
    - A Python character is its Unicode code point ([N]); a [str] is a list
      of characters.  [sorted] on characters orders by code point.
    - Token ids are Python integers ([Z]).
    - Code that can raise returns [option]: [None] stands for the raised
      exception.
    - torch's process-global random generator is passed explicitly. *)

From stdpp Require Import gmap list sorting numbers strings.
From Stdlib Require Import ZArith QArith Qround Qcanon Lia.

Local Open Scope Z_scope.

(** ** Hyperparameters (bigram.py, lines 7-18) *)

Record Hyper := {
  batch_size : Z;
  block_size : Z;
  n_embed : Z;
  n_head : Z;
  n_layer : Z;
  dropout : Q
}.

Definition default_hyper : Hyper :=
  {| batch_size := 64; block_size := 30; n_embed := 40; n_head := 4;
     n_layer := 3; dropout := 0.2 |}.

(** [0 <= dropout <= 1], as [nn.Dropout] requires. *)
Definition dropout_ok (hp : Hyper) : Prop :=
  Qle_bool 0 (dropout hp) && Qle_bool (dropout hp) 1 = true.

(** The configurations the model is meant for: positive sizes, a head count
    that divides the embedding dimension, a dropout rate in range. *)
Definition hyper_ok (hp : Hyper) : Prop :=
  0 < n_embed hp ∧ 0 < n_head hp ∧ n_embed hp `mod` n_head hp = 0 ∧
  0 < block_size hp ∧ dropout_ok hp.

(** ** Vocabulary and codec (lines 28-36) *)

Definition char := N.
Abbreviation pystr := (list char).

(** A dict comprehension [{k: v for ...}] inserts the pairs in order, a later
    pair overwriting an earlier one with the same key. *)
Definition dict_of `{Countable K} {V} (kvs : list (K * V)) : gmap K V :=
  foldl (λ m kv, <[kv.1 := kv.2]> m) ∅ kvs.

(** [enumerate(l)] *)
Definition enumerate {A} (l : list A) : list (Z * A) :=
  imap (λ i x, (Z.of_nat i, x)) l.

(** [''.join(l)] for a list of strings *)
Definition join (l : list pystr) : pystr := concat l.

Section Corpus.
(** The contents of [input.txt]. *)
Variable text : pystr.

(** [chars = sorted(set(text))] *)
Definition chars : list char :=
  merge_sort N.le (elements (list_to_set text : gset char)).

(** [vocab_size = len(chars)] *)
Definition vocab_size : Z := Z.of_nat (length chars).

(** The ids of the vocabulary. *)
Definition in_vocab (i : Z) : Prop := 0 ≤ i < vocab_size.

(** [stoi = {ch:i for i, ch in enumerate(chars)}] *)
Definition stoi : gmap char Z :=
  dict_of ((λ p, (p.2, p.1)) <$> enumerate chars).

(** [itos = {i:ch for i, ch in enumerate(chars)}] *)
Definition itos : gmap Z char := dict_of (enumerate chars).

(** [encode = lambda x: [stoi[ch] for ch in x]]; a character that is not a
    key raises [KeyError]. *)
Definition encode (x : pystr) : option (list Z) := mapM (λ ch, stoi !! ch) x.

(** [decode = lambda x: ''.join([itos[i] for i in x])] *)
Definition decode (x : list Z) : option pystr :=
  l ← mapM (λ i, itos !! i) x; Some (join ((λ ch, [ch]) <$> l)).
End Corpus.

(** ** Train and validation split (lines 38-42) *)

(** A slice bound as Python resolves it against a sequence of length [len]:
    a negative bound counts from the end, and the result is clamped to
    [0..len]. *)
Definition slice_bound (len : nat) (i : Z) : nat :=
  Z.to_nat (Z.min (Z.of_nat len) (Z.max 0 (if decide (i < 0) then Z.of_nat len + i else i))).

(** [l[a:b]] *)
Definition slice {A} (a b : Z) (l : list A) : list A :=
  let lo := slice_bound (length l) a in
  let hi := slice_bound (length l) b in
  take (hi - lo) (drop lo l).

(** [l[a:]] *)
Definition slice_from {A} (a : Z) (l : list A) : list A :=
  drop (slice_bound (length l) a) l.

(** [l[:b]] *)
Definition slice_to {A} (b : Z) (l : list A) : list A :=
  take (slice_bound (length l) b) l.

(** [int(0.9 * len)].  The script multiplies in binary64 and truncates; for
    every length below 2^49 the rounded product has the same integer part as
    the exact quotient, which is what this definition computes. *)
Definition split_point (len : nat) : Z := 9 * Z.of_nat len / 10.

(** [train_data = data[:n]] *)
Definition train_of (data : list Z) : list Z :=
  slice_to (split_point (length data)) data.

(** [val_data = data[n:]] *)
Definition val_of (data : list Z) : list Z :=
  slice_from (split_point (length data)) data.

(** ** Batch sampling (lines 45-51) *)

(** [torch.stack] of a list of one-dimensional tensors: the list must be
    non-empty and the tensors of one length.  The result is kept as its list
    of rows. *)
Definition stack {A} (rows : list (list A)) : option (list (list A)) :=
  match rows with
  | [] => None
  | r :: _ =>
      if decide (Forall (λ r', length r' = length r) rows) then Some rows
      else None
  end.

Section Random.
(** The state of torch's generator and one raw draw from it. *)
Variable G : Type.
Variable random_ : G → Z * G.

Fixpoint randint_draw (high : Z) (n : nat) (g : G) : list Z * G :=
  match n with
  | O => ([], g)
  | S n' =>
      let '(r, g1) := random_ g in
      let '(rs, g2) := randint_draw high n' g1 in
      (r `mod` high :: rs, g2)
  end.

(** [torch.randint(high, (size,))]: [size] integers in [0, high); raises
    unless [0 < high] and [0 <= size]. *)
Definition randint (high size : Z) (g : G) : option (list Z * G) :=
  if decide (0 < high ∧ 0 ≤ size)
  then Some (randint_draw high (Z.to_nat size) g)
  else None.

Variable hp : Hyper.
(** The encoded corpus, [data = torch.tensor(encode(text))]. *)
Variable corpus : list Z.

(** [data = train_data if split == 'train' else val_data] *)
Definition split_data (split : string) : list Z :=
  if String.eqb split "train" then train_of corpus else val_of corpus.

Definition get_batch (split : string) (g : G)
  : option (list (list Z) * list (list Z) * G) :=
  let data := split_data split in
  '(ix, g') ← randint (Z.of_nat (length data) - block_size hp) (batch_size hp) g;
  x ← stack ((λ i, slice i (i + block_size hp) data) <$> ix);
  y ← stack ((λ i, slice (i + 1) (i + 1 + block_size hp) data) <$> ix);
  Some (x, y, g').
End Random.

(** ** Scalars

    The element type of float tensors is abstract: the operations torch
    applies to it, with [neg_inf] for [float('-inf')] and [of_Q] for the
    literals of the script. *)

Class Scalar (F : Type) := {
  of_Q : Q → F;
  fadd : F → F → F;
  fsub : F → F → F;
  fmul : F → F → F;
  fdiv : F → F → F;
  fneg : F → F;
  fexp : F → F;
  flog : F → F;
  fsqrt : F → F;
  fmax : F → F → F;
  feqb : F → F → bool;
  neg_inf : F
}.

Definition f0 `{Scalar F} : F := of_Q 0.
Definition f1 `{Scalar F} : F := of_Q 1.
Definition fof_nat `{Scalar F} (n : nat) : F := of_Q (inject_Z (Z.of_nat n)).

(** The sum of [f 0 .. f (n-1)], accumulated from the left. *)
Definition fsum `{Scalar F} (n : nat) (f : nat → F) : F :=
  foldl (λ acc j, fadd acc (f j)) f0 (seq 0 n).

(** Kinds of values, for the facts below.  On IEEE floats: [finite x], [x]
    is a number (neither an infinity nor NaN); [positive x], [x] is greater
    than zero ([+inf] included); [neg_zero x], [x] is the negative zero. *)
Class ScalarKinds (F : Type) := {
  finite : F → Prop;
  positive : F → Prop;
  neg_zero : F → Prop
}.

(** The facts about the arithmetic that the masking argument uses, each a
    fact of IEEE arithmetic in round-to-nearest (with NaN taken as one
    value): [exp(-inf)] is [0.0]; [0.0] over a positive divisor is [0.0];
    [0.0] times a finite number is a zero, and adding a zero to anything
    but [-0.0] leaves it as it is; a sum is [-0.0] only if its first operand
    is.  They say nothing of [0.0 * inf], [0.0 * nan] and [0.0 / 0.0], which
    are NaN. *)
Class ScalarLaws (F : Type) `{Scalar F} `{ScalarKinds F} : Prop := {
  fexp_neg_inf : fexp (neg_inf : F) = f0;
  fdiv_0_positive : ∀ d : F, positive d → fdiv f0 d = f0;
  fadd_0_product :
    ∀ a x : F, finite x → ¬ neg_zero a → fadd a (fmul f0 x) = a;
  fadd_neg_zero : ∀ a x : F, neg_zero (fadd a x) → neg_zero a;
  f0_not_neg_zero : ¬ neg_zero (f0 : F);
  feqb_0_0 : feqb (f0 : F) f0 = true;
  feqb_1_0 : feqb (f1 : F) f0 = false
}.

(** ** Tensors

    A tensor is its shape and its elements by index.  Indices and shapes
    are lists, outermost dimension first; only the elements at indices
    within the shape are meaningful. *)

Record tensor (A : Type) := Tensor { shape : list nat; val : list nat → A }.
Arguments Tensor {A} _ _.
Arguments shape {A} _.
Arguments val {A} _ _.

Definition numel (s : list nat) : nat := foldr Nat.mul 1%nat s.

(** An index split into its leading part and its last component. *)
Fixpoint unsnoc (idx : list nat) : list nat * nat :=
  match idx with
  | [] => ([], 0%nat)
  | [i] => ([], i)
  | i :: idx' => let '(pre, j) := unsnoc idx' in (i :: pre, j)
  end.

(** An index split into its leading part and its last two components. *)
Definition unsnoc2 (idx : list nat) : list nat * nat * nat :=
  let '(pre, j) := unsnoc idx in
  let '(pre', i) := unsnoc pre in (pre', i, j).

(** Row-major offset of an index, and the index at an offset. *)
Fixpoint flat (s idx : list nat) : nat :=
  match s, idx with
  | _ :: s', i :: idx' => (i * numel s' + flat s' idx')%nat
  | _, _ => 0%nat
  end.

Fixpoint unflat (s : list nat) (n : nat) : list nat :=
  match s with
  | [] => []
  | _ :: s' => (n / numel s')%nat :: unflat s' (n `mod` numel s')%nat
  end.

(** *** Broadcasting *)

Definition broadcast_dim (x y : nat) : option nat :=
  if decide (x = y) then Some x
  else if decide (x = 1%nat) then Some y
  else if decide (y = 1%nat) then Some x
  else None.

(** Shapes aligned at the last dimension, given innermost first. *)
Fixpoint broadcast_rev (a b : list nat) : option (list nat) :=
  match a, b with
  | [], _ => Some b
  | _, [] => Some a
  | x :: a', y :: b' =>
      d ← broadcast_dim x y; r ← broadcast_rev a' b'; Some (d :: r)
  end.

Definition broadcast (a b : list nat) : option (list nat) :=
  reverse <$> broadcast_rev (reverse a) (reverse b).

(** The index into an operand of shape [s] for an index of the broadcast
    result: the trailing components, a dimension of size one read at 0. *)
Definition bcast_index (s idx : list nat) : list nat :=
  zip_with (λ d i, if decide (d = 1%nat) then 0%nat else i) s
           (drop (length idx - length s) idx).

(** *** Shape operations *)

(** A dimension argument resolved against a rank: negative counts from the
    end. *)
Definition norm_dim (rank : nat) (d : Z) : option nat :=
  if decide (- Z.of_nat rank ≤ d < Z.of_nat rank)
  then Some (Z.to_nat (if decide (d < 0) then Z.of_nat rank + d else d))
  else None.

Definition swap_at (a b : nat) (l : list nat) : list nat :=
  <[a := l !!! b]> (<[b := l !!! a]> l).

(** [x.transpose(d0, d1)] *)
Definition transpose {A} (d0 d1 : Z) (x : tensor A) : option (tensor A) :=
  a ← norm_dim (length (shape x)) d0;
  b ← norm_dim (length (shape x)) d1;
  Some (Tensor (swap_at a b (shape x)) (λ idx, val x (swap_at a b idx))).

(** The sizes [x.view(sizes)] resolves to on a tensor of [n] elements: one
    size may be -1 and is inferred; torch refuses other negative sizes, an
    ambiguous inference, and a product that is not [n]. *)
Definition view_shape (sizes : list Z) (n : nat) : option (list nat) :=
  if decide (Exists (λ d, d < -1) sizes) then None
  else
    let given := filter (λ d, d ≠ -1) sizes in
    let known := numel (Z.to_nat <$> given) in
    match (length sizes - length given)%nat with
    | O => if decide (known = n) then Some (Z.to_nat <$> sizes) else None
    | S O =>
        if decide (known ≠ 0%nat ∧ (n `mod` known)%nat = 0%nat)
        then Some ((λ d, if decide (d = -1) then (n / known)%nat else Z.to_nat d)
                     <$> sizes)
        else None
    | _ => None
    end.

(** [x.view(sizes)]: the elements in the same row-major order.  Whether the
    strides of [x] allow a view is not modelled; every [view] of the script
    is on a tensor whose layout allows it. *)
Definition view {A} (sizes : list Z) (x : tensor A) : option (tensor A) :=
  s ← view_shape sizes (numel (shape x));
  Some (Tensor s (λ idx, val x (unflat (shape x) (flat s idx)))).

(** The chunks of [x.split(size, dim)] as (offset, length) along [dim], for a
    dimension of [dsize] elements. *)
Definition split_chunks (size : Z) (dsize : nat) : option (list (nat * nat)) :=
  if decide (size < 0) then None
  else if decide (size = 0) then
    (if decide (dsize = 0%nat) then Some [(0%nat, 0%nat)] else None)
  else
    let sz := Z.to_nat size in
    let num := Nat.max ((dsize + sz - 1) / sz) 1 in
    Some ((λ k, (k * sz, Nat.min sz (dsize - k * sz)))%nat <$> seq 0 num).

(** [x.split(size, dim)] *)
Definition split {A} (size : Z) (dim : nat) (x : tensor A)
  : option (list (tensor A)) :=
  dsize ← shape x !! dim;
  chunks ← split_chunks size dsize;
  Some (fmap (M := list)
          (λ c : nat * nat,
             Tensor (<[dim := c.2]> (shape x))
                    (λ idx : list nat,
                       val x (<[dim := (idx !!! dim + c.1)%nat]> idx)))
          chunks).

(** [torch.ones(sizes)] *)
Definition ones `{Scalar F} (sizes : list Z) : option (tensor F) :=
  if decide (Forall (λ d, 0 ≤ d) sizes)
  then Some (Tensor (Z.to_nat <$> sizes) (λ _, f1))
  else None.

(** [torch.tril(x)]: the lower triangle of the last two dimensions. *)
Definition tril_of `{Scalar F} (x : tensor F) : option (tensor F) :=
  if decide (2 ≤ length (shape x))%nat
  then Some (Tensor (shape x)
               (λ idx, let '(_, i, j) := unsnoc2 idx in
                       if decide (j ≤ i)%nat then val x idx else f0))
  else None.

(** [x == c] *)
Definition eq_scalar `{Scalar F} (x : tensor F) (c : F) : tensor bool :=
  Tensor (shape x) (λ idx, feqb (val x idx) c).

(** [x * c] *)
Definition mul_scalar `{Scalar F} (x : tensor F) (c : F) : tensor F :=
  Tensor (shape x) (λ idx, fmul (val x idx) c).

(** [a @ b] for operands of at least two dimensions: the leading
    dimensions broadcast, the last two multiply as matrices.  (Operands of
    fewer dimensions, which torch treats as vectors, do not occur.) *)
Definition matmul `{Scalar F} (a b : tensor F) : option (tensor F) :=
  match reverse (shape a), reverse (shape b) with
  | m :: n :: ra, p :: m' :: rb =>
      if decide (m = m') then
        batch ← broadcast (reverse ra) (reverse rb);
        Some (Tensor (batch ++ [n; p])
                (λ idx, let '(bi, i, j) := unsnoc2 idx in
                   fsum m (λ l, fmul (val a (bcast_index (reverse ra) bi ++ [i; l]))
                                     (val b (bcast_index (reverse rb) bi ++ [l; j])))))
      else None
  | _, _ => None
  end.

(** [x.masked_fill(mask, v)]: out of place, so [x] and [mask] broadcast
    against each other. *)
Definition masked_fill `{Scalar F} (x : tensor F) (mask : tensor bool) (v : F)
  : option (tensor F) :=
  s ← broadcast (shape x) (shape mask);
  Some (Tensor s (λ idx, if val mask (bcast_index (shape mask) idx) then v
                         else val x (bcast_index (shape x) idx))).

(** [F.softmax(x, dim=-1)] *)
Definition softmax `{Scalar F} (x : tensor F) : tensor F :=
  Tensor (shape x)
    (λ idx, let '(pre, _) := unsnoc idx in
            let n := default 1%nat (last (shape x)) in
            fdiv (fexp (val x idx))
                 (fsum n (λ j, fexp (val x (if decide (shape x = []) then idx
                                            else pre ++ [j]))))).

(** [a + b] *)
Definition add `{Scalar F} (a b : tensor F) : option (tensor F) :=
  s ← broadcast (shape a) (shape b);
  Some (Tensor s (λ idx, fadd (val a (bcast_index (shape a) idx))
                              (val b (bcast_index (shape b) idx)))).

(** [F.relu(x)] *)
Definition relu `{Scalar F} (x : tensor F) : tensor F :=
  Tensor (shape x) (λ idx, fmax f0 (val x idx)).

(** *** Integer tensors

    A two-dimensional tensor of token ids is the list of its rows.  The
    list records the number of columns only when there is a row: the empty
    list stands for the tensor of shape (0, 0), and a tensor of shape (0, T)
    with [T > 0] has no representation.  What is stated below about the
    number of columns of a batch is stated for batches with at least one
    row. *)

Definition shape2 (rows : list (list Z)) : option (nat * nat) :=
  match rows with
  | [] => Some (0%nat, 0%nat)
  | r :: _ =>
      if decide (Forall (λ r', length r' = length r) rows)
      then Some (length rows, length r) else None
  end.

(** [torch.arange(T)] *)
Definition arange (T : nat) : list Z := Z.of_nat <$> seq 0 T.

(** [torch.cat((a, b), dim=1)] *)
Definition cat1 (a b : list (list Z)) : option (list (list Z)) :=
  if decide (length a = length b) then Some (zip_with app a b) else None.

(** [t.view(n)] of a two-dimensional integer tensor *)
Definition view_flat (n : nat) (rows : list (list Z)) : option (list Z) :=
  '(B, T) ← shape2 rows;
  if decide ((B * T)%nat = n) then Some (concat rows) else None.

(** ** Layers *)

Section Model.
Context `{Scalar F}.

(** torch's generator, and the two samplers the model draws from it:
    [bernoulli_ q s g] is a mask of shape [s] that keeps an element with
    probability [q]; [categorical_ w g] is an index drawn with the
    weights [w]. *)
Variable G : Type.
Variable bernoulli_ : Q → list nat → G → (list nat → bool) * G.
Variable categorical_ : list F → G → nat * G.

(** The check [torch.multinomial] makes on a row of weights before it
    draws: no weight is infinite, NaN or negative, and the weights do not
    sum to zero. *)
Variable weights_ok_ : list F → bool.

(** The globals the layers read. *)
Variable hp : Hyper.
Variable text : pystr.

(** The values of the parameters are what the optimizer changes; the
    constructors take them as arguments, so that a statement for all
    values covers the model at every training step. *)

(** **** nn.Linear *)
Record Linear := {
  in_features : nat;
  out_features : nat;
  weight : list nat → F;
  bias : list nat → F
}.

Record LinearParams := { weight0 : list nat → F; bias0 : list nat → F }.

(** [nn.Linear(i, o)]: allocating a tensor of negative size raises. *)
Definition nn_Linear (i o : Z) (θ : LinearParams) : option Linear :=
  if decide (0 ≤ i ∧ 0 ≤ o)
  then Some {| in_features := Z.to_nat i; out_features := Z.to_nat o;
               weight := weight0 θ; bias := bias0 θ |}
  else None.

(** [F.linear(x, weight, bias)] *)
Definition Linear_forward (l : Linear) (x : tensor F) : option (tensor F) :=
  match reverse (shape x) with
  | d :: pre =>
      if decide (d = in_features l) then
        Some (Tensor (reverse pre ++ [out_features l])
                (λ idx, let '(p, o) := unsnoc idx in
                   fadd (fsum (in_features l)
                           (λ c, fmul (val x (p ++ [c])) (weight l [o; c])))
                        (bias l [o])))
      else None
  | [] => None
  end.

(** **** nn.Dropout *)
Record Dropout := { p : Q }.

(** [nn.Dropout(p)] raises unless [0 <= p <= 1]. *)
Definition nn_Dropout (q : Q) : option Dropout :=
  if Qle_bool 0 q && Qle_bool q 1 then Some {| p := q |} else None.

(** In training mode an element is kept with probability [1 - p] and
    scaled by [1 / (1 - p)]; in evaluation mode the input is returned. *)
Definition Dropout_forward (d : Dropout) (training : bool) (x : tensor F)
    (g : G) : tensor F * G :=
  if training then
    let '(keep, g') := bernoulli_ (1 - p d) (shape x) g in
    (Tensor (shape x)
       (λ idx, if keep idx then fmul (val x idx) (of_Q (1 / (1 - p d)))
               else f0), g')
  else (x, g).

(** **** nn.LayerNorm *)
Record LayerNorm := {
  normalized_shape : nat;
  ln_weight : list nat → F;
  ln_bias : list nat → F
}.

Record LayerNormParams := { gamma0 : list nat → F; beta0 : list nat → F }.

Definition nn_LayerNorm (n : Z) (θ : LayerNormParams) : option LayerNorm :=
  if decide (0 ≤ n)
  then Some {| normalized_shape := Z.to_nat n;
               ln_weight := gamma0 θ; ln_bias := beta0 θ |}
  else None.

(** [F.layer_norm(x, (n,), weight, bias, eps=1e-5)] *)
Definition LayerNorm_forward (l : LayerNorm) (x : tensor F)
  : option (tensor F) :=
  match last (shape x) with
  | Some d =>
      if decide (d = normalized_shape l) then
        Some (Tensor (shape x)
          (λ idx, let '(pre, c) := unsnoc idx in
             let n := normalized_shape l in
             let mean := fdiv (fsum n (λ j, val x (pre ++ [j]))) (fof_nat n) in
             let var :=
               fdiv (fsum n (λ j, fmul (fsub (val x (pre ++ [j])) mean)
                                       (fsub (val x (pre ++ [j])) mean)))
                    (fof_nat n) in
             fadd (fmul (fdiv (fsub (val x idx) mean)
                              (fsqrt (fadd var (of_Q (1 # 100000)))))
                        (ln_weight l [c]))
                  (ln_bias l [c])))
      else None
  | None => None
  end.

(** **** nn.Embedding *)
Record Embedding := {
  num_embeddings : nat;
  embedding_dim : nat;
  emb_weight : list nat → F
}.

Definition nn_Embedding (n d : Z) (w : list nat → F) : option Embedding :=
  if decide (0 ≤ n ∧ 0 ≤ d)
  then Some {| num_embeddings := Z.to_nat n; embedding_dim := Z.to_nat d;
               emb_weight := w |}
  else None.

Definition in_table (e : Embedding) (i : Z) : Prop :=
  0 ≤ i < Z.of_nat (num_embeddings e).

(** The lookup of a one-dimensional index tensor; an id outside the table
    raises [IndexError]. *)
Definition Embedding_forward1 (e : Embedding) (ids : list Z)
  : option (tensor F) :=
  if decide (Forall (in_table e) ids) then
    Some (Tensor [length ids; embedding_dim e]
            (λ idx, match idx with
                    | [t; c] => emb_weight e [Z.to_nat (ids !!! t); c]
                    | _ => f0
                    end))
  else None.

(** The lookup of a two-dimensional index tensor. *)
Definition Embedding_forward2 (e : Embedding) (ids : list (list Z))
  : option (tensor F) :=
  '(B, T) ← shape2 ids;
  if decide (Forall (Forall (in_table e)) ids) then
    Some (Tensor [B; T; embedding_dim e]
            (λ idx, match idx with
                    | [b; t; c] =>
                        emb_weight e [Z.to_nat ((ids !!! b) !!! t); c]
                    | _ => f0
                    end))
  else None.

(** **** MultiHeadAttention (lines 94-132) *)
Record MultiHeadAttention := {
  attn : Linear;
  proj : Linear;
  attn_dropout : Dropout;
  resid_dropout : Dropout;
  tril : tensor F
}.

Record AttentionParams := {
  attn_params : LinearParams;
  proj_params : LinearParams
}.

Definition MultiHeadAttention_init (n_embed : Z) (θ : AttentionParams)
  : option MultiHeadAttention :=
  attn ← nn_Linear n_embed (3 * n_embed) (attn_params θ);
  proj ← nn_Linear n_embed n_embed (proj_params θ);
  attn_dropout ← nn_Dropout (dropout hp);
  resid_dropout ← nn_Dropout (dropout hp);
  tril ← ones [block_size hp; block_size hp] ≫= tril_of;
  Some {| attn := attn; proj := proj; attn_dropout := attn_dropout;
          resid_dropout := resid_dropout; tril := tril |}.

(** Output feature [o] of the fused projection [attn] for batch element [b]
    at time [t]. *)
Definition fused (m : MultiHeadAttention) (x : tensor F) (b t o : nat) : F :=
  fadd (fsum (in_features (attn m))
          (λ c, fmul (val x [b; t; c]) (weight (attn m) [o; c])))
       (bias (attn m) [o]).

(** The score of query [i] against key [j] of head [h], scaled and masked:
    a key after the query scores [-inf]. *)
Definition masked_score (q k : tensor F) (hs b h i j : nat) : F :=
  if decide (j ≤ i)%nat
  then fmul (fsum hs (λ l, fmul (val q [b; h; i; l]) (val k [b; h; j; l])))
            (fdiv f1 (fsqrt (fof_nat hs)))
  else neg_inf.

(** The value a head aggregates at query [i]: the softmax of the masked
    scores of the [T] keys, applied to the values. *)
Definition attended (q k v : tensor F) (hs T b h i d : nat) : F :=
  fsum T (λ j,
    fmul (fdiv (fexp (masked_score q k hs b h i j))
               (fsum T (λ j', fexp (masked_score q k hs b h i j'))))
         (val v [b; h; j; d])).

(** The shapes (B, T, C) and configurations the forward pass of the layer
    accepts: the input has the model's embedding dimension, the head count
    is positive and splits the elements evenly, and the mask buffer
    broadcasts against the (T, T) scores to a (T, T) result. *)
Definition mha_accepts (B T C : nat) : Prop :=
  ∃ nh : nat,
    n_embed hp = Z.of_nat C ∧ (0 < C)%nat ∧
    n_head hp = Z.of_nat nh ∧ (0 < nh)%nat ∧
    (B * (T * (nh * (C / nh))) = B * (T * C))%nat ∧ (0 < C / nh)%nat ∧
    broadcast_dim T (Z.to_nat (block_size hp)) = Some T.

(** [a // b] on Python integers *)
Definition floordiv (a b : Z) : option Z :=
  if decide (b = 0) then None else Some (a `div` b).

(** [1.0 / math.sqrt(n)] on Python floats: dividing by [0.0] raises. *)
Definition inv_sqrt (n : nat) : option F :=
  if decide (n = 0%nat) then None
  else Some (fdiv f1 (fsqrt (fof_nat n))).

(** [t.view(B, T, n_head, C // n_head).transpose(1, 2)] *)
Definition to_heads (B T C : nat) (t : tensor F) : option (tensor F) :=
  hs ← floordiv (Z.of_nat C) (n_head hp);
  view [Z.of_nat B; Z.of_nat T; n_head hp; hs] t ≫= transpose 1 2.

(** Lines 117-122: the fused projection, split into query, key and value
    and reshaped to one (T, C // n_head) matrix per batch element and head. *)
Definition qkv_heads (m : MultiHeadAttention) (x : tensor F)
  : option (tensor F * tensor F * tensor F) :=
  match shape x with
  | [B; T; C] =>
      qkv ← Linear_forward (attn m) x ≫= split (n_embed hp) 2;
      match qkv with
      | [q; k; v] =>
          k ← to_heads B T C k;
          q ← to_heads B T C q;
          v ← to_heads B T C v;
          Some (q, k, v)
      | _ => None
      end
  | _ => None
  end.

(** Lines 124-127: the scaled scores, masked with the [tril] buffer,
    normalised and passed through dropout. *)
Definition attention_weights (m : MultiHeadAttention) (training : bool)
    (q k : tensor F) (g : G) : option (tensor F * G) :=
  att ← transpose (-2) (-1) k ≫= matmul q;
  scale ← last (shape k) ≫= inv_sqrt;
  let att := mul_scalar att scale in
  att ← masked_fill att (eq_scalar (tril m) f0) neg_inf;
  let att := softmax att in
  Some (Dropout_forward (attn_dropout m) training att g).

Definition MultiHeadAttention_forward (m : MultiHeadAttention)
    (training : bool) (x : tensor F) (g : G) : option (tensor F * G) :=
  match shape x with
  | [B; T; C] =>
      '(q, k, v) ← qkv_heads m x;
      '(att, g1) ← attention_weights m training q k g;
      y ← matmul att v;
      y ← transpose 1 2 y ≫= view [Z.of_nat B; Z.of_nat T; Z.of_nat C];
      out ← Linear_forward (proj m) y;
      Some (Dropout_forward (resid_dropout m) training out g1)
  | _ => None
  end.

(** **** FeedForward (lines 135-148) *)
Record FeedForward := {
  net0 : Linear;
  net2 : Linear;
  net3 : Dropout
}.

Record FeedForwardParams := {
  net0_params : LinearParams;
  net2_params : LinearParams
}.

Definition FeedForward_init (n_embed : Z) (θ : FeedForwardParams)
  : option FeedForward :=
  l0 ← nn_Linear n_embed (4 * n_embed) (net0_params θ);
  l2 ← nn_Linear (4 * n_embed) n_embed (net2_params θ);
  d ← nn_Dropout (dropout hp);
  Some {| net0 := l0; net2 := l2; net3 := d |}.

Definition FeedForward_forward (m : FeedForward) (training : bool)
    (x : tensor F) (g : G) : option (tensor F * G) :=
  h ← Linear_forward (net0 m) x;
  o ← Linear_forward (net2 m) (relu h);
  Some (Dropout_forward (net3 m) training o g).

(** **** Block (lines 151-167) *)
Record Block := {
  sa : MultiHeadAttention;
  ffwd : FeedForward;
  ln1 : LayerNorm;
  ln2 : LayerNorm
}.

Record BlockParams := {
  sa_params : AttentionParams;
  ffwd_params : FeedForwardParams;
  ln1_params : LayerNormParams;
  ln2_params : LayerNormParams
}.

Definition Block_init (n_embed n_head : Z) (θ : BlockParams) : option Block :=
  sa ← MultiHeadAttention_init n_embed (sa_params θ);
  ffwd ← FeedForward_init n_embed (ffwd_params θ);
  ln1 ← nn_LayerNorm n_embed (ln1_params θ);
  ln2 ← nn_LayerNorm n_embed (ln2_params θ);
  Some {| sa := sa; ffwd := ffwd; ln1 := ln1; ln2 := ln2 |}.

(** A block as the model's constructor builds it. *)
Definition built_block (b : Block) : Prop :=
  ∃ θ, Block_init (n_embed hp) (n_head hp) θ = Some b.

Definition Block_forward (m : Block) (training : bool) (x : tensor F) (g : G)
  : option (tensor F * G) :=
  h ← LayerNorm_forward (ln1 m) x;
  '(a, g1) ← MultiHeadAttention_forward (sa m) training h g;
  x ← add x a;
  h ← LayerNorm_forward (ln2 m) x;
  '(f, g2) ← FeedForward_forward (ffwd m) training h g1;
  x ← add x f;
  Some (x, g2).

(** [nn.Sequential] of blocks *)
Fixpoint Sequential_forward (bs : list Block) (training : bool)
    (x : tensor F) (g : G) : option (tensor F * G) :=
  match bs with
  | [] => Some (x, g)
  | b :: bs' =>
      '(x', g') ← Block_forward b training x g;
      Sequential_forward bs' training x' g'
  end.

(** **** BigramLanguageModel (lines 170-208) *)
Record BigramLanguageModel := {
  token_embedding_table : Embedding;
  position_embedding_table : Embedding;
  blocks : list Block;
  ln_f : LayerNorm;
  lm_head : Linear
}.

Record ModelParams := {
  token_table : list nat → F;
  position_table : list nat → F;
  block_params : nat → BlockParams;
  ln_f_params : LayerNormParams;
  lm_head_params : LinearParams
}.

Definition BigramLanguageModel_init (θ : ModelParams)
  : option BigramLanguageModel :=
  tok ← nn_Embedding (vocab_size text) (n_embed hp) (token_table θ);
  pos ← nn_Embedding (block_size hp) (n_embed hp) (position_table θ);
  bs ← mapM (λ i, Block_init (n_embed hp) (n_head hp) (block_params θ i))
            (seq 0 (Z.to_nat (n_layer hp)));
  ln ← nn_LayerNorm (n_embed hp) (ln_f_params θ);
  head ← nn_Linear (n_embed hp) (vocab_size text) (lm_head_params θ);
  Some {| token_embedding_table := tok; position_embedding_table := pos;
          blocks := bs; ln_f := ln; lm_head := head |}.

(** The negative log-likelihood of class [t] under the logits at [pre]:
    [-log_softmax(x)[t]]. *)
Definition nll (x : tensor F) (C : nat) (pre : list nat) (t : Z) : F :=
  fneg (fsub (val x (pre ++ [Z.to_nat t]))
             (flog (fsum C (λ c, fexp (val x (pre ++ [c])))))).

(** [F.cross_entropy(input, target)] for an input of shape (N, C) and N
    class indices: the mean over the targets that are not [ignore_index]
    (-100).  Any other target outside [0, C) raises. *)
Definition cross_entropy (input : tensor F) (target : list Z) : option F :=
  match shape input with
  | [N; C] =>
      if decide (length target = N ∧
                 Forall (λ t, t = -100 ∨ 0 ≤ t < Z.of_nat C) target)
      then
        let counted := filter (λ t, t ≠ -100) target in
        Some (fdiv (fsum N (λ n, let t := target !!! n in
                                 if decide (t = -100) then f0
                                 else nll input C [n] t))
                   (fof_nat (length counted)))
      else None
  | _ => None
  end.

(** The mean over all [N] positions of the negative log-likelihood of the
    target at that position. *)
Definition mean_nll (x : tensor F) (N C : nat) (target : list Z) : F :=
  fdiv (fsum N (λ n, nll x C [n] (target !!! n))) (fof_nat N).

Definition BigramLanguageModel_forward (m : BigramLanguageModel)
    (training : bool) (idx : list (list Z)) (targets : option (list (list Z)))
    (g : G) : option (tensor F * option F * G) :=
  '(B, T) ← shape2 idx;
  tok_embed ← Embedding_forward2 (token_embedding_table m) idx;
  pos_embed ← Embedding_forward1 (position_embedding_table m) (arange T);
  x ← add tok_embed pos_embed;
  '(x, g') ← Sequential_forward (blocks m) training x g;
  x ← LayerNorm_forward (ln_f m) x;
  logits ← Linear_forward (lm_head m) x;
  match targets with
  | None => Some (logits, None, g')
  | Some targets =>
      match shape logits with
      | [B; T; C] =>
          logits ← view [Z.of_nat (B * T); Z.of_nat C] logits;
          targets ← view_flat (B * T) targets;
          loss ← cross_entropy logits targets;
          Some (logits, Some loss, g')
      | _ => None
      end
  end.

(** [logits[:, -1, :]] *)
Definition last_step (x : tensor F) : option (tensor F) :=
  match shape x with
  | [B; T; V] =>
      if decide (T = 0%nat) then None
      else Some (Tensor [B; V]
                   (λ idx, match idx with
                           | [b; v] => val x [b; (T - 1)%nat; v]
                           | _ => f0
                           end))
  | _ => None
  end.

(** The draws of [torch.multinomial] for rows [b, b+1, ..] of [probs]. *)
Fixpoint multinomial_rows (probs : tensor F) (V : nat) (b n : nat) (g : G)
  : list (list Z) * G :=
  match n with
  | O => ([], g)
  | S n' =>
      let '(i, g1) := categorical_ ((λ v, val probs [b; v]) <$> seq 0 V) g in
      let '(rows, g2) := multinomial_rows probs V (S b) n' g1 in
      ([Z.of_nat i] :: rows, g2)
  end.

(** [torch.multinomial(probs, num_samples=1)] on a batch of distributions:
    one index per row.  It raises when there is no category to draw from,
    and when a row of weights does not pass its check. *)
Definition multinomial (probs : tensor F) (g : G)
  : option (list (list Z) * G) :=
  match shape probs with
  | [B; V] =>
      if decide (V = 0%nat) then None
      else if forallb (λ b, weights_ok_ ((λ v, val probs [b; v]) <$> seq 0 V))
                      (seq 0 B)
      then Some (multinomial_rows probs V 0 B g)
      else None
  | _ => None
  end.

(** Lines 203-206: the forward pass on the conditioning window, and one
    token drawn per row from the distribution at the last time step. *)
Definition sample_next (m : BigramLanguageModel) (training : bool)
    (idx_cond : list (list Z)) (g : G) : option (list (list Z) * G) :=
  '(logits, _, g1) ← BigramLanguageModel_forward m training idx_cond None g;
  logits ← last_step logits;
  let probs := softmax logits in
  multinomial probs g1.

(** The distributions the model samples from pass the check of
    [torch.multinomial], on whatever window it is run. *)
Definition probabilities_ok (m : BigramLanguageModel) (training : bool)
  : Prop :=
  ∀ idx_cond g logits loss g1 last B V,
    BigramLanguageModel_forward m training idx_cond None g
      = Some (logits, loss, g1) →
    last_step logits = Some last → shape last = [B; V] →
    ∀ b, (b < B)%nat →
      weights_ok_ ((λ v, val (softmax last) [b; v]) <$> seq 0 V) = true.

Definition generate_step (m : BigramLanguageModel) (training : bool)
    (idx : list (list Z)) (g : G) : option (list (list Z) * G) :=
  let idx_cond := slice_from (- block_size hp) <$> idx in
  '(idx_next, g2) ← sample_next m training idx_cond g;
  idx ← cat1 idx idx_next;
  Some (idx, g2).

(** The sampler returns one of the categories it is given weights for. *)
Definition categorical_in_range : Prop :=
  ∀ w g, w ≠ [] → ((categorical_ w g).1 < length w)%nat.

(** The contexts the loop keeps to: at least one row, all rows of one
    length, which is no less than the window. *)
Definition context_ok (idx : list (list Z)) (L : nat) : Prop :=
  idx ≠ [] ∧ Forall (λ r, length r = L) idx ∧ block_size hp ≤ Z.of_nat L.

Fixpoint generate_loop (m : BigramLanguageModel) (training : bool)
    (n : nat) (idx : list (list Z)) (g : G) : option (list (list Z) * G) :=
  match n with
  | O => Some (idx, g)
  | S n' =>
      '(idx', g') ← generate_step m training idx g;
      generate_loop m training n' idx' g'
  end.

(** [for _ in range(max_new_tokens)]: no iteration when it is negative. *)
Definition generate (m : BigramLanguageModel) (training : bool)
    (idx : list (list Z)) (max_new_tokens : Z) (g : G)
  : option (list (list Z) * G) :=
  generate_loop m training (Z.to_nat max_new_tokens) idx g.
End Model.


Arguments Linear : clear implicits.
Arguments LinearParams : clear implicits.
Arguments LayerNorm : clear implicits.
Arguments LayerNormParams : clear implicits.
Arguments Embedding : clear implicits.
Arguments MultiHeadAttention : clear implicits.
Arguments AttentionParams : clear implicits.
Arguments FeedForward : clear implicits.
Arguments FeedForwardParams : clear implicits.
Arguments Block : clear implicits.
Arguments BlockParams : clear implicits.
Arguments BigramLanguageModel : clear implicits.
Arguments ModelParams : clear implicits.

(** ** Evaluation and sampling (lines 53-65 and 229-234) *)

Section Driver.
Context `{Scalar F}.
Variable G : Type.
Variable random_ : G → Z * G.
Variable bernoulli_ : Q → list nat → G → (list nat → bool) * G.
Variable categorical_ : list F → G → nat * G.
Variable weights_ok_ : list F → bool.
Variable hp : Hyper.
Variable text : pystr.
(** [data = torch.tensor(encode(text))] *)
Variable corpus : list Z.

(** [t.mean()] of a one-dimensional tensor: the sum over the count, which is
    [0 / 0] for a tensor with no element.  (The order in which torch
    accumulates the sum is not modelled.) *)
Definition mean (t : list F) : F :=
  fdiv (fsum (length t) (λ k, default f0 (t !! k))) (fof_nat (length t)).

(** Lines 61-64, the loop over [range(eval_iters)]: a batch of the split,
    the forward pass in evaluation mode, [loss.item()] stored at [k]. *)
Fixpoint eval_losses (m : BigramLanguageModel F) (split : string) (n : nat)
    (g : G) : option (list F * G) :=
  match n with
  | O => Some ([], g)
  | S n' =>
      '(X, Y, g1) ← get_batch G random_ hp corpus split g;
      '(_, loss, g2) ←
        BigramLanguageModel_forward G bernoulli_ hp m false X (Some Y) g1;
      loss ← loss;
      '(rest, g3) ← eval_losses m split n' g2;
      Some (loss :: rest, g3)
  end.

(** The batches that loop draws for one split: [get_batch] called [n] times
    in a row, each call from the generator state the one before left. *)
Fixpoint draw_batches (split : string) (n : nat) (g : G)
  : option (list (list (list Z) * list (list Z)) * G) :=
  match n with
  | O => Some ([], g)
  | S n' =>
      '(X, Y, g1) ← get_batch G random_ hp corpus split g;
      '(rest, g2) ← draw_batches split n' g1;
      Some ((X, Y) :: rest, g2)
  end.

(** [l] is the loss of the batch [(X, Y)] in evaluation mode: line 63,
    [logits, loss = model(X, Y)], returns the loss [l], from every state of
    the generator and without changing it. *)
Definition eval_loss_of (m : BigramLanguageModel F)
    (XY : list (list Z) * list (list Z)) (l : F) : Prop :=
  ∀ g : G, ∃ logits,
    BigramLanguageModel_forward G bernoulli_ hp m false XY.1 (Some XY.2) g
      = Some (logits, Some l, g).

(** [estimate_loss()], between [model.eval()] and [model.train()]: for each
    of the two splits the mean of [eval_iters] losses, in a dict keyed by
    the split.  [torch.zeros(eval_iters)] raises on a negative size. *)
Definition estimate_loss (m : BigramLanguageModel F) (eval_iters : Z) (g : G)
  : option (gmap string F * G) :=
  if decide (eval_iters < 0) then None
  else
    '(train_losses, g1) ← eval_losses m "train" (Z.to_nat eval_iters) g;
    '(val_losses, g2) ← eval_losses m "val" (Z.to_nat eval_iters) g1;
    Some (<["val" := mean val_losses]> (<["train" := mean train_losses]> ∅), g2).

(** [torch.zeros([1, n], dtype=torch.long)] *)
Definition zeros_row (n : Z) : option (list (list Z)) :=
  if decide (0 ≤ n) then Some [replicate (Z.to_nat n) 0] else None.

(** Lines 233-234:
    [decode(m.generate(context, max_new_tokens)[0].tolist())] on a context
    of [block_size] zeros.  The model is in training mode here: the call of
    [estimate_loss] on line 229 has ended with [model.train()]. *)
Definition sample_text (m : BigramLanguageModel F) (max_new_tokens : Z) (g : G)
  : option (pystr * G) :=
  context ← zeros_row (block_size hp);
  '(out, g') ←
    generate G bernoulli_ categorical_ weights_ok_ hp m true context max_new_tokens g;
  row ← out !! 0%nat;
  s ← decode text row;
  Some (s, g').
End Driver.

(** ** Head (lines 68-91)

    The single-head layer; the script defines it and builds the model from
    [MultiHeadAttention] instead. *)

Section SingleHead.
Context `{Scalar F}.
Variable G : Type.
Variable bernoulli_ : Q → list nat → G → (list nat → bool) * G.
Variable hp : Hyper.
(** The float [C ** -0.5] for a positive integer [C]. *)
Variable pow_neg_half_ : nat → F.

(** [nn.Linear(i, o, bias=False)] *)
Record LinearNoBias := {
  nb_in_features : nat;
  nb_out_features : nat;
  nb_weight : list nat → F
}.

Definition nn_LinearNoBias (i o : Z) (w : list nat → F) : option LinearNoBias :=
  if decide (0 ≤ i ∧ 0 ≤ o)
  then Some {| nb_in_features := Z.to_nat i; nb_out_features := Z.to_nat o;
               nb_weight := w |}
  else None.

(** [F.linear(x, weight, None)] *)
Definition LinearNoBias_forward (l : LinearNoBias) (x : tensor F)
  : option (tensor F) :=
  match reverse (shape x) with
  | d :: pre =>
      if decide (d = nb_in_features l) then
        Some (Tensor (reverse pre ++ [nb_out_features l])
                (λ idx, let '(p, o) := unsnoc idx in
                   fsum (nb_in_features l)
                     (λ c, fmul (val x (p ++ [c])) (nb_weight l [o; c]))))
      else None
  | [] => None
  end.

Record Head := {
  key : LinearNoBias;
  query : LinearNoBias;
  value : LinearNoBias;
  head_tril : tensor F;
  head_dropout : Dropout
}.

Record HeadParams := {
  key0 : list nat → F;
  query0 : list nat → F;
  value0 : list nat → F
}.

Definition Head_init (head_size : Z) (θ : HeadParams) : option Head :=
  key ← nn_LinearNoBias (n_embed hp) head_size (key0 θ);
  query ← nn_LinearNoBias (n_embed hp) head_size (query0 θ);
  value ← nn_LinearNoBias (n_embed hp) head_size (value0 θ);
  tril ← ones [block_size hp; block_size hp] ≫= tril_of;
  dropout ← nn_Dropout (dropout hp);
  Some {| key := key; query := query; value := value; head_tril := tril;
          head_dropout := dropout |}.

(** [C ** -0.5] on a Python integer: zero to a negative power raises. *)
Definition pow_neg_half (C : nat) : option F :=
  if decide (C = 0%nat) then None else Some (pow_neg_half_ C).

Definition Head_forward (m : Head) (training : bool) (x : tensor F) (g : G)
  : option (tensor F * G) :=
  match shape x with
  | [B; T; C] =>
      k ← LinearNoBias_forward (key m) x;
      q ← LinearNoBias_forward (query m) x;
      wei ← transpose (-2) (-1) k ≫= matmul q;
      scale ← pow_neg_half C;
      let wei := mul_scalar wei scale in
      wei ← masked_fill wei (eq_scalar (head_tril m) f0) neg_inf;
      let wei := softmax wei in
      let '(wei, g1) := Dropout_forward G bernoulli_ (head_dropout m) training wei g in
      v ← LinearNoBias_forward (value m) x;
      out ← matmul wei v;
      Some (out, g1)
  | _ => None
  end.
End SingleHead.

Arguments LinearNoBias : clear implicits.
Arguments Head : clear implicits.
Arguments HeadParams : clear implicits.

(** ** The rows the masking argument covers *)

Section Regular.
Context `{Scalar F} `{ScalarKinds F}.
Variable hp : Hyper.

(** The denominator of the softmax of query [i]. *)
Definition score_sum (q k : tensor F) (hs T b h i : nat) : F :=
  fsum T (λ j, fexp (masked_score q k hs b h i j)).

(** Query [i] of batch element [b] is regular on input [x]: in every head
    the softmax denominator is positive (not zero, not NaN), and the values
    of the later positions are finite. *)
Definition row_regular (m : MultiHeadAttention F) (x : tensor F)
    (T C b i : nat) : Prop :=
  ∀ q k v, qkv_heads hp m x = Some (q, k, v) →
    ∀ h d, (h < Z.to_nat (n_head hp))%nat →
      (d < C / Z.to_nat (n_head hp))%nat →
      positive (score_sum q k (C / Z.to_nat (n_head hp)) T b h i) ∧
      ∀ j, (i < j)%nat → (j < T)%nat → finite (val v [b; h; j; d]).
End Regular.

Section RegularRun.
Context `{Scalar F} `{ScalarKinds F}.
Variable G : Type.
Variable bernoulli_ : Q → list nat → G → (list nat → bool) * G.
Variable hp : Hyper.

(** The blocks, run on [x] in evaluation mode, meet regular rows only:
    at the attention of every block, the queries up to [i] of batch element
    [b] are regular. *)
Fixpoint blocks_regular (bs : list (Block F)) (x : tensor F)
    (T C b i : nat) : Prop :=
  match bs with
  | [] => True
  | blk :: bs' =>
      (∀ h, LayerNorm_forward (ln1 blk) x = Some h →
         ∀ t, (t ≤ i)%nat → row_regular hp (sa blk) h T C b t) ∧
      (∀ y g g', Block_forward G bernoulli_ hp blk false x g = Some (y, g') →
         blocks_regular bs' y T C b i)
  end.

(** The same for the model on a batch of token ids. *)
Definition forward_regular (m : BigramLanguageModel F) (idx : list (list Z))
    (b i : nat) : Prop :=
  ∀ B T tok pos x,
    shape2 idx = Some (B, T) →
    Embedding_forward2 (token_embedding_table m) idx = Some tok →
    Embedding_forward1 (position_embedding_table m) (arange T) = Some pos →
    add tok pos = Some x →
    blocks_regular (blocks m) x T (embedding_dim (token_embedding_table m)) b i.
End RegularRun.

(** Two activations of shape (_, T, C) agree in row [b] at every position up
    to [i]. *)
Definition rows_agree {F} (b i T C : nat) (x x' : tensor F) : Prop :=
  ∀ t c, (t ≤ i)%nat → (t < T)%nat → (c < C)%nat →
    val x [b; t; c] = val x' [b; t; c].

(** ** A small instance

    Integers extended with [-inf] as scalars, and a two-token configuration,
    on which the definitions above can be run. *)

Inductive xint := NegInf | Fin (z : Z).

Definition xint_add (a b : xint) : xint :=
  match a, b with Fin x, Fin y => Fin (x + y) | _, _ => NegInf end.

Definition xint_sub (a b : xint) : xint :=
  match a, b with Fin x, Fin y => Fin (x - y) | _, _ => NegInf end.

Definition xint_mul (a b : xint) : xint :=
  match a, b with
  | Fin 0, _ => Fin 0
  | Fin x, Fin y => Fin (x * y)
  | _, _ => NegInf
  end.

Definition xint_div (a b : xint) : xint :=
  match a, b with
  | Fin x, Fin y => Fin (x `div` y)
  | Fin _, NegInf => Fin 0
  | NegInf, _ => NegInf
  end.

Definition xint_neg (a : xint) : xint :=
  match a with Fin x => Fin (- x) | NegInf => NegInf end.

Definition xint_exp (a : xint) : xint :=
  match a with Fin x => Fin (2 ^ x) | NegInf => Fin 0 end.

Definition xint_log (a : xint) : xint :=
  match a with Fin x => if decide (x ≤ 0) then NegInf else Fin (Z.log2 x)
          | NegInf => NegInf end.

Definition xint_sqrt (a : xint) : xint :=
  match a with Fin x => Fin (Z.sqrt x) | NegInf => NegInf end.

Definition xint_max (a b : xint) : xint :=
  match a, b with
  | Fin x, Fin y => Fin (Z.max x y)
  | NegInf, y => y
  | x, NegInf => x
  end.

Definition xint_eqb (a b : xint) : bool :=
  match a, b with
  | Fin x, Fin y => Z.eqb x y
  | NegInf, NegInf => true
  | _, _ => false
  end.

#[global] Instance xint_scalar : Scalar xint := {|
  of_Q q := Fin (Qfloor q);
  fadd := xint_add; fsub := xint_sub; fmul := xint_mul; fdiv := xint_div;
  fneg := xint_neg; fexp := xint_exp; flog := xint_log; fsqrt := xint_sqrt;
  fmax := xint_max; feqb := xint_eqb; neg_inf := NegInf
|}.

Definition toy_hyper : Hyper :=
  {| batch_size := 2; block_size := 2; n_embed := 2; n_head := 1;
     n_layer := 1; dropout := 0.2 |}.

(** The corpus "abab". *)
Definition toy_text : pystr := [97; 98; 97; 98]%N.

Definition toy_linear : LinearParams xint :=
  {| weight0 := λ idx, Fin (Z.of_nat (sum_list idx)); bias0 := λ _, Fin 1 |}.

Definition toy_norm : LayerNormParams xint :=
  {| gamma0 := λ _, Fin 1; beta0 := λ _, Fin 0 |}.

Definition toy_attention : AttentionParams xint :=
  {| attn_params := toy_linear; proj_params := toy_linear |}.

Definition toy_block : BlockParams xint :=
  {| sa_params := toy_attention;
     ffwd_params := {| net0_params := toy_linear; net2_params := toy_linear |};
     ln1_params := toy_norm; ln2_params := toy_norm |}.

Definition toy_params : ModelParams xint :=
  {| token_table := λ idx, Fin (Z.of_nat (sum_list idx));
     position_table := λ idx, Fin (Z.of_nat (sum_list idx));
     block_params := λ _, toy_block;
     ln_f_params := toy_norm;
     lm_head_params := toy_linear |}.

(** A generator that counts its draws; every mask keeps every element and
    every categorical draw is the first category. *)
Definition toy_random (g : nat) : Z * nat := (Z.of_nat (7 * g + 3), S g).
Definition toy_bernoulli (q : Q) (s : list nat) (g : nat)
  : (list nat → bool) * nat := (λ _, true, S g).
Definition toy_categorical (w : list xint) (g : nat) : nat * nat := (0%nat, S g).

(** Two inputs of shape (1, 2, 2) that differ at the second position only. *)
Definition toy_input (last : Z) : tensor xint :=
  Tensor [1; 2; 2]%nat
    (λ idx, match idx with
            | [_; O; c] => Fin (Z.of_nat c + 1)
            | _ => Fin last
            end).

(** The script's hyperparameters with a head count that does not divide the
    embedding dimension. *)
Definition uneven_hyper : Hyper :=
  {| batch_size := 64; block_size := 30; n_embed := 40; n_head := 3;
     n_layer := 3; dropout := 0.2 |}.

(** A corpus of thirty characters, "abab...": its validation split holds
    three ids, one more than the window of the small configuration. *)
Definition toy_long_text : pystr := concat (replicate 15 [97; 98]%N).

Definition toy_head : HeadParams xint :=
  {| key0 := λ _, Fin 1; query0 := λ _, Fin 1; value0 := λ _, Fin 1 |}.

(** The check of the weights on the small instance: none is [-inf] or
    negative.  (Integer division rounds the probabilities of this instance
    down, so their sum is not looked at.) *)
Definition toy_weights_ok (w : list xint) : bool :=
  forallb (λ x, match x with Fin z => bool_decide (0 ≤ z) | NegInf => false end) w.

#[global] Instance xint_kinds : ScalarKinds xint := {|
  finite x := match x with Fin _ => True | NegInf => False end;
  positive x := match x with Fin z => 0 < z | NegInf => False end;
  neg_zero _ := False
|}.

(** ** An instance with the special values of IEEE

    Rationals extended with NaN and the two infinities.  The arithmetic on
    the special values is that of IEEE floats: [0 * inf], [inf - inf],
    [0 / 0] and [inf / inf] are NaN, and NaN propagates.  There is no
    rounding and no negative zero; [exp], [log] and [sqrt] are stand-ins
    ([2 ^ floor x] and the like) with the right special values. *)

Inductive xfloat := NaN | PInf | NInf | Num (q : Qc).

Definition xfloat_neg (a : xfloat) : xfloat :=
  match a with NaN => NaN | PInf => NInf | NInf => PInf | Num x => Num (- x)%Qc end.

Definition xfloat_add (a b : xfloat) : xfloat :=
  match a, b with
  | NaN, _ | _, NaN => NaN
  | PInf, NInf | NInf, PInf => NaN
  | PInf, _ | _, PInf => PInf
  | NInf, _ | _, NInf => NInf
  | Num x, Num y => Num (x + y)%Qc
  end.

Definition xfloat_sub (a b : xfloat) : xfloat := xfloat_add a (xfloat_neg b).

(** An infinity of the sign of [x], NaN for zero. *)
Definition xfloat_signed (x : Qc) (pos neg : xfloat) : xfloat :=
  match (x ?= 0)%Qc with Gt => pos | Lt => neg | Eq => NaN end.

Definition xfloat_mul (a b : xfloat) : xfloat :=
  match a, b with
  | NaN, _ | _, NaN => NaN
  | Num x, Num y => Num (x * y)%Qc
  | Num x, PInf | PInf, Num x => xfloat_signed x PInf NInf
  | Num x, NInf | NInf, Num x => xfloat_signed x NInf PInf
  | PInf, PInf | NInf, NInf => PInf
  | PInf, NInf | NInf, PInf => NInf
  end.

Definition xfloat_div (a b : xfloat) : xfloat :=
  match a, b with
  | NaN, _ | _, NaN => NaN
  | Num x, Num y =>
      match (y ?= 0)%Qc with
      | Eq => xfloat_signed x PInf NInf
      | _ => Num (x / y)%Qc
      end
  | Num _, (PInf | NInf) => Num 0%Qc
  | (PInf | NInf), (PInf | NInf) => NaN
  | PInf, Num y => match (y ?= 0)%Qc with Lt => NInf | _ => PInf end
  | NInf, Num y => match (y ?= 0)%Qc with Lt => PInf | _ => NInf end
  end.

Definition xfloat_exp (a : xfloat) : xfloat :=
  match a with
  | NaN => NaN
  | PInf => PInf
  | NInf => Num 0%Qc
  | Num x => Num (Q2Qc (Qpower 2 (Qfloor x)))
  end.

Definition xfloat_log (a : xfloat) : xfloat :=
  match a with
  | NaN | NInf => NaN
  | PInf => PInf
  | Num x =>
      match (x ?= 0)%Qc with
      | Lt => NaN
      | Eq => NInf
      | Gt => Num (Q2Qc (inject_Z (Z.log2 (Qfloor x))))
      end
  end.

Definition xfloat_sqrt (a : xfloat) : xfloat :=
  match a with
  | NaN | NInf => NaN
  | PInf => PInf
  | Num x =>
      match (x ?= 0)%Qc with
      | Lt => NaN
      | _ => Num (Q2Qc (inject_Z (Z.sqrt (Qfloor x))))
      end
  end.

Definition xfloat_max (a b : xfloat) : xfloat :=
  match a, b with
  | NaN, _ | _, NaN => NaN
  | PInf, _ | _, PInf => PInf
  | NInf, y => y
  | x, NInf => x
  | Num x, Num y => match (x ?= y)%Qc with Lt => Num y | _ => Num x end
  end.

Definition xfloat_eqb (a b : xfloat) : bool :=
  match a, b with
  | PInf, PInf | NInf, NInf => true
  | Num x, Num y => match (x ?= y)%Qc with Eq => true | _ => false end
  | _, _ => false
  end.

#[global] Instance xfloat_scalar : Scalar xfloat := {|
  of_Q q := Num (Q2Qc q);
  fadd := xfloat_add; fsub := xfloat_sub; fmul := xfloat_mul;
  fdiv := xfloat_div; fneg := xfloat_neg; fexp := xfloat_exp;
  flog := xfloat_log; fsqrt := xfloat_sqrt; fmax := xfloat_max;
  feqb := xfloat_eqb; neg_inf := NInf
|}.

#[global] Instance xfloat_kinds : ScalarKinds xfloat := {|
  finite x := match x with Num _ => True | _ => False end;
  positive x :=
    match x with PInf => True | Num q => (0 < q)%Qc | _ => False end;
  neg_zero _ := False
|}.

Definition float_linear : LinearParams xfloat :=
  {| weight0 := λ idx, Num (Q2Qc (inject_Z (Z.of_nat (sum_list idx))));
     bias0 := λ _, Num 1%Qc |}.

Definition float_attention : AttentionParams xfloat :=
  {| attn_params := float_linear; proj_params := float_linear |}.

(** Inputs of shape (1, 2, 2) with the second position filled with
    [last]. *)
Definition float_input (last : xfloat) : tensor xfloat :=
  Tensor [1; 2; 2]%nat
    (λ idx, match idx with
            | [_; O; c] => Num (Q2Qc (inject_Z (Z.of_nat c + 1)))
            | _ => last
            end).

Definition float_norm : LayerNormParams xfloat :=
  {| gamma0 := λ _, Num 1%Qc; beta0 := λ _, Num 0%Qc |}.

Definition float_block : BlockParams xfloat :=
  {| sa_params := float_attention;
     ffwd_params := {| net0_params := float_linear; net2_params := float_linear |};
     ln1_params := float_norm; ln2_params := float_norm |}.

Definition float_params : ModelParams xfloat :=
  {| token_table := λ idx,
       match idx with
       | [t; c] => Num (Q2Qc (inject_Z (Z.of_nat (c * (2 + 2 * t)))))
       | _ => Num 0%Qc
       end;
     position_table := λ idx, Num (Q2Qc (inject_Z (Z.of_nat (sum_list idx))));
     block_params := λ _, float_block;
     ln_f_params := float_norm;
     lm_head_params := float_linear |}.

(** * Properties *)

(** ** The vocabulary *)

Lemma dict_of_snoc `{Countable K} {V} (kvs : list (K * V)) kv :
  dict_of (kvs ++ [kv]) = <[kv.1 := kv.2]> (dict_of kvs).
Proof. unfold dict_of. by rewrite foldl_app. Qed.

Lemma dict_of_lookup `{Countable K} {V} (kvs : list (K * V)) k v :
  NoDup kvs.*1 → dict_of kvs !! k = Some v ↔ (k, v) ∈ kvs.
Proof.
  induction kvs as [|[k' v'] kvs IH] using rev_ind; intros Hnd.
  - unfold dict_of; simpl. rewrite lookup_empty. split; [done|]. by intros ?%elem_of_nil.
  - rewrite dict_of_snoc. simpl.
    rewrite fmap_app in Hnd. apply NoDup_app in Hnd as (Hnd & Hdisj & _).
    rewrite elem_of_app, list_elem_of_singleton.
    destruct (decide (k' = k)) as [->|Hne].
    + rewrite lookup_insert_eq. split.
      * intros [= ->]. by right.
      * intros [Hin|[= <-]]; [|done].
        exfalso. apply (Hdisj k); [|simpl; left].
        apply list_elem_of_fmap. by exists (k, v).
    + rewrite lookup_insert_ne by done. rewrite IH by done.
      split; [by left|]. intros [?|[= ? ?]]; [done|congruence].
Qed.

Lemma enumerate_elem_of {A} (l : list A) (i : Z) (x : A) :
  (i, x) ∈ enumerate l ↔ 0 ≤ i ∧ l !! Z.to_nat i = Some x.
Proof.
  unfold enumerate. rewrite list_elem_of_lookup. split.
  - intros (n & Hn). rewrite list_lookup_imap in Hn.
    destruct (l !! n) eqn:E; simplify_eq/=. rewrite Nat2Z.id. split; [lia|done].
  - intros (Hi & Hl). exists (Z.to_nat i). rewrite list_lookup_imap, Hl. simpl.
    by rewrite Z2Nat.id.
Qed.

Lemma enumerate_fst_NoDup {A} (l : list A) : NoDup (enumerate l).*1.
Proof.
  apply NoDup_alt. intros i j k. unfold enumerate.
  rewrite !list_lookup_fmap, !list_lookup_imap.
  destruct (l !! i) eqn:Ei, (l !! j) eqn:Ej; simpl; intros; simplify_eq/=. lia.
Qed.

Lemma enumerate_snd_NoDup {A} (l : list A) :
  NoDup l → NoDup ((λ p : Z * A, (p.2, p.1)) <$> enumerate l).*1.
Proof.
  intros Hl. apply NoDup_alt. intros i j k. unfold enumerate.
  rewrite !list_lookup_fmap, !list_lookup_imap.
  destruct (l !! i) eqn:Ei, (l !! j) eqn:Ej; simpl; intros; simplify_eq/=.
  eapply NoDup_lookup; eauto.
Qed.

Section CorpusFacts.
Variable text : pystr.

Lemma chars_NoDup : NoDup (chars text).
Proof.
  unfold chars. rewrite merge_sort_Permutation. apply NoDup_elements.
Qed.

Lemma elem_of_chars ch : ch ∈ chars text ↔ ch ∈ text.
Proof.
  unfold chars. rewrite merge_sort_Permutation, elem_of_elements.
  apply elem_of_list_to_set.
Qed.

Lemma chars_sorted : Sorted N.le (chars text).
Proof. apply Sorted_merge_sort. intros x y. lia. Qed.

Lemma itos_lookup i ch :
  itos text !! i = Some ch ↔ 0 ≤ i ∧ chars text !! Z.to_nat i = Some ch.
Proof.
  unfold itos. rewrite dict_of_lookup by apply enumerate_fst_NoDup.
  apply enumerate_elem_of.
Qed.

Lemma stoi_lookup ch i :
  stoi text !! ch = Some i ↔ 0 ≤ i ∧ chars text !! Z.to_nat i = Some ch.
Proof.
  unfold stoi.
  rewrite dict_of_lookup by apply enumerate_snd_NoDup, chars_NoDup.
  rewrite list_elem_of_fmap. split.
  - intros ([i' ch'] & [= -> ->] & Hin). by apply enumerate_elem_of.
  - intros Hin. exists (i, ch). split; [done|]. by apply enumerate_elem_of.
Qed.

Lemma stoi_itos ch i : stoi text !! ch = Some i ↔ itos text !! i = Some ch.
Proof. by rewrite stoi_lookup, itos_lookup. Qed.

Lemma stoi_is_Some ch : ch ∈ text → is_Some (stoi text !! ch).
Proof.
  intros (n & Hn)%elem_of_chars%list_elem_of_lookup.
  exists (Z.of_nat n). apply stoi_lookup. rewrite Nat2Z.id. split; [lia|done].
Qed.

Lemma itos_is_Some i : 0 ≤ i < vocab_size text → is_Some (itos text !! i).
Proof.
  unfold vocab_size. intros Hi.
  destruct (lookup_lt_is_Some_2 (chars text) (Z.to_nat i)) as [ch Hch]; [lia|].
  exists ch. apply itos_lookup. split; [lia|done].
Qed.

Lemma stoi_range ch i : stoi text !! ch = Some i → 0 ≤ i < vocab_size text.
Proof.
  intros (Hi & Hl%lookup_lt_Some)%stoi_lookup. unfold vocab_size. lia.
Qed.

Lemma join_singletons (l : pystr) : join ((λ ch, [ch]) <$> l) = l.
Proof. unfold join. induction l; simpl; [done|]. by f_equal. Qed.

Lemma encode_Some s :
  (∀ ch, ch ∈ s → ch ∈ text) →
  ∃ ids, encode text s = Some ids ∧
         Forall2 (λ ch i, stoi text !! ch = Some i) s ids.
Proof.
  intros Hs. unfold encode.
  destruct (mapM (λ ch, stoi text !! ch) s) as [ids|] eqn:E.
  - exists ids. split; [done|]. by apply mapM_Some.
  - exfalso. assert (is_Some (mapM (λ ch, stoi text !! ch) s)) as [? ?];
      [|congruence].
    apply mapM_is_Some. apply Forall_forall. intros ch Hch.
    by apply stoi_is_Some, Hs.
Qed.

Lemma decode_Some ids :
  Forall (λ i, 0 ≤ i < vocab_size text) ids →
  ∃ s, decode text ids = Some s ∧
       Forall2 (λ i ch, itos text !! i = Some ch) ids s.
Proof.
  intros Hids. unfold decode.
  destruct (mapM (λ i, itos text !! i) ids) as [s|] eqn:E.
  - exists s. simpl. rewrite join_singletons. split; [done|].
    by apply mapM_Some.
  - exfalso. assert (is_Some (mapM (λ i, itos text !! i) ids)) as [? ?];
      [|congruence].
    apply mapM_is_Some. eapply Forall_impl; [done|]. apply itos_is_Some.
Qed.
End CorpusFacts.

(** C9. Round trip of the codec: a string made only of characters of the
    corpus is encoded (no [KeyError]), and decoding its ids gives the string
    back. *)
Theorem decode_encode (text s : pystr) :
  (∀ ch, ch ∈ s → ch ∈ text) →
  encode text s ≫= decode text = Some s.
Proof.
  intros Hs. destruct (encode_Some text s Hs) as (ids & -> & Hall). simpl.
  unfold decode.
  assert (mapM (λ i, itos text !! i) ids = Some s) as ->.
  { apply mapM_Some. apply Forall2_flip. eapply Forall2_impl; [done|].
    intros ch i. apply stoi_itos. }
  simpl. by rewrite join_singletons.
Qed.

(** C10. Converse round trip: a list of ids below [vocab_size] is decoded (no
    [KeyError]), and encoding the resulting string gives the ids back. *)
Theorem encode_decode (text : pystr) (ids : list Z) :
  Forall (λ i, 0 ≤ i < vocab_size text) ids →
  decode text ids ≫= encode text = Some ids.
Proof.
  intros Hids. destruct (decode_Some text ids Hids) as (s & -> & Hall). simpl.
  unfold encode. apply mapM_Some. apply Forall2_flip.
  eapply Forall2_impl; [done|]. intros i ch. apply stoi_itos.
Qed.

(** ** The split *)

Lemma split_point_range (len : nat) :
  0 ≤ split_point len ≤ Z.of_nat len.
Proof.
  unfold split_point. split.
  - apply Z.div_pos; lia.
  - apply Z.div_le_upper_bound; lia.
Qed.

Lemma slice_bound_id (len : nat) (i : Z) :
  0 ≤ i ≤ Z.of_nat len → slice_bound len i = Z.to_nat i.
Proof. intros Hi. unfold slice_bound. case_decide; lia. Qed.

Lemma train_of_take (data : list Z) :
  train_of data = take (Z.to_nat (split_point (length data))) data.
Proof.
  unfold train_of, slice_to.
  by rewrite slice_bound_id by apply split_point_range.
Qed.

Lemma val_of_drop (data : list Z) :
  val_of data = drop (Z.to_nat (split_point (length data))) data.
Proof.
  unfold val_of, slice_from.
  by rewrite slice_bound_id by apply split_point_range.
Qed.

Lemma encode_text_length (text : pystr) :
  ∃ data, encode text text = Some data ∧ length data = length text.
Proof.
  destruct (encode_Some text text) as (data & Hd & Hall); [done|].
  exists data. split; [done|]. symmetry. by eapply Forall2_length.
Qed.

(** C8. The corpus is encoded without error, the training sequence is its
    first [int(0.9 * len)] ids and the validation sequence the rest: the
    two are read from disjoint index ranges, their concatenation is the
    encoded corpus and their lengths add up to its length. *)
Theorem split_reconstructs (text : pystr) :
  ∃ data, encode text text = Some data ∧
    train_of data ++ val_of data = data ∧
    (length (train_of data) + length (val_of data) = length data)%nat ∧
    Z.of_nat (length (train_of data)) = 9 * Z.of_nat (length data) / 10 ∧
    (∀ i, (i < length (train_of data))%nat → train_of data !! i = data !! i) ∧
    (∀ j, val_of data !! j = data !! (length (train_of data) + j)%nat).
Proof.
  destruct (encode_text_length text) as (data & Hd & _).
  exists data. split; [done|].
  pose proof (split_point_range (length data)) as Hn.
  rewrite train_of_take, val_of_drop.
  set (n := Z.to_nat (split_point (length data))).
  assert (length (take n data) = n) as Hlen by (rewrite length_take; lia).
  rewrite Hlen. repeat split.
  - apply take_drop.
  - rewrite length_drop. lia.
  - unfold n, split_point in *. lia.
  - intros i Hi. by apply lookup_take_lt.
  - intros j. apply lookup_drop.
Qed.

(** ** Batches *)

Section BatchFacts.
Variable G : Type.
Variable random_ : G → Z * G.

Lemma randint_draw_spec high n g :
  0 < high →
  length (randint_draw G random_ high n g).1 = n ∧
  Forall (λ i, 0 ≤ i < high) (randint_draw G random_ high n g).1.
Proof.
  intros Hh. revert g. induction n as [|n IH]; intros g; simpl.
  - split; [done|constructor].
  - destruct (random_ g) as [r g1].
    specialize (IH g1). destruct (randint_draw G random_ high n g1) as [rs g2].
    simpl in *. destruct IH as [IH1 IH2]. split; [by f_equal|].
    constructor; [|done]. by apply Z.mod_pos_bound.
Qed.

Lemma slice_window {A} (l : list A) (off bs : Z) :
  0 ≤ off → 0 ≤ bs → off + bs ≤ Z.of_nat (length l) →
  slice off (off + bs) l = take (Z.to_nat bs) (drop (Z.to_nat off) l).
Proof.
  intros. unfold slice. rewrite !slice_bound_id by lia. f_equal. lia.
Qed.

Lemma window_length {A} (l : list A) (off bs : nat) :
  (off + bs ≤ length l)%nat → length (take bs (drop off l)) = bs.
Proof. intros. rewrite length_take, length_drop. lia. Qed.

Lemma window_lookup {A} (l : list A) (off bs i : nat) :
  (i < bs)%nat → take bs (drop off l) !! i = l !! (off + i)%nat.
Proof. intros. rewrite lookup_take_lt by done. apply lookup_drop. Qed.

Lemma stack_Some {A} (rows : list (list A)) (n : nat) :
  rows ≠ [] → Forall (λ r, length r = n) rows → stack rows = Some rows.
Proof.
  intros Hne Hall. destruct rows as [|r rows]; [done|]. unfold stack.
  rewrite decide_True; [done|].
  eapply Forall_impl; [done|]. intros r' ->. symmetry.
  by apply Forall_cons_1 in Hall as [? ?].
Qed.
End BatchFacts.

(** C7. When the chosen split is longer than [block_size], [get_batch]
    returns [batch_size] pairs of windows.  Row [r] of the inputs and of the
    targets are the [block_size] ids of the split starting at an offset in
    [0, len - block_size), resp. one position later: a target is the next
    input, and the last target is the id one past the input window. *)
Theorem get_batch_windows (G : Type) (random_ : G → Z * G) (hp : Hyper)
    (corpus : list Z) (split : string) (g : G) :
  0 ≤ block_size hp < Z.of_nat (length (split_data corpus split)) →
  0 < batch_size hp →
  ∃ x y g', get_batch G random_ hp corpus split g = Some (x, y, g') ∧
    Z.of_nat (length x) = batch_size hp ∧ length y = length x ∧
    ∀ r xr, x !! r = Some xr →
      ∃ (off : nat) yr, y !! r = Some yr ∧
        Z.of_nat off < Z.of_nat (length (split_data corpus split)) - block_size hp ∧
        Z.of_nat (length xr) = block_size hp ∧
        Z.of_nat (length yr) = block_size hp ∧
        (∀ i, Z.of_nat i < block_size hp →
           xr !! i = split_data corpus split !! (off + i)%nat ∧
           yr !! i = split_data corpus split !! (off + i + 1)%nat) ∧
        (∀ i, Z.of_nat i + 1 < block_size hp → yr !! i = xr !! (i + 1)%nat) ∧
        (0 < block_size hp →
           yr !! (Z.to_nat (block_size hp) - 1)%nat =
           split_data corpus split !! (off + Z.to_nat (block_size hp))%nat).
Proof.
  intros Hbs Hbatch. unfold get_batch.
  set (data := split_data corpus split) in *.
  set (bs := block_size hp) in *.
  set (high := Z.of_nat (length data) - bs).
  assert (0 < high) as Hhigh by (unfold high; lia).
  unfold randint. rewrite decide_True by lia.
  destruct (randint_draw_spec G random_ high (Z.to_nat (batch_size hp)) g Hhigh)
    as [Hlen Hix].
  destruct (randint_draw G random_ high (Z.to_nat (batch_size hp)) g)
    as [ix g'] eqn:Hdraw.
  simpl in Hlen, Hix. simpl.
  assert (ix ≠ []) as Hne by (intros ->; simpl in Hlen; lia).
  rewrite (stack_Some _ (Z.to_nat bs)); simpl.
  2:{ by destruct ix. }
  2:{ apply Forall_fmap. eapply Forall_impl; [exact Hix|]. intros i Hi. simpl.
      rewrite slice_window by (unfold high in Hi; lia).
      apply window_length. unfold high in Hi. lia. }
  rewrite (stack_Some _ (Z.to_nat bs)); simpl.
  2:{ by destruct ix. }
  2:{ apply Forall_fmap. eapply Forall_impl; [exact Hix|]. intros i Hi. simpl.
      replace (i + 1 + bs) with ((i + 1) + bs) by lia.
      rewrite slice_window by (unfold high in Hi; lia).
      apply window_length. unfold high in Hi. lia. }
  eexists _, _, _. split; [done|].
  rewrite !length_fmap. split; [lia|]. split; [done|].
  intros r xr Hxr. rewrite list_lookup_fmap in Hxr.
  destruct (ix !! r) as [i|] eqn:Hi; [|done]. simpl in Hxr.
  assert (0 ≤ i < high) as Hir.
  { eapply Forall_lookup_1 in Hix; [exact Hix|done]. }
  unfold high in Hir.
  rewrite slice_window in Hxr by lia. injection Hxr as <-.
  exists (Z.to_nat i), (take (Z.to_nat bs) (drop (Z.to_nat (i + 1)) data)).
  split.
  { rewrite list_lookup_fmap, Hi. simpl. f_equal.
    replace (i + 1 + bs) with ((i + 1) + bs) by lia.
    apply slice_window; lia. }
  split; [lia|].
  rewrite !window_length by lia.
  split; [lia|]. split; [lia|].
  assert (∀ k, (k < Z.to_nat bs)%nat →
     take (Z.to_nat bs) (drop (Z.to_nat (i + 1)) data) !! k =
     data !! (Z.to_nat i + k + 1)%nat) as Hy.
  { intros k Hk. rewrite window_lookup by done. f_equal. lia. }
  split; [|split].
  - intros k Hk. split.
    + apply window_lookup. lia.
    + apply Hy. lia.
  - intros k Hk. rewrite Hy by lia. rewrite window_lookup by lia.
    f_equal. lia.
  - intros Hpos. rewrite Hy by lia. f_equal. lia.
Qed.

(** ** Tensor operations *)

Lemma broadcast_dim_refl n : broadcast_dim n n = Some n.
Proof. unfold broadcast_dim. by rewrite decide_True. Qed.

Lemma broadcast_rev_refl s : broadcast_rev s s = Some s.
Proof. induction s as [|d s IH]; simpl; [done|]. by rewrite broadcast_dim_refl, IH. Qed.

Lemma broadcast_refl s : broadcast s s = Some s.
Proof. unfold broadcast. rewrite broadcast_rev_refl. simpl. by rewrite reverse_involutive. Qed.

Lemma broadcast_dim_Some x y d :
  broadcast_dim x y = Some d →
  (x = y ∧ d = x) ∨ (x = 1%nat ∧ d = y) ∨ (y = 1%nat ∧ d = x).
Proof. unfold broadcast_dim. repeat case_decide; naive_solver. Qed.

Section ScalarFacts.
Context `{Scalar F}.

Lemma fsum_ext n (f g : nat → F) :
  (∀ j, (j < n)%nat → f j = g j) → fsum n f = fsum n g.
Proof.
  unfold fsum. intros Hfg.
  assert (∀ l a, Forall (λ j, (j < n)%nat) l →
     foldl (λ acc j, fadd acc (f j)) a l = foldl (λ acc j, fadd acc (g j)) a l) as Hl.
  { induction l as [|j l IH]; intros a Hall; simpl; [done|].
    apply Forall_cons_1 in Hall as [Hj Hall]. rewrite Hfg by done. by apply IH. }
  apply Hl. apply Forall_forall. intros j Hj%elem_of_seq. lia.
Qed.

Lemma fsum_S n (f : nat → F) : fsum (S n) f = fadd (fsum n f) (f n).
Proof. unfold fsum. rewrite seq_S, foldl_app. done. Qed.
End ScalarFacts.

Lemma bcast_index_id s idx :
  Forall2 (λ d i, (i < d)%nat) s idx → bcast_index s idx = idx.
Proof.
  intros Hall. unfold bcast_index.
  rewrite (Forall2_length _ _ _ Hall), Nat.sub_diag, drop_0.
  induction Hall as [|d i s idx Hi Hall IH]; simpl; [done|].
  rewrite IH. f_equal. case_decide; lia.
Qed.

Lemma norm_dim_examples :
  norm_dim 4 (-2) = Some 2%nat ∧ norm_dim 4 (-1) = Some 3%nat ∧
  norm_dim 4 1 = Some 1%nat ∧ norm_dim 4 2 = Some 2%nat.
Proof. done. Qed.

Section OpFacts.
Context `{Scalar F}.

Lemma Linear_forward_inv3 (l : Linear F) (x y : tensor F) B T C :
  shape x = [B; T; C] → Linear_forward l x = Some y →
  C = in_features l ∧ shape y = [B; T; out_features l] ∧
  ∀ b t o, val y [b; t; o] =
    fadd (fsum (in_features l) (λ c, fmul (val x [b; t; c]) (weight l [o; c])))
         (bias l [o]).
Proof.
  intros Hs. unfold Linear_forward. rewrite Hs.
  change (reverse [B; T; C]) with [C; T; B]. lazy iota beta.
  case_decide; [|done]. intros [= <-]. done.
Qed.

Lemma Linear_forward_Some3 (l : Linear F) (x : tensor F) B T :
  shape x = [B; T; in_features l] → is_Some (Linear_forward l x).
Proof.
  intros Hs. unfold Linear_forward. rewrite Hs.
  change (reverse [B; T; in_features l]) with [in_features l; T; B].
  lazy iota beta. by rewrite decide_True.
Qed.

Lemma split_chunks_3 (n : nat) :
  (0 < n)%nat →
  split_chunks (Z.of_nat n) (3 * n) =
    Some [(0, n); (n, n); (2 * n, n)]%nat.
Proof.
  intros Hn. unfold split_chunks.
  rewrite decide_False by lia. rewrite decide_False by lia.
  rewrite Nat2Z.id.
  replace ((3 * n + n - 1) / n)%nat with 3%nat.
  2:{ apply (Nat.div_unique _ _ _ (n - 1)%nat); lia. }
  simpl. repeat f_equal; lia.
Qed.

Lemma split_inv3 (size : Z) (x : tensor F) B T (n : nat) q k v :
  shape x = [B; T; (3 * n)%nat] → size = Z.of_nat n →
  split size 2 x = Some [q; k; v] →
  (0 < n)%nat ∧
  shape q = [B; T; n] ∧ shape k = [B; T; n] ∧ shape v = [B; T; n] ∧
  ∀ b t c, val q [b; t; c] = val x [b; t; c] ∧
           val k [b; t; c] = val x [b; t; (c + n)%nat] ∧
           val v [b; t; c] = val x [b; t; (c + 2 * n)%nat].
Proof.
  intros Hs -> Hsplit. unfold split in Hsplit. rewrite Hs in Hsplit.
  simpl in Hsplit.
  destruct (decide (n = 0%nat)) as [->|Hn].
  { by vm_compute in Hsplit. }
  rewrite split_chunks_3 in Hsplit by lia. simpl in Hsplit.
  injection Hsplit as <- <- <-. split; [lia|]. simpl.
  repeat split; try done. by rewrite Nat.add_0_r.
Qed.

Lemma view_shape_nonneg (sizes : list Z) (n : nat) :
  Forall (λ d, 0 ≤ d) sizes →
  view_shape sizes n =
    if decide (numel (Z.to_nat <$> sizes) = n) then Some (Z.to_nat <$> sizes)
    else None.
Proof.
  intros Hall. unfold view_shape.
  rewrite decide_False.
  2:{ rewrite Exists_exists. intros (d & Hd & Hlt).
      rewrite Forall_forall in Hall. specialize (Hall d Hd). lia. }
  assert (filter (λ d, d ≠ -1) sizes = sizes) as ->.
  { induction Hall as [|d l Hd Hl IH]; [done|].
    rewrite filter_cons_True by lia. by rewrite IH. }
  by rewrite Nat.sub_diag.
Qed.

Lemma view_shape_4_neg (a b c d : Z) (n : nat) :
  0 ≤ a → 0 ≤ b → c < 0 → d < 0 → view_shape [a; b; c; d] n = None.
Proof.
  intros Ha Hb Hc Hd. unfold view_shape.
  case_decide as Hex; [done|].
  assert (c = -1 ∧ d = -1) as [-> ->].
  { split.
    - destruct (decide (c < -1)); [|lia]. exfalso. apply Hex.
      apply Exists_cons_tl, Exists_cons_tl, Exists_cons_hd. done.
    - destruct (decide (d < -1)); [|lia]. exfalso. apply Hex.
      apply Exists_cons_tl, Exists_cons_tl, Exists_cons_tl, Exists_cons_hd. done. }
  rewrite !filter_cons. rewrite filter_nil.
  rewrite (decide_True (P := a ≠ -1)) by lia.
  rewrite (decide_True (P := b ≠ -1)) by lia.
  rewrite (decide_False (P := -1 ≠ -1)) by lia. done.
Qed.

Lemma div_neg_divisor (a b : Z) : 0 < a → b < 0 → a `div` b < 0.
Proof.
  intros Ha Hb. pose proof (Z.div_mod a b ltac:(lia)) as Hdm.
  pose proof (Z.mod_neg_bound a b Hb). nia.
Qed.

Lemma unflat_heads (B T C nh hs b i h d : nat) :
  (nh * hs = C)%nat → (i < T)%nat → (h < nh)%nat → (d < hs)%nat →
  unflat [B; T; C] (flat [B; T; nh; hs] [b; i; h; d]) =
    [b; i; (h * hs + d)%nat].
Proof.
  intros <- Hi Hh Hd. cbn [unflat flat numel foldr].
  rewrite !Nat.mul_1_r, !Nat.add_0_r, Nat.div_1_r.
  set (C := (nh * hs)%nat).
  assert (h * hs + d < C)%nat as Hc by (unfold C; nia).
  assert (i * C + (h * hs + d) < T * C)%nat as Hic by nia.
  set (n := (b * (T * C) + (i * C + (h * hs + d)))%nat).
  assert (n = (T * C) * b + (i * C + (h * hs + d)))%nat as Hn by (unfold n; lia).
  assert (n / (T * C) = b)%nat as Hq.
  { symmetry. apply (Nat.div_unique _ _ _ (i * C + (h * hs + d))%nat); lia. }
  assert (n `mod` (T * C) = i * C + (h * hs + d))%nat as Hr.
  { symmetry. apply (Nat.mod_unique _ _ b); lia. }
  rewrite Hq, Hr. f_equal. f_equal.
  - symmetry. apply (Nat.div_unique _ _ _ (h * hs + d)%nat); lia.
  - f_equal. symmetry. apply (Nat.mod_unique _ _ i); lia.
Qed.

Lemma unflat_merge (B T C nh hs b i c : nat) :
  (nh * hs = C)%nat → (i < T)%nat → (c < C)%nat →
  unflat [B; T; nh; hs] (flat [B; T; C] [b; i; c]) =
    [b; i; (c / hs)%nat; (c `mod` hs)%nat].
Proof.
  intros <- Hi Hc. cbn [unflat flat numel foldr].
  rewrite !Nat.mul_1_r, !Nat.add_0_r, Nat.div_1_r.
  set (C := (nh * hs)%nat) in *.
  assert (0 < hs)%nat as Hhs by (unfold C in Hc; nia).
  assert (i * C + c < T * C)%nat as Hic by nia.
  set (n := (b * (T * C) + (i * C + c))%nat).
  assert (n / (T * C) = b)%nat as Hq.
  { symmetry. apply (Nat.div_unique _ _ _ (i * C + c)%nat); unfold n; lia. }
  assert (n `mod` (T * C) = i * C + c)%nat as Hr.
  { symmetry. apply (Nat.mod_unique _ _ b); unfold n; lia. }
  rewrite Hq, Hr. f_equal.
  assert ((i * C + c) / C = i)%nat as Hq2.
  { symmetry. apply (Nat.div_unique _ _ _ c); lia. }
  assert ((i * C + c) `mod` C = c)%nat as Hr2.
  { symmetry. apply (Nat.mod_unique _ _ i); lia. }
  by rewrite Hq2, Hr2.
Qed.

Lemma to_heads_inv (hp : Hyper) (B T C : nat) (t t' : tensor F) :
  shape t = [B; T; C] → (0 < C)%nat → to_heads hp B T C t = Some t' →
  ∃ nh : nat, n_head hp = Z.of_nat nh ∧ (0 < nh)%nat ∧
    (B * (T * (nh * (C / nh))) = B * (T * C))%nat ∧
    shape t' = [B; nh; T; (C / nh)%nat] ∧
    ∀ b h i d, val t' [b; h; i; d] =
      val t (unflat [B; T; C] (flat [B; T; nh; (C / nh)%nat] [b; i; h; d])).
Proof.
  intros Hs HC. unfold to_heads, floordiv.
  case_decide as Hnh0; [done|]. cbn [mbind option_bind].
  destruct (decide (n_head hp < 0)) as [Hneg|Hpos].
  { unfold view. rewrite view_shape_4_neg; [done|lia|lia|done|].
    apply div_neg_divisor; lia. }
  assert (0 ≤ Z.of_nat C `div` n_head hp) as Hhs by (apply Z.div_pos; lia).
  unfold view. rewrite view_shape_nonneg by (repeat constructor; lia).
  rewrite Hs. cbn [fmap list_fmap numel foldr].
  rewrite !Nat2Z.id.
  replace (Z.to_nat (Z.of_nat C `div` n_head hp))
    with (C / Z.to_nat (n_head hp))%nat.
  2:{ rewrite Z2Nat.inj_div by lia. by rewrite Nat2Z.id. }
  set (nh := Z.to_nat (n_head hp)).
  case_decide as Hnum; [|done]. cbn [mbind option_bind].
  unfold transpose. cbn [shape length].
  change (norm_dim 4 1) with (Some 1%nat). change (norm_dim 4 2) with (Some 2%nat).
  cbn [mbind option_bind]. intros [= <-].
  exists nh. split; [unfold nh; lia|]. split; [unfold nh; lia|].
  split; [lia|]. split; [done|]. done.
Qed.

Lemma to_heads_Some (hp : Hyper) (B T C nh : nat) (t : tensor F) :
  shape t = [B; T; C] → n_head hp = Z.of_nat nh → (0 < nh)%nat →
  (B * (T * (nh * (C / nh))) = B * (T * C))%nat →
  is_Some (to_heads hp B T C t).
Proof.
  intros Hs Hnh Hpos Hnum. unfold to_heads, floordiv.
  rewrite decide_False by lia. cbn [mbind option_bind].
  assert (0 ≤ Z.of_nat C `div` n_head hp) as Hhs by (apply Z.div_pos; lia).
  unfold view. rewrite view_shape_nonneg by (repeat constructor; lia).
  rewrite Hs. cbn [fmap list_fmap numel foldr].
  rewrite !Nat2Z.id.
  replace (Z.to_nat (Z.of_nat C `div` n_head hp)) with (C / nh)%nat.
  2:{ rewrite Z2Nat.inj_div by lia. rewrite Nat2Z.id. f_equal. lia. }
  replace (Z.to_nat (n_head hp)) with nh by lia.
  rewrite decide_True by (rewrite !Nat.mul_1_r; exact Hnum).
  cbn [mbind option_bind]. unfold transpose. cbn [shape length].
  change (norm_dim 4 1) with (Some 1%nat). change (norm_dim 4 2) with (Some 2%nat).
  done.
Qed.
End OpFacts.

(** ** The attention layer *)

Section LayerSetup.
Context `{Scalar F}.
Variable G : Type.
Variable bernoulli_ : Q → list nat → G → (list nat → bool) * G.
Variable hp : Hyper.

Lemma nn_Linear_inv (i o : Z) (θ : LinearParams F) (l : Linear F) :
  nn_Linear i o θ = Some l →
  0 ≤ i ∧ 0 ≤ o ∧ in_features l = Z.to_nat i ∧ out_features l = Z.to_nat o.
Proof. unfold nn_Linear. case_decide; [|done]. intros [= <-]. simpl. lia. Qed.

Lemma nn_Linear_Some (i o : Z) (θ : LinearParams F) :
  0 ≤ i → 0 ≤ o → is_Some (nn_Linear (F := F) i o θ).
Proof. intros. unfold nn_Linear. by rewrite decide_True. Qed.

Lemma tril_ones (bs : Z) (t : tensor F) :
  ones [bs; bs] ≫= tril_of = Some t →
  0 ≤ bs ∧ shape t = [Z.to_nat bs; Z.to_nat bs] ∧
  ∀ i j, val t [i; j] = if decide (j ≤ i)%nat then f1 else f0.
Proof.
  unfold ones. case_decide as Hall; [|done]. cbn [mbind option_bind].
  unfold tril_of. cbn [shape fmap list_fmap length]. rewrite decide_True by lia.
  intros [= <-]. apply Forall_cons_1 in Hall as [? _]. done.
Qed.

Lemma mha_init_inv (e : Z) (θ : AttentionParams F) (m : MultiHeadAttention F) :
  MultiHeadAttention_init hp e θ = Some m →
  0 ≤ e ∧ 0 ≤ block_size hp ∧
  in_features (attn m) = Z.to_nat e ∧
  out_features (attn m) = (3 * Z.to_nat e)%nat ∧
  in_features (proj m) = Z.to_nat e ∧ out_features (proj m) = Z.to_nat e ∧
  shape (tril m) = [Z.to_nat (block_size hp); Z.to_nat (block_size hp)] ∧
  ∀ i j, val (tril m) [i; j] = if decide (j ≤ i)%nat then f1 else f0.
Proof.
  unfold MultiHeadAttention_init. intros Hm.
  destruct (nn_Linear e (3 * e) (attn_params θ)) as [la|] eqn:Ea; [|done].
  destruct (nn_Linear e e (proj_params θ)) as [lp|] eqn:Ep; [|done].
  cbn [mbind option_bind] in Hm.
  destruct (nn_Dropout (dropout hp)) as [d|]; [|done].
  cbn [mbind option_bind] in Hm.
  destruct (ones [block_size hp; block_size hp] ≫= tril_of) as [t|] eqn:Et; [|done].
  cbn [mbind option_bind] in Hm. injection Hm as <-. cbn.
  apply nn_Linear_inv in Ea as (? & ? & -> & ->).
  apply nn_Linear_inv in Ep as (? & ? & -> & ->).
  apply tril_ones in Et as (? & ? & ?).
  repeat split; try done; lia.
Qed.

Lemma mha_init_Some (e : Z) (θ : AttentionParams F) :
  0 ≤ e → 0 ≤ block_size hp → dropout_ok hp →
  is_Some (MultiHeadAttention_init (F := F) hp e θ).
Proof.
  intros He Hbs Hd. unfold MultiHeadAttention_init.
  destruct (nn_Linear_Some e (3 * e) (attn_params θ)) as [la ->]; [lia..|].
  destruct (nn_Linear_Some e e (proj_params θ)) as [lp ->]; [lia..|].
  cbn [mbind option_bind]. unfold nn_Dropout. rewrite Hd. cbn [mbind option_bind].
  unfold ones. rewrite decide_True by (repeat constructor; lia).
  cbn [mbind option_bind]. unfold tril_of. cbn [shape fmap list_fmap length].
  rewrite decide_True by lia. done.
Qed.

Lemma Dropout_forward_shape (d : Dropout) tr (x : tensor F) (g : G) :
  shape (Dropout_forward G bernoulli_ d tr x g).1 = shape x.
Proof.
  unfold Dropout_forward. destruct tr; [|done].
  by destruct (bernoulli_ _ _ g).
Qed.

Lemma matmul_inv4 (a b z : tensor F) s0 s1 n m m' p :
  matmul a b = Some z →
  shape a = [s0; s1; n; m] → shape b = [s0; s1; m'; p] →
  m = m' ∧ shape z = [s0; s1; n; p] ∧
  ∀ i0 i1 i j, (i0 < s0)%nat → (i1 < s1)%nat →
    val z [i0; i1; i; j] =
      fsum m (λ l, fmul (val a [i0; i1; i; l]) (val b [i0; i1; l; j])).
Proof.
  intros Hz Ha Hb. revert Hz. unfold matmul. rewrite Ha, Hb.
  change (reverse [s0; s1; n; m]) with [m; n; s1; s0].
  change (reverse [s0; s1; m'; p]) with [p; m'; s1; s0]. lazy iota beta.
  case_decide as Hm; [|done].
  change (reverse [s1; s0]) with [s0; s1]. rewrite broadcast_refl.
  cbn [mbind option_bind]. intros [= <-]. split; [done|]. split; [done|].
  intros i0 i1 i j Hi0 Hi1. cbn [val].
  change (unsnoc2 [i0; i1; i; j]) with ([i0; i1], i, j). lazy iota beta.
  rewrite bcast_index_id by (repeat constructor; done). done.
Qed.

Lemma matmul_Some4 (a b : tensor F) s0 s1 n m p :
  shape a = [s0; s1; n; m] → shape b = [s0; s1; m; p] →
  is_Some (matmul a b).
Proof.
  intros Ha Hb. unfold matmul. rewrite Ha, Hb.
  change (reverse [s0; s1; n; m]) with [m; n; s1; s0].
  change (reverse [s0; s1; m; p]) with [p; m; s1; s0]. lazy iota beta.
  rewrite decide_True by done.
  change (reverse [s1; s0]) with [s0; s1]. rewrite broadcast_refl. done.
Qed.

Lemma transpose_last2 {A} (x : tensor A) s0 s1 c d :
  shape x = [s0; s1; c; d] →
  transpose (-2) (-1) x =
    Some (Tensor [s0; s1; d; c] (λ idx, val x (swap_at 2 3 idx))).
Proof. intros Hs. unfold transpose. rewrite Hs. done. Qed.

Lemma transpose_12 {A} (x : tensor A) s0 s1 c d :
  shape x = [s0; s1; c; d] →
  transpose 1 2 x =
    Some (Tensor [s0; c; s1; d] (λ idx, val x (swap_at 1 2 idx))).
Proof. intros Hs. unfold transpose. rewrite Hs. done. Qed.

Lemma broadcast_mask (B nh T bs : nat) :
  broadcast [B; nh; T; T] [bs; bs] =
    (λ d, [B; nh; d; d]) <$> broadcast_dim T bs.
Proof.
  unfold broadcast.
  change (reverse [B; nh; T; T]) with [T; T; nh; B].
  change (reverse [bs; bs]) with [bs; bs]. cbn [broadcast_rev].
  destruct (broadcast_dim T bs) as [d|]; done.
Qed.
End LayerSetup.

Section AttentionHeads.
Context `{Scalar F}.
Variable G : Type.
Variable bernoulli_ : Q → list nat → G → (list nat → bool) * G.
Variable hp : Hyper.

Lemma qkv_heads_inv θ (m : MultiHeadAttention F) (x q k v : tensor F) B T C :
  MultiHeadAttention_init hp (n_embed hp) θ = Some m →
  shape x = [B; T; C] →
  qkv_heads hp m x = Some (q, k, v) →
  ∃ nh : nat,
    n_embed hp = Z.of_nat C ∧ (0 < C)%nat ∧
    n_head hp = Z.of_nat nh ∧ (0 < nh)%nat ∧
    (B * (T * (nh * (C / nh))) = B * (T * C))%nat ∧
    shape q = [B; nh; T; (C / nh)%nat] ∧
    shape k = [B; nh; T; (C / nh)%nat] ∧
    shape v = [B; nh; T; (C / nh)%nat] ∧
    ∀ b h i d, (i < T)%nat → (h < nh)%nat → (d < C / nh)%nat →
      (nh * (C / nh) = C)%nat →
      val q [b; h; i; d] = fused m x b i (h * (C / nh) + d) ∧
      val k [b; h; i; d] = fused m x b i (h * (C / nh) + d + C) ∧
      val v [b; h; i; d] = fused m x b i (h * (C / nh) + d + 2 * C).
Proof.
  intros Hm Hs Hq. apply mha_init_inv in Hm as (He & _ & Hin & Hout & _).
  unfold qkv_heads in Hq. rewrite Hs in Hq.
  destruct (Linear_forward (attn m) x) as [qkv|] eqn:Elin; [|done].
  cbn [mbind option_bind] in Hq.
  apply (Linear_forward_inv3 _ _ _ B T C Hs) in Elin as (HC & Hqs & Hqv).
  rewrite Hout, <- Hin, <- HC in Hqs.
  destruct (split (n_embed hp) 2 qkv) as [chunks|] eqn:Esplit; [|done].
  cbn [mbind option_bind] in Hq.
  destruct chunks as [|q0 [|k0 [|v0 [|? ?]]]]; try done.
  apply (split_inv3 _ _ B T C) in Esplit as (HCpos & Hq0 & Hk0 & Hv0 & Hvals);
    [|done|lia].
  destruct (to_heads hp B T C k0) as [k1|] eqn:Ek; [|done].
  destruct (to_heads hp B T C q0) as [q1|] eqn:Eq; [|done].
  destruct (to_heads hp B T C v0) as [v1|] eqn:Ev; [|done].
  cbn [mbind option_bind] in Hq. injection Hq as -> -> ->.
  apply (to_heads_inv _ _ _ _ _ _ Hk0 HCpos) in Ek as (nh & Hnh & Hnhpos & Hnum & Hks & Hkv).
  apply (to_heads_inv _ _ _ _ _ _ Hq0 HCpos) in Eq as (nh' & Hnh' & _ & _ & Hqs' & Hqv').
  apply (to_heads_inv _ _ _ _ _ _ Hv0 HCpos) in Ev as (nh'' & Hnh'' & _ & _ & Hvs & Hvv).
  assert (nh' = nh) as -> by lia. assert (nh'' = nh) as -> by lia.
  exists nh. repeat (split; [done || lia|]).
  intros b h i d Hi Hh Hd Hdiv.
  rewrite Hqv', Hkv, Hvv.
  rewrite !(unflat_heads B T C) by done.
  destruct (Hvals b i (h * (C / nh) + d)%nat) as (-> & -> & ->).
  rewrite !Hqv. unfold fused. done.
Qed.

Lemma qkv_heads_Some θ (m : MultiHeadAttention F) (x : tensor F) B T C nh :
  MultiHeadAttention_init hp (n_embed hp) θ = Some m →
  shape x = [B; T; C] →
  n_embed hp = Z.of_nat C → (0 < C)%nat →
  n_head hp = Z.of_nat nh → (0 < nh)%nat →
  (B * (T * (nh * (C / nh))) = B * (T * C))%nat →
  is_Some (qkv_heads hp m x).
Proof.
  intros Hm Hs He HC Hnh Hnhpos Hdiv.
  apply mha_init_inv in Hm as (_ & _ & Hin & Hout & _).
  unfold qkv_heads. rewrite Hs.
  destruct (Linear_forward_Some3 (attn m) x B T) as [qkv Elin].
  { rewrite Hs, Hin. do 3 f_equal. lia. }
  rewrite Elin. cbn [mbind option_bind].
  apply (Linear_forward_inv3 _ _ _ B T C Hs) in Elin as (HC' & Hqs & _).
  rewrite Hout, <- Hin, <- HC' in Hqs.
  unfold split. rewrite Hqs. cbn [lookup list_lookup mbind option_bind].
  rewrite He, split_chunks_3 by done. cbn [mbind option_bind fmap list_fmap].
  cbn [shape list_insert].
  match goal with |- context [to_heads hp B T C ?t] =>
    destruct (to_heads_Some hp B T C nh t) as [k1 ->]; try done end.
  cbn [mbind option_bind].
  match goal with |- context [to_heads hp B T C ?t] =>
    destruct (to_heads_Some hp B T C nh t) as [q1 ->]; try done end.
  cbn [mbind option_bind].
  match goal with |- context [to_heads hp B T C ?t] =>
    destruct (to_heads_Some hp B T C nh t) as [v1 ->]; try done end.
Qed.
End AttentionHeads.

Section AttentionWeights.
Context `{Scalar F}.
Variable G : Type.
Variable bernoulli_ : Q → list nat → G → (list nat → bool) * G.
Variable hp : Hyper.

Lemma attention_weights_inv (m : MultiHeadAttention F) tr (q k att : tensor F)
    (g g1 : G) B nh T hs bs :
  shape (tril m) = [bs; bs] →
  shape q = [B; nh; T; hs] → shape k = [B; nh; T; hs] →
  attention_weights G bernoulli_ m tr q k g = Some (att, g1) →
  (0 < hs)%nat ∧
  ∃ d, broadcast_dim T bs = Some d ∧ shape att = [B; nh; d; d].
Proof.
  intros Htril Hq Hk. unfold attention_weights.
  rewrite (transpose_last2 k B nh T hs Hk). cbn [mbind option_bind].
  destruct (matmul q _) as [qk|] eqn:Eqk; [|done].
  destruct (matmul_inv4 _ _ _ B nh T hs hs T Eqk Hq eq_refl) as (_ & Hqks & _).
  cbn [mbind option_bind]. rewrite Hk.
  change (last [B; nh; T; hs]) with (Some hs). cbn [mbind option_bind].
  unfold inv_sqrt. case_decide as Hhs; [done|]. cbn [mbind option_bind].
  unfold masked_fill. cbn [shape mul_scalar eq_scalar].
  rewrite Hqks, Htril, broadcast_mask.
  destruct (broadcast_dim T bs) as [d|]; [|done].
  cbn [fmap option_fmap option_map mbind option_bind].
  intros [= Hatt]. split; [lia|]. exists d. split; [done|].
  match type of Hatt with Dropout_forward _ _ ?dr _ ?a _ = _ =>
    pose proof (Dropout_forward_shape G bernoulli_ dr tr a g) as Hd end.
  rewrite Hatt in Hd. exact Hd.
Qed.

Lemma attention_weights_Some (m : MultiHeadAttention F) tr (q k : tensor F)
    (g : G) B nh T hs bs d :
  shape (tril m) = [bs; bs] → broadcast_dim T bs = Some d →
  shape q = [B; nh; T; hs] → shape k = [B; nh; T; hs] → (0 < hs)%nat →
  is_Some (attention_weights G bernoulli_ m tr q k g).
Proof.
  intros Htril Hd Hq Hk Hhs. unfold attention_weights.
  rewrite (transpose_last2 k B nh T hs Hk). cbn [mbind option_bind].
  destruct (matmul_Some4 q (Tensor [B; nh; hs; T] (λ idx, val k (swap_at 2 3 idx)))
              B nh T hs T Hq eq_refl) as [qk Eqk].
  rewrite Eqk.
  destruct (matmul_inv4 _ _ _ B nh T hs hs T Eqk Hq eq_refl) as (_ & Hqks & _).
  cbn [mbind option_bind]. rewrite Hk.
  change (last [B; nh; T; hs]) with (Some hs). cbn [mbind option_bind].
  unfold inv_sqrt. rewrite decide_False by lia. cbn [mbind option_bind].
  unfold masked_fill. cbn [shape mul_scalar eq_scalar].
  rewrite Hqks, Htril, broadcast_mask, Hd. done.
Qed.

Context `{ScalarKinds F} `{!ScalarLaws F}.

Lemma attention_weights_eval (m : MultiHeadAttention F) (q k att : tensor F)
    (g g1 : G) B nh T hs :
  shape (tril m) = [T; T] →
  (∀ i j, val (tril m) [i; j] = if decide (j ≤ i)%nat then f1 else f0) →
  shape q = [B; nh; T; hs] → shape k = [B; nh; T; hs] →
  attention_weights G bernoulli_ m false q k g = Some (att, g1) →
  g1 = g ∧ shape att = [B; nh; T; T] ∧
  ∀ b h i j, (b < B)%nat → (h < nh)%nat → (i < T)%nat → (j < T)%nat →
    val att [b; h; i; j] =
      fdiv (fexp (masked_score q k hs b h i j))
           (fsum T (λ j', fexp (masked_score q k hs b h i j'))).
Proof.
  intros Htril Htv Hq Hk. unfold attention_weights.
  rewrite (transpose_last2 k B nh T hs Hk). cbn [mbind option_bind].
  destruct (matmul q _) as [qk|] eqn:Eqk; [|done].
  destruct (matmul_inv4 _ _ _ B nh T hs hs T Eqk Hq eq_refl) as (_ & Hqks & Hqkv).
  cbn [mbind option_bind]. rewrite Hk.
  change (last [B; nh; T; hs]) with (Some hs). cbn [mbind option_bind].
  unfold inv_sqrt. case_decide as Hhs; [done|]. cbn [mbind option_bind].
  unfold masked_fill. cbn [shape mul_scalar eq_scalar].
  rewrite Hqks, Htril, broadcast_mask, broadcast_dim_refl.
  cbn [fmap option_fmap option_map mbind option_bind Dropout_forward].
  intros [= <- <-]. split; [done|]. split; [done|].
  assert (∀ b h i j, (b < B)%nat → (h < nh)%nat → (i < T)%nat → (j < T)%nat →
    (if feqb (val (tril m) (bcast_index [T; T] [b; h; i; j])) f0 then neg_inf
     else fmul (val qk (bcast_index [B; nh; T; T] [b; h; i; j]))
               (fdiv f1 (fsqrt (fof_nat hs)))) =
    masked_score q k hs b h i j) as Hmask.
  { intros b h i j Hb Hh Hi Hj.
    rewrite (bcast_index_id [B; nh; T; T]) by (repeat constructor; done).
    assert (bcast_index [T; T] [b; h; i; j] = [i; j]) as ->.
    { unfold bcast_index. cbn. repeat case_decide; repeat f_equal; lia. }
    rewrite Htv, Hqkv by done. unfold masked_score.
    case_decide.
    - by rewrite feqb_1_0.
    - by rewrite feqb_0_0. }
  intros b h i j Hb Hh Hi Hj. unfold softmax. cbn [val shape].
  change (unsnoc [b; h; i; j]) with ([b; h; i], j). lazy iota beta.
  change (last [B; nh; T; T]) with (Some T). cbn [default from_option].
  rewrite Hmask by done. f_equal.
  apply fsum_ext. intros j' Hj'. rewrite decide_False by done.
  cbn [app]. by rewrite Hmask.
Qed.
End AttentionWeights.

Section AttentionForward.
Context `{Scalar F}.
Variable G : Type.
Variable bernoulli_ : Q → list nat → G → (list nat → bool) * G.
Variable hp : Hyper.

Lemma merge_heads_inv (y y' : tensor F) (B T C nh hs : nat) :
  shape y = [B; nh; T; hs] →
  transpose 1 2 y ≫= view [Z.of_nat B; Z.of_nat T; Z.of_nat C] = Some y' →
  shape y' = [B; T; C] ∧
  ∀ b i c, (nh * hs = C)%nat → (i < T)%nat → (c < C)%nat →
    val y' [b; i; c] = val y [b; (c / hs)%nat; i; (c `mod` hs)%nat].
Proof.
  intros Hy. rewrite (transpose_12 y B nh T hs Hy). cbn [mbind option_bind].
  unfold view. rewrite view_shape_nonneg by (repeat constructor; lia).
  cbn [shape fmap list_fmap]. rewrite !Nat2Z.id.
  case_decide; [|done]. cbn [mbind option_bind]. intros Heq.
  apply (inj Some) in Heq. subst y'. cbn [shape val].
  split; [done|]. intros b i c Hdiv Hi Hc.
  by rewrite (unflat_merge B T C nh hs).
Qed.

Lemma merge_heads_Some (y : tensor F) (B T C nh hs : nat) :
  shape y = [B; nh; T; hs] →
  (B * (T * (nh * hs)) = B * (T * C))%nat →
  is_Some (transpose 1 2 y ≫= view [Z.of_nat B; Z.of_nat T; Z.of_nat C]).
Proof.
  intros Hy Hnum. rewrite (transpose_12 y B nh T hs Hy). cbn [mbind option_bind].
  unfold view. rewrite view_shape_nonneg by (repeat constructor; lia).
  cbn [shape fmap list_fmap numel foldr]. rewrite !Nat2Z.id.
  rewrite decide_True by lia. done.
Qed.

(** A forward pass that succeeds was given an accepted shape, and keeps it
    (in either mode). *)
Lemma mha_forward_inv θ (m : MultiHeadAttention F) tr (x out : tensor F)
    (g g' : G) B T C :
  MultiHeadAttention_init hp (n_embed hp) θ = Some m →
  shape x = [B; T; C] →
  MultiHeadAttention_forward G bernoulli_ hp m tr x g = Some (out, g') →
  mha_accepts hp B T C ∧ shape out = [B; T; C].
Proof.
  intros Hm Hs Hf. unfold MultiHeadAttention_forward in Hf. rewrite Hs in Hf.
  destruct (qkv_heads hp m x) as [[[q k] v]|] eqn:Eh; [|done].
  cbn [mbind option_bind] in Hf.
  destruct (qkv_heads_inv hp θ m x q k v B T C Hm Hs Eh)
    as (nh & He & HC & Hnh & Hnhpos & Hnum & Hqs & Hks & Hvs & _).
  destruct (mha_init_inv hp _ _ _ Hm) as (_ & Hbs & _ & _ & Hpin & Hpout & Htril & _).
  destruct (attention_weights G bernoulli_ m tr q k g) as [[att g1]|] eqn:Ew; [|done].
  cbn [mbind option_bind] in Hf.
  destruct (attention_weights_inv G bernoulli_ m tr q k att g g1 _ _ _ _ _
              Htril Hqs Hks Ew) as (Hhs & d & Hd & Hatt).
  destruct (matmul att v) as [y|] eqn:Ey; [|done].
  cbn [mbind option_bind] in Hf.
  destruct (matmul_inv4 _ _ _ _ _ _ _ _ _ Ey Hatt Hvs) as (HdT & Hys & _).
  subst d.
  destruct (transpose 1 2 y ≫= view [Z.of_nat B; Z.of_nat T; Z.of_nat C])
    as [y'|] eqn:Ey'; [|done].
  cbn [mbind option_bind] in Hf.
  destruct (merge_heads_inv y y' B T C nh _ Hys Ey') as (Hy's & _).
  destruct (Linear_forward (proj m) y') as [o|] eqn:Eo; [|done].
  cbn [mbind option_bind] in Hf.
  destruct (Linear_forward_inv3 _ _ _ B T C Hy's Eo) as (_ & Hos & _).
  injection Hf as Hf. split.
  { exists nh. repeat (split; [done|]). done. }
  match type of Hf with Dropout_forward _ _ ?dr _ ?a ?gg = _ =>
    pose proof (Dropout_forward_shape G bernoulli_ dr tr a gg) as Hdrop end.
  rewrite Hf in Hdrop. cbn [fst] in Hdrop. rewrite Hdrop, Hos, Hpout.
  do 3 f_equal. lia.
Qed.

(** Conversely, on an accepted shape the forward pass succeeds. *)
Lemma mha_forward_Some θ (m : MultiHeadAttention F) tr (x : tensor F)
    (g : G) B T C :
  MultiHeadAttention_init hp (n_embed hp) θ = Some m →
  shape x = [B; T; C] → mha_accepts hp B T C →
  ∃ out g', MultiHeadAttention_forward G bernoulli_ hp m tr x g = Some (out, g') ∧
            shape out = [B; T; C].
Proof.
  intros Hm Hs (nh & He & HC & Hnh & Hnhpos & Hnum & Hhs & Hbd).
  destruct (qkv_heads_Some hp θ m x B T C nh Hm Hs He HC Hnh Hnhpos Hnum)
    as [[[q k] v] Eh].
  destruct (qkv_heads_inv hp θ m x q k v B T C Hm Hs Eh)
    as (nh' & _ & _ & Hnh' & _ & _ & Hqs & Hks & Hvs & _).
  assert (nh' = nh) as -> by lia.
  destruct (mha_init_inv hp _ _ _ Hm) as (_ & _ & _ & _ & Hpin & Hpout & Htril & _).
  destruct (attention_weights_Some G bernoulli_ m tr q k g B nh T _ _ _
              Htril Hbd Hqs Hks Hhs) as [[att g1] Ew].
  destruct (attention_weights_inv G bernoulli_ m tr q k att g g1 _ _ _ _ _
              Htril Hqs Hks Ew) as (_ & d & Hd & Hatt).
  rewrite Hbd in Hd. injection Hd as <-.
  destruct (matmul_Some4 att v _ _ _ _ _ Hatt Hvs) as [y Ey].
  destruct (matmul_inv4 _ _ _ _ _ _ _ _ _ Ey Hatt Hvs) as (_ & Hys & _).
  destruct (merge_heads_Some y B T C nh _ Hys Hnum) as [y' Ey'].
  destruct (merge_heads_inv y y' B T C nh _ Hys Ey') as (Hy's & _).
  destruct (Linear_forward_Some3 (proj m) y' B T) as [o Eo].
  { rewrite Hy's, Hpin. do 3 f_equal. lia. }
  destruct (Linear_forward_inv3 _ _ _ B T C Hy's Eo) as (_ & Hos & _).
  unfold MultiHeadAttention_forward. rewrite Hs, Eh. cbn [mbind option_bind].
  rewrite Ew. cbn [mbind option_bind]. rewrite Ey. cbn [mbind option_bind].
  rewrite Ey'. cbn [mbind option_bind]. rewrite Eo. cbn [mbind option_bind].
  destruct (Dropout_forward G bernoulli_ (resid_dropout m) tr o g1) as [out g'] eqn:Ed.
  exists out, g'. split; [done|].
  pose proof (Dropout_forward_shape G bernoulli_ (resid_dropout m) tr o g1) as Hdrop.
  rewrite Ed in Hdrop. cbn [fst] in Hdrop. rewrite Hdrop, Hos, Hpout.
  do 3 f_equal. lia.
Qed.

(** The accepted sequence lengths: the full window, unless the mask buffer
    is the one-element one that broadcasts to any length. *)
Lemma mha_accepts_window B T C :
  mha_accepts hp B T C →
  T = Z.to_nat (block_size hp) ∨ Z.to_nat (block_size hp) = 1%nat.
Proof.
  intros (nh & _ & _ & _ & _ & _ & _ & Hbd).
  apply broadcast_dim_Some in Hbd. lia.
Qed.

(** With at least one element per feature, the heads divide the embedding
    dimension. *)
Lemma mha_accepts_divides B T C :
  mha_accepts hp B T C → (0 < B)%nat → (0 < T)%nat →
  n_embed hp `mod` n_head hp = 0.
Proof.
  intros (nh & He & HC & Hnh & Hnhpos & Hnum & _ & _) HB HT.
  assert (nh * (C / nh) = C)%nat as Hdiv by nia.
  rewrite He, Hnh. apply Z.mod_divide; [lia|].
  exists (Z.of_nat (C / nh)). lia.
Qed.
End AttentionForward.

Section AttentionCausal.
Context `{Scalar F} `{ScalarKinds F} `{!ScalarLaws F}.
Variable G : Type.
Variable bernoulli_ : Q → list nat → G → (list nat → bool) * G.
Variable hp : Hyper.

(** In evaluation mode the output at a position is the output projection of
    what the heads aggregate there. *)
Lemma mha_forward_eval θ (m : MultiHeadAttention F) (x out : tensor F)
    (g g' : G) B T C :
  MultiHeadAttention_init hp (n_embed hp) θ = Some m →
  shape x = [B; T; C] → T = Z.to_nat (block_size hp) →
  MultiHeadAttention_forward G bernoulli_ hp m false x g = Some (out, g') →
  ∃ q k v (nh : nat),
    qkv_heads hp m x = Some (q, k, v) ∧ n_head hp = Z.of_nat nh ∧
    g' = g ∧
    ∀ b i c, (b < B)%nat → (i < T)%nat → (c < C)%nat →
      val out [b; i; c] =
        fadd (fsum C (λ c',
                fmul (attended q k v (C / nh) T b (c' / (C / nh)) i
                               (c' `mod` (C / nh)))
                     (weight (proj m) [c; c'])))
             (bias (proj m) [c]).
Proof.
  intros Hm Hs HT Hf. unfold MultiHeadAttention_forward in Hf. rewrite Hs in Hf.
  destruct (qkv_heads hp m x) as [[[q k] v]|] eqn:Eh; [|done].
  cbn [mbind option_bind] in Hf.
  destruct (qkv_heads_inv hp θ m x q k v B T C Hm Hs Eh)
    as (nh & He & HC & Hnh & Hnhpos & Hnum & Hqs & Hks & Hvs & _).
  destruct (mha_init_inv hp _ _ _ Hm) as (_ & Hbs & _ & _ & Hpin & Hpout & Htril & Htv).
  rewrite <- HT in Htril.
  destruct (attention_weights G bernoulli_ m false q k g) as [[att g1]|] eqn:Ew; [|done].
  cbn [mbind option_bind] in Hf.
  destruct (attention_weights_eval G bernoulli_ m q k att g g1 _ _ _ _
              Htril Htv Hqs Hks Ew) as (-> & Hatt & Hattv).
  destruct (matmul att v) as [y|] eqn:Ey; [|done].
  cbn [mbind option_bind] in Hf.
  destruct (matmul_inv4 _ _ _ _ _ _ _ _ _ Ey Hatt Hvs) as (_ & Hys & Hyv).
  destruct (transpose 1 2 y ≫= view [Z.of_nat B; Z.of_nat T; Z.of_nat C])
    as [y'|] eqn:Ey'; [|done].
  cbn [mbind option_bind] in Hf.
  destruct (merge_heads_inv y y' B T C nh _ Hys Ey') as (Hy's & Hy'v).
  destruct (Linear_forward (proj m) y') as [o|] eqn:Eo; [|done].
  cbn [mbind option_bind Dropout_forward] in Hf.
  destruct (Linear_forward_inv3 _ _ _ B T C Hy's Eo) as (HCp & _ & Hov).
  injection Hf as <- <-.
  exists q, k, v, nh. repeat (split; [done|]).
  intros b i c Hb Hi Hc. rewrite Hov, <- HCp. f_equal.
  assert (nh * (C / nh) = C)%nat as Hdiv.
  { apply Nat.mul_cancel_l in Hnum; [|lia].
    apply Nat.mul_cancel_l in Hnum; [done|lia]. }
  assert (0 < C / nh)%nat as Hhs by (destruct (C / nh)%nat; lia).
  apply fsum_ext. intros c' Hc'. f_equal.
  rewrite Hy'v by done.
  assert (c' / (C / nh) < nh)%nat as Hh.
  { apply Nat.Div0.div_lt_upper_bound. lia. }
  rewrite Hyv by done. unfold attended.
  apply fsum_ext. intros j Hj. by rewrite Hattv.
Qed.

Lemma fsum_not_neg_zero n (f : nat → F) : ¬ neg_zero (fsum n f).
Proof.
  induction n as [|n IH].
  - apply f0_not_neg_zero.
  - rewrite fsum_S. intros Hn. by apply fadd_neg_zero in Hn.
Qed.

(** Terms that are zero times a finite value leave a sum as it is. *)
Lemma fsum_zero_tail n m (f z : nat → F) :
  (∀ j, (n ≤ j)%nat → (j < n + m)%nat → f j = fmul f0 (z j) ∧ finite (z j)) →
  fsum (n + m) f = fsum n f.
Proof.
  induction m as [|m IH]; intros Hz.
  - by rewrite Nat.add_0_r.
  - replace (n + S m)%nat with (S (n + m)) by lia. rewrite fsum_S.
    destruct (Hz (n + m)%nat) as [-> Hfin]; [lia..|].
    rewrite fadd_0_product by (done || apply fsum_not_neg_zero).
    apply IH. intros j Hj1 Hj2. apply Hz; lia.
Qed.

(** On a regular row, a head's aggregate at query [i] is the sum over the
    keys up to [i]: the later keys weigh zero and add nothing. *)
Lemma attended_prefix (q k v : tensor F) (hs T b h i d : nat) :
  positive (score_sum q k hs T b h i) →
  (∀ j, (i < j)%nat → (j < T)%nat → finite (val v [b; h; j; d])) →
  attended q k v hs T b h i d =
    fsum (T `min` S i)
      (λ j, fmul (fdiv (fexp (masked_score q k hs b h i j))
                       (score_sum q k hs T b h i))
                 (val v [b; h; j; d])).
Proof.
  intros Hpos Hfin. unfold attended. fold (score_sum q k hs T b h i).
  replace T with (T `min` S i + (T - T `min` S i))%nat at 1 by lia.
  apply (fsum_zero_tail _ _ _ (λ j, val v [b; h; j; d])).
  intros j Hj1 Hj2. split; [|apply Hfin; lia].
  unfold masked_score at 1. rewrite decide_False by lia.
  by rewrite fexp_neg_inf, fdiv_0_positive.
Qed.

(** A head's aggregate at query [i] of a regular row reads the query at [i]
    and the keys and values up to [i] only. *)
Lemma attended_causal (q k v q' k' v' : tensor F) (hs T b h i d : nat) :
  (∀ l, (l < hs)%nat → val q [b; h; i; l] = val q' [b; h; i; l]) →
  (∀ j l, (j ≤ i)%nat → (l < hs)%nat → val k [b; h; j; l] = val k' [b; h; j; l]) →
  (∀ j, (j ≤ i)%nat → val v [b; h; j; d] = val v' [b; h; j; d]) →
  positive (score_sum q k hs T b h i) →
  (∀ j, (i < j)%nat → (j < T)%nat → finite (val v [b; h; j; d])) →
  (∀ j, (i < j)%nat → (j < T)%nat → finite (val v' [b; h; j; d])) →
  attended q k v hs T b h i d = attended q' k' v' hs T b h i d.
Proof.
  intros Hq Hk Hv Hpos Hfin Hfin'.
  assert (∀ j, masked_score q k hs b h i j = masked_score q' k' hs b h i j)
    as Hscore.
  { intros j. unfold masked_score. case_decide; [|done]. f_equal.
    apply fsum_ext. intros l Hl. by rewrite Hq, Hk. }
  assert (score_sum q k hs T b h i = score_sum q' k' hs T b h i) as Hsum.
  { unfold score_sum. apply fsum_ext. intros j' _. by rewrite Hscore. }
  rewrite !attended_prefix by (done || by rewrite <- Hsum).
  rewrite <- Hsum. apply fsum_ext. intros j Hj.
  rewrite Hscore, Hv by lia. done.
Qed.

Lemma fused_agree (m : MultiHeadAttention F) (x x' : tensor F) (b t o : nat) :
  (∀ c, (c < in_features (attn m))%nat → val x [b; t; c] = val x' [b; t; c]) →
  fused m x b t o = fused m x' b t o.
Proof.
  intros Hx. unfold fused. f_equal. apply fsum_ext. intros c Hc. by rewrite Hx.
Qed.
End AttentionCausal.

(** ** Claims about the attention layer *)

#[global] Instance xint_laws : ScalarLaws xint.
Proof.
  split.
  - reflexivity.
  - intros [|z]; [done|]. intros Hz. simpl in Hz. cbn.
    rewrite Z.div_0_l by lia. done.
  - intros [|a] [|x]; try done. intros _ _. cbn. f_equal. lia.
  - done.
  - intros [].
  - reflexivity.
  - reflexivity.
Qed.

#[global] Instance xfloat_laws : ScalarLaws xfloat.
Proof.
  split.
  - reflexivity.
  - intros [| | |d]; try done. intros Hd. simpl in Hd. cbn.
    apply (proj1 (Qcgt_alt d 0)) in Hd. rewrite Hd. f_equal.
    unfold Qcdiv. apply Qcmult_0_l.
  - intros a [| | |x]; try done. intros _ _. cbn.
    change (Q2Qc 0 * x)%Qc with (0 * x)%Qc. rewrite Qcmult_0_l.
    destruct a as [| | |a]; try done. cbn. f_equal. apply Qcplus_0_r.
  - done.
  - intros [].
  - reflexivity.
  - reflexivity.
Qed.

Section AttentionClaims.
Context `{Scalar F}.
Variable G : Type.
Variable bernoulli_ : Q → list nat → G → (list nat → bool) * G.
Variable hp : Hyper.

(** C1 (the code departs from the claim). The [tril] buffer is applied whole,
    not sliced to the sequence length: an input shorter than the window is
    rejected, in either mode and whatever its batch size and values. *)
Theorem attention_rejects_short_input θ (m : MultiHeadAttention F) tr
    (x : tensor F) (g : G) B T C :
  MultiHeadAttention_init hp (n_embed hp) θ = Some m →
  shape x = [B; T; C] →
  (1 ≤ T)%nat → Z.of_nat T < block_size hp →
  MultiHeadAttention_forward G bernoulli_ hp m tr x g = None.
Proof.
  intros Hm Hs HT Hbs.
  destruct (MultiHeadAttention_forward G bernoulli_ hp m tr x g)
    as [[out g']|] eqn:Ef; [|done].
  destruct (mha_forward_inv G bernoulli_ hp θ m tr x out g g' B T C Hm Hs Ef)
    as [Hacc _].
  apply mha_accepts_window in Hacc. lia.
Qed.

Context `{ScalarKinds F} `{!ScalarLaws F}.

End AttentionClaims.

Lemma float_row_regular (last : Qc) :
  ∀ m, MultiHeadAttention_init toy_hyper 2 float_attention = Some m →
  row_regular toy_hyper m (float_input (Num last)) 2 2 0 0.
Proof.
  intros m Hm. apply (inj Some) in Hm. subst m.
  intros q k v E h d Hh Hd.
  assert (h = 0%nat) as -> by (simpl in Hh; lia).
  apply (inj Some) in E. injection E as <- <- <-.
  split.
  - vm_compute. reflexivity.
  - intros j Hj1 Hj2. assert (j = 1%nat) as -> by lia.
    destruct d as [|[|d]]; [exact I|exact I|simpl in Hd; lia].
Qed.



Lemma attention_rejects_short_input_witness :
  ∃ m, MultiHeadAttention_init toy_hyper 2 toy_attention = Some m ∧
    MultiHeadAttention_forward nat toy_bernoulli toy_hyper m true
      (Tensor [1; 1; 2]%nat (λ _, Fin 1)) 0%nat = None.
Proof.
  eexists. split; [reflexivity|].
  apply (attention_rejects_short_input nat toy_bernoulli toy_hyper toy_attention
           _ true _ 0%nat 1 1 2).
  - reflexivity.
  - reflexivity.
  - lia.
  - simpl. lia.
Defined.

(** ** Blocks *)

Section BlockFacts.
Context `{Scalar F}.
Variable G : Type.
Variable bernoulli_ : Q → list nat → G → (list nat → bool) * G.
Variable hp : Hyper.

Lemma LayerNorm_forward_inv3 (l : LayerNorm F) (x y : tensor F) B T C :
  shape x = [B; T; C] → LayerNorm_forward l x = Some y →
  C = normalized_shape l ∧ shape y = [B; T; C].
Proof.
  intros Hs. unfold LayerNorm_forward. rewrite Hs.
  change (last [B; T; C]) with (Some C). lazy iota beta.
  case_decide; [|done]. intros Heq. apply (inj Some) in Heq. by subst y.
Qed.

Lemma LayerNorm_forward_Some3 (l : LayerNorm F) (x : tensor F) B T :
  shape x = [B; T; normalized_shape l] → is_Some (LayerNorm_forward l x).
Proof.
  intros Hs. unfold LayerNorm_forward. rewrite Hs.
  change (last [B; T; normalized_shape l]) with (Some (normalized_shape l)).
  lazy iota beta. by rewrite decide_True.
Qed.

Lemma nn_LayerNorm_inv (n : Z) θ (l : LayerNorm F) :
  nn_LayerNorm n θ = Some l → 0 ≤ n ∧ normalized_shape l = Z.to_nat n.
Proof. unfold nn_LayerNorm. case_decide; [|done]. by intros [= <-]. Qed.

Lemma nn_LayerNorm_Some (n : Z) (θ : LayerNormParams F) :
  0 ≤ n → is_Some (nn_LayerNorm n θ).
Proof. intros. unfold nn_LayerNorm. by rewrite decide_True. Qed.

Lemma add_same_shape (a b z : tensor F) s :
  shape a = s → shape b = s → add a b = Some z → shape z = s.
Proof.
  intros Ha Hb. unfold add. rewrite Ha, Hb, broadcast_refl.
  cbn [mbind option_bind]. intros Heq. apply (inj Some) in Heq. by subst z.
Qed.

Lemma add_same_Some (a b : tensor F) s :
  shape a = s → shape b = s → is_Some (add a b).
Proof. intros Ha Hb. unfold add. by rewrite Ha, Hb, broadcast_refl. Qed.

Lemma FeedForward_init_inv (e : Z) θ (m : FeedForward F) :
  FeedForward_init hp e θ = Some m →
  in_features (net0 m) = Z.to_nat e ∧
  out_features (net0 m) = in_features (net2 m) ∧
  out_features (net2 m) = Z.to_nat e.
Proof.
  unfold FeedForward_init. intros Hm.
  destruct (nn_Linear e (4 * e) (net0_params θ)) as [l0|] eqn:E0; [|done].
  destruct (nn_Linear (4 * e) e (net2_params θ)) as [l2|] eqn:E2; [|done].
  cbn [mbind option_bind] in Hm.
  destruct (nn_Dropout (dropout hp)) as [d|]; [|done].
  cbn [mbind option_bind] in Hm. injection Hm as <-. cbn.
  apply nn_Linear_inv in E0 as (? & ? & -> & ->).
  apply nn_Linear_inv in E2 as (? & ? & -> & ->). done.
Qed.

Lemma FeedForward_init_Some (e : Z) (θ : FeedForwardParams F) :
  0 ≤ e → dropout_ok hp → is_Some (FeedForward_init hp e θ).
Proof.
  intros He Hd. unfold FeedForward_init.
  destruct (nn_Linear_Some (F := F) e (4 * e) (net0_params θ)) as [l0 ->]; [lia..|].
  destruct (nn_Linear_Some (F := F) (4 * e) e (net2_params θ)) as [l2 ->]; [lia..|].
  cbn [mbind option_bind]. unfold nn_Dropout. rewrite Hd. done.
Qed.

Lemma FeedForward_forward_inv θ (m : FeedForward F) tr (x y : tensor F)
    (g g' : G) B T C :
  FeedForward_init hp (n_embed hp) θ = Some m →
  shape x = [B; T; C] →
  FeedForward_forward G bernoulli_ m tr x g = Some (y, g') →
  shape y = [B; T; Z.to_nat (n_embed hp)].
Proof.
  intros Hm Hs. apply FeedForward_init_inv in Hm as (Hin & Hmid & Hout).
  unfold FeedForward_forward.
  destruct (Linear_forward (net0 m) x) as [h|] eqn:Eh; [|done].
  cbn [mbind option_bind].
  destruct (Linear_forward_inv3 _ _ _ B T C Hs Eh) as (_ & Hhs & _).
  destruct (Linear_forward (net2 m) (relu h)) as [o|] eqn:Eo; [|done].
  cbn [mbind option_bind].
  destruct (Linear_forward_inv3 (net2 m) (relu h) o B T _ Hhs Eo) as (_ & Hos & _).
  intros [= Hd].
  pose proof (Dropout_forward_shape G bernoulli_ (net3 m) tr o g) as Hdrop.
  rewrite Hd in Hdrop. cbn [fst] in Hdrop. by rewrite Hdrop, Hos, Hout.
Qed.

Lemma FeedForward_forward_Some θ (m : FeedForward F) tr (x : tensor F)
    (g : G) B T :
  FeedForward_init hp (n_embed hp) θ = Some m →
  shape x = [B; T; Z.to_nat (n_embed hp)] →
  ∃ y g', FeedForward_forward G bernoulli_ m tr x g = Some (y, g').
Proof.
  intros Hm Hs. apply FeedForward_init_inv in Hm as (Hin & Hmid & Hout).
  unfold FeedForward_forward.
  destruct (Linear_forward_Some3 (net0 m) x B T) as [h Eh]; [by rewrite Hs, Hin|].
  rewrite Eh. cbn [mbind option_bind].
  destruct (Linear_forward_inv3 _ _ _ B T _ Hs Eh) as (_ & Hhs & _).
  destruct (Linear_forward_Some3 (net2 m) (relu h) B T) as [o Eo].
  { cbn [relu shape]. by rewrite Hhs, Hmid. }
  rewrite Eo. cbn [mbind option_bind].
  destruct (Dropout_forward G bernoulli_ (net3 m) tr o g) as [y g']. eauto.
Qed.

Lemma Block_init_inv θ (b : Block F) :
  Block_init hp (n_embed hp) (n_head hp) θ = Some b →
  MultiHeadAttention_init hp (n_embed hp) (sa_params θ) = Some (sa b) ∧
  FeedForward_init hp (n_embed hp) (ffwd_params θ) = Some (ffwd b) ∧
  normalized_shape (ln1 b) = Z.to_nat (n_embed hp) ∧
  normalized_shape (ln2 b) = Z.to_nat (n_embed hp).
Proof.
  unfold Block_init. intros Hb.
  destruct (MultiHeadAttention_init hp (n_embed hp) (sa_params θ)) as [s|]; [|done].
  destruct (FeedForward_init hp (n_embed hp) (ffwd_params θ)) as [f|]; [|done].
  cbn [mbind option_bind] in Hb.
  destruct (nn_LayerNorm (n_embed hp) (ln1_params θ)) as [l1|] eqn:E1; [|done].
  destruct (nn_LayerNorm (n_embed hp) (ln2_params θ)) as [l2|] eqn:E2; [|done].
  cbn [mbind option_bind] in Hb. injection Hb as <-. cbn.
  apply nn_LayerNorm_inv in E1 as [_ ->]. apply nn_LayerNorm_inv in E2 as [_ ->].
  done.
Qed.

Lemma Block_init_Some (θ : BlockParams F) :
  0 ≤ n_embed hp → 0 ≤ block_size hp → dropout_ok hp →
  is_Some (Block_init hp (n_embed hp) (n_head hp) θ).
Proof.
  intros He Hbs Hd. unfold Block_init.
  destruct (mha_init_Some (F := F) hp (n_embed hp) (sa_params θ)) as [s ->]; [done..|].
  destruct (FeedForward_init_Some (n_embed hp) (ffwd_params θ)) as [f ->]; [done..|].
  cbn [mbind option_bind].
  destruct (nn_LayerNorm_Some (n_embed hp) (ln1_params θ)) as [l1 ->]; [done|].
  destruct (nn_LayerNorm_Some (n_embed hp) (ln2_params θ)) as [l2 ->]; [done|].
  done.
Qed.

Lemma Block_forward_inv (b : Block F) tr (x y : tensor F) (g g' : G) B T C :
  built_block hp b → shape x = [B; T; C] →
  Block_forward G bernoulli_ hp b tr x g = Some (y, g') →
  mha_accepts hp B T C ∧ shape y = [B; T; C].
Proof.
  intros [θ Hb] Hs. apply Block_init_inv in Hb as (Hsa & Hff & Hl1 & Hl2).
  unfold Block_forward.
  destruct (LayerNorm_forward (ln1 b) x) as [h|] eqn:Eh; [|done].
  cbn [mbind option_bind].
  destruct (LayerNorm_forward_inv3 _ _ _ B T C Hs Eh) as (HC & Hhs).
  destruct (MultiHeadAttention_forward G bernoulli_ hp (sa b) tr h g)
    as [[a g1]|] eqn:Ea; [|done].
  cbn [mbind option_bind].
  destruct (mha_forward_inv G bernoulli_ hp _ _ tr h a g g1 B T C Hsa Hhs Ea)
    as (Hacc & Has).
  destruct (add x a) as [x1|] eqn:Ex1; [|done]. cbn [mbind option_bind].
  pose proof (add_same_shape _ _ _ _ Hs Has Ex1) as Hx1.
  destruct (LayerNorm_forward (ln2 b) x1) as [h2|] eqn:Eh2; [|done].
  cbn [mbind option_bind].
  destruct (LayerNorm_forward_inv3 _ _ _ B T C Hx1 Eh2) as (_ & Hh2s).
  destruct (FeedForward_forward G bernoulli_ (ffwd b) tr h2 g1)
    as [[f g2]|] eqn:Ef; [|done].
  cbn [mbind option_bind].
  pose proof (FeedForward_forward_inv _ _ tr h2 f g1 g2 B T C Hff Hh2s Ef) as Hfs.
  rewrite <- Hl1, <- HC in Hfs.
  destruct (add x1 f) as [x2|] eqn:Ex2; [|done]. cbn [mbind option_bind].
  pose proof (add_same_shape _ _ _ _ Hx1 Hfs Ex2) as Hx2.
  intros [= <- <-]. done.
Qed.

Lemma Block_forward_Some (b : Block F) tr (x : tensor F) (g : G) B T C :
  built_block hp b → shape x = [B; T; C] → mha_accepts hp B T C →
  ∃ y g', Block_forward G bernoulli_ hp b tr x g = Some (y, g') ∧
          shape y = [B; T; C].
Proof.
  intros [θ Hb] Hs Hacc.
  pose proof Hb as Hb'. apply Block_init_inv in Hb' as (Hsa & Hff & Hl1 & Hl2).
  assert (C = Z.to_nat (n_embed hp)) as HC.
  { destruct Hacc as (nh & He & _). lia. }
  destruct (LayerNorm_forward_Some3 (ln1 b) x B T) as [h Eh]; [by rewrite Hs, Hl1, HC|].
  destruct (LayerNorm_forward_inv3 _ _ _ B T C Hs Eh) as (_ & Hhs).
  destruct (mha_forward_Some G bernoulli_ hp _ _ tr h g B T C Hsa Hhs Hacc)
    as (a & g1 & Ea & Has).
  destruct (add_same_Some x a _ Hs Has) as [x1 Ex1].
  pose proof (add_same_shape _ _ _ _ Hs Has Ex1) as Hx1.
  destruct (LayerNorm_forward_Some3 (ln2 b) x1 B T) as [h2 Eh2]; [by rewrite Hx1, Hl2, HC|].
  destruct (LayerNorm_forward_inv3 _ _ _ B T C Hx1 Eh2) as (_ & Hh2s).
  destruct (FeedForward_forward_Some _ _ tr h2 g1 B T Hff) as (f & g2 & Ef).
  { by rewrite Hh2s, HC. }
  pose proof (FeedForward_forward_inv _ _ tr h2 f g1 g2 B T C Hff Hh2s Ef) as Hfs.
  rewrite <- HC in Hfs.
  destruct (add_same_Some x1 f _ Hx1 Hfs) as [x2 Ex2].
  pose proof (add_same_shape _ _ _ _ Hx1 Hfs Ex2) as Hx2.
  exists x2, g2. split; [|done].
  unfold Block_forward. rewrite Eh. cbn [mbind option_bind].
  rewrite Ea. cbn [mbind option_bind]. rewrite Ex1. cbn [mbind option_bind].
  rewrite Eh2. cbn [mbind option_bind]. rewrite Ef. cbn [mbind option_bind].
  rewrite Ex2. done.
Qed.

Lemma Sequential_forward_inv (bs : list (Block F)) tr (x y : tensor F)
    (g g' : G) B T C :
  Forall (built_block hp) bs → shape x = [B; T; C] →
  Sequential_forward G bernoulli_ hp bs tr x g = Some (y, g') →
  shape y = [B; T; C] ∧ (bs ≠ [] → mha_accepts hp B T C).
Proof.
  intros Hall. revert x g. induction Hall as [|b bs Hb Hbs IH]; intros x g Hs.
  - cbn. intros [= <- <-]. done.
  - cbn [Sequential_forward].
    destruct (Block_forward G bernoulli_ hp b tr x g) as [[x1 g1]|] eqn:Eb; [|done].
    cbn [mbind option_bind].
    destruct (Block_forward_inv b tr x x1 g g1 B T C Hb Hs Eb) as (Hacc & Hx1).
    intros Hrest. destruct (IH x1 g1 Hx1 Hrest) as (Hy & _). done.
Qed.

Lemma Sequential_forward_Some (bs : list (Block F)) tr (x : tensor F)
    (g : G) B T C :
  Forall (built_block hp) bs → shape x = [B; T; C] → mha_accepts hp B T C →
  ∃ y g', Sequential_forward G bernoulli_ hp bs tr x g = Some (y, g') ∧
          shape y = [B; T; C].
Proof.
  intros Hall Hs Hacc. revert x g Hs.
  induction Hall as [|b bs Hb Hbs IH]; intros x g Hs.
  - exists x, g. done.
  - destruct (Block_forward_Some b tr x g B T C Hb Hs Hacc) as (x1 & g1 & Eb & Hx1).
    destruct (IH x1 g1 Hx1) as (y & g' & Ey & Hy).
    exists y, g'. split; [|done]. cbn [Sequential_forward].
    rewrite Eb. cbn [mbind option_bind]. done.
Qed.
End BlockFacts.

(** ** The language model *)

Lemma shape2_Some_inv (rows : list (list Z)) B T :
  shape2 rows = Some (B, T) →
  length rows = B ∧ Forall (λ r, length r = T) rows.
Proof.
  unfold shape2. destruct rows as [|r rows]; [by intros [= <- <-]|].
  case_decide; [|done]. by intros [= <- <-].
Qed.

Lemma shape2_rect (rows : list (list Z)) T :
  rows ≠ [] → Forall (λ r, length r = T) rows →
  shape2 rows = Some (length rows, T).
Proof.
  intros Hne Hall. destruct rows as [|r rows]; [done|]. unfold shape2.
  pose proof (Forall_inv Hall) as Hr. simpl in Hr. subst T.
  by rewrite decide_True.
Qed.

Lemma arange_in_range (T : nat) (n : nat) :
  Forall (λ i, 0 ≤ i < Z.of_nat n) (arange T) ↔ (T ≤ n)%nat ∨ T = 0%nat.
Proof.
  unfold arange. rewrite Forall_fmap, Forall_forall. split.
  - intros Hall. destruct T as [|T]; [by right|]. left.
    specialize (Hall T). simpl in Hall.
    assert (T ∈ seq 0 (S T)) as Hin by (apply elem_of_seq; lia).
    specialize (Hall Hin). lia.
  - intros HT i Hi%elem_of_seq. simpl. lia.
Qed.

Lemma length_arange T : length (arange T) = T.
Proof. unfold arange. by rewrite length_fmap, length_seq. Qed.

Lemma broadcast_suffix3 B T C : broadcast [B; T; C] [T; C] = Some [B; T; C].
Proof.
  unfold broadcast. change (reverse [B; T; C]) with [C; T; B].
  change (reverse [T; C]) with [C; T]. cbn [broadcast_rev].
  rewrite !broadcast_dim_refl. done.
Qed.

Lemma hyper_ok_accepts hp B :
  hyper_ok hp →
  mha_accepts hp B (Z.to_nat (block_size hp)) (Z.to_nat (n_embed hp)).
Proof.
  intros (He & Hnh & Hmod & Hbs & _).
  exists (Z.to_nat (n_head hp)).
  apply Z.mod_divide in Hmod as [k Hk]; [|lia].
  assert (0 < k) by nia.
  assert (Z.to_nat (n_embed hp) / Z.to_nat (n_head hp) = Z.to_nat k)%nat as Hq.
  { rewrite Hk, Z2Nat.inj_mul by lia. apply Nat.div_mul. lia. }
  assert (Z.to_nat (n_head hp) * Z.to_nat k = Z.to_nat (n_embed hp))%nat
    as Hprod by (rewrite Hk, Z2Nat.inj_mul by lia; lia).
  rewrite Hq. repeat split; try lia.
  apply broadcast_dim_refl.
Qed.

Section ModelFacts.
Context `{Scalar F}.
Variable G : Type.
Variable bernoulli_ : Q → list nat → G → (list nat → bool) * G.
Variable hp : Hyper.
Variable text : pystr.

Lemma nn_Embedding_inv (n d : Z) w (e : Embedding F) :
  nn_Embedding n d w = Some e →
  0 ≤ n ∧ 0 ≤ d ∧ num_embeddings e = Z.to_nat n ∧ embedding_dim e = Z.to_nat d.
Proof. unfold nn_Embedding. case_decide; [|done]. intros [= <-]. cbn. lia. Qed.

Lemma nn_Embedding_Some (n d : Z) (w : list nat → F) :
  0 ≤ n → 0 ≤ d → is_Some (nn_Embedding n d w).
Proof. intros. unfold nn_Embedding. by rewrite decide_True. Qed.

Lemma vocab_size_nonneg : 0 ≤ vocab_size text.
Proof. unfold vocab_size. lia. Qed.

Lemma model_init_inv θ (m : BigramLanguageModel F) :
  BigramLanguageModel_init hp text θ = Some m →
  0 ≤ n_embed hp ∧ 0 ≤ block_size hp ∧
  num_embeddings (token_embedding_table m) = Z.to_nat (vocab_size text) ∧
  embedding_dim (token_embedding_table m) = Z.to_nat (n_embed hp) ∧
  num_embeddings (position_embedding_table m) = Z.to_nat (block_size hp) ∧
  embedding_dim (position_embedding_table m) = Z.to_nat (n_embed hp) ∧
  Forall (built_block hp) (blocks m) ∧
  length (blocks m) = Z.to_nat (n_layer hp) ∧
  normalized_shape (ln_f m) = Z.to_nat (n_embed hp) ∧
  in_features (lm_head m) = Z.to_nat (n_embed hp) ∧
  out_features (lm_head m) = Z.to_nat (vocab_size text).
Proof.
  unfold BigramLanguageModel_init. intros Hm.
  destruct (nn_Embedding (vocab_size text) (n_embed hp) (token_table θ))
    as [tok|] eqn:Et; [|done].
  destruct (nn_Embedding (block_size hp) (n_embed hp) (position_table θ))
    as [pos|] eqn:Ep; [|done].
  cbn [mbind option_bind] in Hm.
  destruct (mapM _ _) as [bs|] eqn:Eb; [|done].
  cbn [mbind option_bind] in Hm.
  destruct (nn_LayerNorm (n_embed hp) (ln_f_params θ)) as [ln|] eqn:El; [|done].
  destruct (nn_Linear (n_embed hp) (vocab_size text) (lm_head_params θ))
    as [head|] eqn:Eh; [|done].
  cbn [mbind option_bind] in Hm. injection Hm as <-. cbn.
  apply nn_Embedding_inv in Et as (_ & ? & -> & ->).
  apply nn_Embedding_inv in Ep as (? & _ & -> & ->).
  apply nn_LayerNorm_inv in El as (_ & ->).
  apply nn_Linear_inv in Eh as (_ & _ & -> & ->).
  apply mapM_Some in Eb.
  repeat (split; [done|]). split; [|split; [|done]].
  - clear -Eb. induction Eb as [|i b l bs Hb _ IH]; constructor; [|done].
    by exists (block_params θ i).
  - apply Forall2_length in Eb. by rewrite <- Eb, length_seq.
Qed.

Lemma model_init_Some (θ : ModelParams F) :
  0 ≤ n_embed hp → 0 ≤ block_size hp → dropout_ok hp →
  is_Some (BigramLanguageModel_init hp text θ).
Proof.
  intros He Hbs Hd. unfold BigramLanguageModel_init.
  pose proof vocab_size_nonneg as HV.
  destruct (nn_Embedding_Some (vocab_size text) (n_embed hp) (token_table θ))
    as [tok ->]; [done..|].
  destruct (nn_Embedding_Some (block_size hp) (n_embed hp) (position_table θ))
    as [pos ->]; [done..|].
  cbn [mbind option_bind].
  destruct (mapM_is_Some_2
    (λ i, Block_init hp (n_embed hp) (n_head hp) (block_params θ i))
    (seq 0 (Z.to_nat (n_layer hp)))) as [bs ->].
  { apply Forall_forall. intros i _. by apply Block_init_Some. }
  cbn [mbind option_bind].
  destruct (nn_LayerNorm_Some (n_embed hp) (ln_f_params θ)) as [ln ->]; [done|].
  destruct (nn_Linear_Some (n_embed hp) (vocab_size text) (lm_head_params θ))
    as [head ->]; [done..|].
  done.
Qed.
End ModelFacts.

Section ForwardFacts.
Context `{Scalar F}.
Variable G : Type.
Variable bernoulli_ : Q → list nat → G → (list nat → bool) * G.
Variable hp : Hyper.
Variable text : pystr.

Lemma Embedding_forward2_inv (e : Embedding F) ids (t : tensor F) :
  Embedding_forward2 e ids = Some t →
  ∃ B T, shape2 ids = Some (B, T) ∧ Forall (Forall (in_table e)) ids ∧
         shape t = [B; T; embedding_dim e].
Proof.
  unfold Embedding_forward2. destruct (shape2 ids) as [[B T]|]; [|done].
  cbn [mbind option_bind]. case_decide; [|done].
  intros Heq. apply (inj Some) in Heq. subst t. by exists B, T.
Qed.

Lemma Embedding_forward2_Some (e : Embedding F) ids B T :
  shape2 ids = Some (B, T) → Forall (Forall (in_table e)) ids →
  is_Some (Embedding_forward2 e ids).
Proof.
  intros Hs Hall. unfold Embedding_forward2. rewrite Hs.
  cbn [mbind option_bind]. by rewrite decide_True.
Qed.

Lemma Embedding_forward1_arange (e : Embedding F) T (t : tensor F) :
  Embedding_forward1 e (arange T) = Some t →
  ((T ≤ num_embeddings e)%nat ∨ T = 0%nat) ∧ shape t = [T; embedding_dim e].
Proof.
  unfold Embedding_forward1. case_decide as Hall; [|done].
  intros Heq. apply (inj Some) in Heq. subst t. cbn [shape].
  rewrite length_arange. split; [|done]. by apply arange_in_range.
Qed.

Lemma Embedding_forward1_arange_Some (e : Embedding F) T :
  (T ≤ num_embeddings e)%nat → is_Some (Embedding_forward1 e (arange T)).
Proof.
  intros HT. unfold Embedding_forward1. rewrite decide_True; [done|].
  apply arange_in_range. by left.
Qed.

Lemma add_suffix3 (a b z : tensor F) B T C :
  shape a = [B; T; C] → shape b = [T; C] → add a b = Some z →
  shape z = [B; T; C].
Proof.
  intros Ha Hb. unfold add. rewrite Ha, Hb, broadcast_suffix3.
  cbn [mbind option_bind]. intros Heq. apply (inj Some) in Heq. by subst z.
Qed.

Lemma add_suffix3_Some (a b : tensor F) B T C :
  shape a = [B; T; C] → shape b = [T; C] → is_Some (add a b).
Proof. intros Ha Hb. unfold add. by rewrite Ha, Hb, broadcast_suffix3. Qed.

(** What a forward pass without targets implies when it returns. *)
Lemma forward_None_inv θ (m : BigramLanguageModel F) tr idx lg loss (g g' : G) :
  BigramLanguageModel_init hp text θ = Some m →
  BigramLanguageModel_forward G bernoulli_ hp m tr idx None g = Some (lg, loss, g') →
  ∃ B T, shape2 idx = Some (B, T) ∧ Forall (Forall (in_vocab text)) idx ∧
    ((Z.of_nat T ≤ block_size hp) ∨ T = 0%nat) ∧
    (blocks m ≠ [] → mha_accepts hp B T (Z.to_nat (n_embed hp))) ∧
    shape lg = [B; T; Z.to_nat (vocab_size text)] ∧ loss = None.
Proof.
  intros Hm. apply model_init_inv in Hm
    as (He & Hbs & Htn & Htd & Hpn & Hpd & Hblocks & _ & Hln & Hhi & Hho).
  unfold BigramLanguageModel_forward.
  destruct (shape2 idx) as [[B T]|] eqn:Es; [|done]. cbn [mbind option_bind].
  destruct (Embedding_forward2 (token_embedding_table m) idx) as [tok|] eqn:Et; [|done].
  cbn [mbind option_bind].
  destruct (Embedding_forward2_inv _ _ _ Et) as (B' & T' & Es' & Hids & Htok).
  rewrite Es in Es'. injection Es' as <- <-.
  destruct (Embedding_forward1 (position_embedding_table m) (arange T)) as [pos|] eqn:Ep;
    [|done].
  cbn [mbind option_bind].
  destruct (Embedding_forward1_arange _ _ _ Ep) as (HT & Hpos).
  rewrite Htd in Htok. rewrite Hpd in Hpos.
  destruct (add tok pos) as [x|] eqn:Ex; [|done]. cbn [mbind option_bind].
  pose proof (add_suffix3 _ _ _ _ _ _ Htok Hpos Ex) as Hx.
  destruct (Sequential_forward G bernoulli_ hp (blocks m) tr x g) as [[x1 g1]|] eqn:Eb;
    [|done].
  cbn [mbind option_bind].
  destruct (Sequential_forward_inv G bernoulli_ hp _ tr x x1 g g1 _ _ _ Hblocks Hx Eb)
    as (Hx1 & Hacc).
  destruct (LayerNorm_forward (ln_f m) x1) as [x2|] eqn:El; [|done].
  cbn [mbind option_bind].
  destruct (LayerNorm_forward_inv3 _ _ _ _ _ _ Hx1 El) as (_ & Hx2).
  destruct (Linear_forward (lm_head m) x2) as [logits|] eqn:Eh; [|done].
  cbn [mbind option_bind].
  destruct (Linear_forward_inv3 _ _ _ _ _ _ Hx2 Eh) as (_ & Hlg & _).
  intros [= <- <- <-]. exists B, T. split; [done|]. split.
  { eapply Forall_impl; [exact Hids|]. intros r Hr.
    eapply Forall_impl; [exact Hr|]. intros i. unfold in_table, in_vocab.
    rewrite Htn. pose proof (vocab_size_nonneg text). lia. }
  split; [lia|]. split; [done|]. split; [|done]. by rewrite Hlg, Hho.
Qed.

(** Conversely: a rectangular batch of valid ids, no longer than the window
    and of a shape the blocks accept, goes through. *)
Lemma forward_None_Some θ (m : BigramLanguageModel F) tr idx (g : G) B T :
  BigramLanguageModel_init hp text θ = Some m →
  shape2 idx = Some (B, T) → Forall (Forall (in_vocab text)) idx →
  Z.of_nat T ≤ block_size hp →
  mha_accepts hp B T (Z.to_nat (n_embed hp)) →
  ∃ lg g', BigramLanguageModel_forward G bernoulli_ hp m tr idx None g
             = Some (lg, None, g') ∧
           shape lg = [B; T; Z.to_nat (vocab_size text)].
Proof.
  intros Hm Hs Hids HT Hacc. apply model_init_inv in Hm
    as (He & Hbs & Htn & Htd & Hpn & Hpd & Hblocks & _ & Hln & Hhi & Hho).
  destruct (Embedding_forward2_Some (token_embedding_table m) idx B T Hs) as [tok Et].
  { eapply Forall_impl; [exact Hids|]. intros r Hr.
    eapply Forall_impl; [exact Hr|]. intros i. unfold in_table, in_vocab.
    rewrite Htn. lia. }
  destruct (Embedding_forward2_inv _ _ _ Et) as (B' & T' & Es' & _ & Htok).
  rewrite Hs in Es'. injection Es' as <- <-.
  destruct (Embedding_forward1_arange_Some (position_embedding_table m) T) as [pos Ep];
    [lia|].
  destruct (Embedding_forward1_arange _ _ _ Ep) as (_ & Hpos).
  rewrite Htd in Htok. rewrite Hpd in Hpos.
  destruct (add_suffix3_Some _ _ _ _ _ Htok Hpos) as [x Ex].
  pose proof (add_suffix3 _ _ _ _ _ _ Htok Hpos Ex) as Hx.
  destruct (Sequential_forward_Some G bernoulli_ hp _ tr x g _ _ _ Hblocks Hx Hacc)
    as (x1 & g1 & Eb & Hx1).
  destruct (LayerNorm_forward_Some3 (ln_f m) x1 B T) as [x2 El]; [by rewrite Hx1, Hln|].
  destruct (LayerNorm_forward_inv3 _ _ _ _ _ _ Hx1 El) as (_ & Hx2).
  destruct (Linear_forward_Some3 (lm_head m) x2 B T) as [logits Eh]; [by rewrite Hx2, Hhi|].
  destruct (Linear_forward_inv3 _ _ _ _ _ _ Hx2 Eh) as (_ & Hlg & _).
  exists logits, g1. split; [|by rewrite Hlg, Hho].
  unfold BigramLanguageModel_forward. rewrite Hs. cbn [mbind option_bind].
  rewrite Et. cbn [mbind option_bind]. rewrite Ep. cbn [mbind option_bind].
  rewrite Ex. cbn [mbind option_bind]. rewrite Eb. cbn [mbind option_bind].
  rewrite El. cbn [mbind option_bind]. rewrite Eh. done.
Qed.

(** The forward pass with targets is the pass without, followed by the loss
    on the flattened logits and targets. *)
Lemma forward_targets (m : BigramLanguageModel F) tr idx targets (g : G) :
  BigramLanguageModel_forward G bernoulli_ hp m tr idx (Some targets) g =
    '(logits, _, g') ← BigramLanguageModel_forward G bernoulli_ hp m tr idx None g;
    match shape logits with
    | [B; T; C] =>
        logits ← view [Z.of_nat (B * T); Z.of_nat C] logits;
        targets ← view_flat (B * T) targets;
        loss ← cross_entropy logits targets;
        Some (logits, Some loss, g')
    | _ => None
    end.
Proof.
  unfold BigramLanguageModel_forward.
  destruct (shape2 idx) as [[B T]|]; [|done]. cbn [mbind option_bind].
  destruct (Embedding_forward2 _ idx); [|done]. cbn [mbind option_bind].
  destruct (Embedding_forward1 _ _); [|done]. cbn [mbind option_bind].
  destruct (add _ _); [|done]. cbn [mbind option_bind].
  destruct (Sequential_forward _ _ _ _ _ _ _) as [[x1 g1]|]; [|done].
  cbn [mbind option_bind].
  destruct (LayerNorm_forward _ _); [|done]. cbn [mbind option_bind].
  destruct (Linear_forward _ _); [|done]. done.
Qed.
End ForwardFacts.

(** ** Loss and generation *)

Lemma unflat_rows (B T C n v : nat) :
  (n < B * T)%nat → (v < C)%nat →
  unflat [B; T; C] (flat [(B * T)%nat; C] [n; v]) =
    [(n / T)%nat; (n `mod` T)%nat; v].
Proof.
  intros Hn Hv. cbn [unflat flat numel foldr].
  rewrite !Nat.mul_1_r, !Nat.add_0_r, Nat.div_1_r.
  assert (0 < T)%nat as HT by nia.
  pose proof (Nat.div_mod_eq n T) as Hdm.
  pose proof (Nat.mod_upper_bound n T ltac:(lia)) as Hr.
  set (q := (n / T)%nat) in *. set (r := (n `mod` T)%nat) in *.
  assert (n * C + v = (T * C) * q + (r * C + v))%nat as Hk by nia.
  assert (r * C + v < T * C)%nat as Hlt by nia.
  assert ((n * C + v) / (T * C) = q)%nat as Hq.
  { symmetry. apply (Nat.div_unique _ _ _ (r * C + v)%nat); lia. }
  assert ((n * C + v) `mod` (T * C) = r * C + v)%nat as Hm.
  { symmetry. apply (Nat.mod_unique _ _ q); lia. }
  rewrite Hq, Hm.
  assert ((r * C + v) / C = r)%nat as Hq2.
  { symmetry. apply (Nat.div_unique _ _ _ v); lia. }
  assert ((r * C + v) `mod` C = v)%nat as Hm2.
  { symmetry. apply (Nat.mod_unique _ _ r); lia. }
  by rewrite Hq2, Hm2.
Qed.

Lemma length_concat_rect {A} (rows : list (list A)) T :
  Forall (λ r, length r = T) rows →
  length (concat rows) = (length rows * T)%nat.
Proof.
  induction 1 as [|r rows Hr _ IH]; [done|].
  simpl. rewrite length_app, IH, Hr. done.
Qed.

Lemma view_flat_inv (n : nat) rows flat' :
  view_flat n rows = Some flat' → flat' = concat rows ∧ length flat' = n.
Proof.
  unfold view_flat. destruct (shape2 rows) as [[B T]|] eqn:Es; [|done].
  cbn [mbind option_bind]. case_decide as Hn; [|done]. intros [= <-].
  split; [done|]. apply shape2_Some_inv in Es as [<- Hall].
  by rewrite (length_concat_rect _ T).
Qed.

Lemma view_flat_Some (rows : list (list Z)) B T :
  shape2 rows = Some (B, T) → view_flat (B * T) rows = Some (concat rows).
Proof.
  intros Hs. unfold view_flat. rewrite Hs. cbn [mbind option_bind].
  by rewrite decide_True.
Qed.

Lemma filter_all {A} (P : A → Prop) `{∀ x, Decision (P x)} (l : list A) :
  Forall P l → filter P l = l.
Proof.
  induction 1 as [|x l Hx _ IH]; [done|].
  rewrite filter_cons_True by done. by rewrite IH.
Qed.

Section LossFacts.
Context `{Scalar F}.

Lemma view_rows_inv (x y : tensor F) B T C :
  shape x = [B; T; C] →
  view [Z.of_nat (B * T); Z.of_nat C] x = Some y →
  shape y = [(B * T)%nat; C] ∧
  ∀ n v, (n < B * T)%nat → (v < C)%nat →
    val y [n; v] = val x [(n / T)%nat; (n `mod` T)%nat; v].
Proof.
  intros Hs. unfold view. rewrite view_shape_nonneg by (repeat constructor; lia).
  cbn [fmap list_fmap]. rewrite !Nat2Z.id. case_decide; [|done].
  cbn [mbind option_bind]. intros Heq. apply (inj Some) in Heq. subst y.
  cbn [shape val]. split; [done|]. intros n v Hn Hv.
  by rewrite Hs, unflat_rows.
Qed.

Lemma view_rows_Some (x : tensor F) B T C :
  shape x = [B; T; C] →
  is_Some (view [Z.of_nat (B * T); Z.of_nat C] x).
Proof.
  intros Hs. unfold view. rewrite view_shape_nonneg by (repeat constructor; lia).
  cbn [fmap list_fmap]. rewrite !Nat2Z.id, Hs. cbn [numel foldr].
  rewrite decide_True by lia. done.
Qed.

Lemma cross_entropy_inv (x : tensor F) (target : list Z) N C l :
  shape x = [N; C] → cross_entropy x target = Some l →
  length target = N ∧
  (Forall (λ t, 0 ≤ t < Z.of_nat C) target → l = mean_nll x N C target).
Proof.
  intros Hs. unfold cross_entropy. rewrite Hs. case_decide as Hok; [|done].
  destruct Hok as [Hlen Hall]. intros [= <-]. split; [done|]. intros Hvalid.
  unfold mean_nll. f_equal.
  - apply fsum_ext. intros n Hn.
    destruct (lookup_lt_is_Some_2 target n) as [t Ht]; [lia|].
    rewrite (list_lookup_total_correct _ _ _ Ht).
    rewrite Forall_forall in Hvalid.
    specialize (Hvalid t (list_elem_of_lookup_2 _ _ _ Ht)). cbv beta in Hvalid.
    rewrite decide_False by lia. done.
  - rewrite filter_all; [by rewrite Hlen|].
    eapply Forall_impl; [exact Hvalid|]. intros t Ht. cbv beta in Ht |- *. lia.
Qed.

Lemma cross_entropy_Some (x : tensor F) (target : list Z) N C :
  shape x = [N; C] → length target = N →
  Forall (λ t, 0 ≤ t < Z.of_nat C) target →
  is_Some (cross_entropy x target).
Proof.
  intros Hs Hlen Hvalid. unfold cross_entropy. rewrite Hs.
  rewrite decide_True; [done|]. split; [done|].
  eapply Forall_impl; [exact Hvalid|]. intros t Ht. by right.
Qed.
End LossFacts.

(** ** Claims about construction *)

Lemma vocab_size_0 (text : pystr) : vocab_size text = 0 → text = [].
Proof.
  unfold vocab_size. intros Hv. destruct text as [|ch text]; [done|].
  assert (ch ∈ chars (ch :: text)) as Hin by (apply elem_of_chars; left).
  destruct (chars (ch :: text)); [by apply elem_of_nil in Hin|]. simpl in Hv. lia.
Qed.

Section ModelClaims.
Context `{Scalar F}.
Variable G : Type.
Variable random_ : G → Z * G.
Variable bernoulli_ : Q → list nat → G → (list nat → bool) * G.
Variable hp : Hyper.
Variable text : pystr.

(** C3, as amended. Construction checks no divisibility: the layer, and the
    model around it, are built whenever the sizes are non-negative and the
    dropout rate is a probability.  When the head count does not divide the
    embedding dimension, it is the forward pass that fails: of the layer on
    every non-empty input, and of a model with at least one block on every
    input that holds a token. *)
Theorem indivisible_heads_fail_at_forward (θ : AttentionParams F)
    (θm : ModelParams F) :
  0 ≤ n_embed hp → 0 ≤ block_size hp → dropout_ok hp →
  n_embed hp `mod` n_head hp ≠ 0 →
  (∃ m : MultiHeadAttention F,
     MultiHeadAttention_init hp (n_embed hp) θ = Some m ∧
     ∀ tr (x : tensor F) (g : G) B T C,
       shape x = [B; T; C] → (0 < B)%nat → (0 < T)%nat →
       MultiHeadAttention_forward G bernoulli_ hp m tr x g = None) ∧
  (∃ M : BigramLanguageModel F,
     BigramLanguageModel_init hp text θm = Some M ∧
     (0 < n_layer hp →
      ∀ tr idx targets g r i, r ∈ idx → i ∈ r →
        BigramLanguageModel_forward G bernoulli_ hp M tr idx targets g = None)).
Proof.
  intros He Hbs Hd Hmod. split.
  - destruct (mha_init_Some hp (n_embed hp) θ He Hbs Hd) as [m Hm].
    exists m. split; [done|]. intros tr x g B T C Hs HB HT.
    destruct (MultiHeadAttention_forward G bernoulli_ hp m tr x g)
      as [[out g']|] eqn:Ef; [|done].
    destruct (mha_forward_inv G bernoulli_ hp θ m tr x out g g' B T C Hm Hs Ef)
      as [Hacc _].
    by apply mha_accepts_divides in Hacc.
  - destruct (model_init_Some hp text θm He Hbs Hd) as [M HM].
    exists M. split; [done|]. intros Hlayers tr idx targets g r i Hr Hi.
    assert (BigramLanguageModel_forward G bernoulli_ hp M tr idx None g = None)
      as Hnone.
    { destruct (BigramLanguageModel_forward G bernoulli_ hp M tr idx None g)
        as [[[lg loss] g']|] eqn:Ef; [|done].
      destruct (forward_None_inv G bernoulli_ hp text θm M tr idx lg loss g g' HM Ef)
        as (B & T & Hs & _ & _ & Hacc & _).
      destruct (model_init_inv hp text θm M HM)
        as (_ & _ & _ & _ & _ & _ & _ & Hlen & _).
      apply shape2_Some_inv in Hs as [HB Hrows].
      rewrite Forall_forall in Hrows. specialize (Hrows r Hr). cbv beta in Hrows.
      assert (0 < B)%nat.
      { subst B. destruct idx; [by apply elem_of_nil in Hr|simpl; lia]. }
      assert (0 < T)%nat.
      { subst T. destruct r; [by apply elem_of_nil in Hi|simpl; lia]. }
      assert (blocks M ≠ []) as Hne.
      { intros Hnil. rewrite Hnil in Hlen. simpl in Hlen. lia. }
      specialize (Hacc Hne). by apply mha_accepts_divides in Hacc. }
    destruct targets as [tg|]; [|done].
    rewrite forward_targets, Hnone. done.
Qed.

(** C4, as amended. With an empty vocabulary the constructor still builds
    the model (a token table with no row, an output projection with no
    output); nothing in it checks the vocabulary.  What fails is what comes
    after: sampling a batch from the empty corpus, and the forward pass on
    any input that holds a token id. *)
Theorem empty_vocabulary_builds (θ : ModelParams F) :
  0 ≤ n_embed hp → 0 ≤ block_size hp → dropout_ok hp →
  vocab_size text = 0 →
  ∃ m : BigramLanguageModel F,
    BigramLanguageModel_init hp text θ = Some m ∧
    num_embeddings (token_embedding_table m) = 0%nat ∧
    out_features (lm_head m) = 0%nat ∧
    encode text text = Some [] ∧
    (∀ split g, get_batch G random_ hp [] split g = None) ∧
    (∀ tr idx targets g r i, r ∈ idx → i ∈ r →
       BigramLanguageModel_forward G bernoulli_ hp m tr idx targets g = None).
Proof.
  intros He Hbs Hd HV.
  destruct (model_init_Some hp text θ He Hbs Hd) as [m Hm].
  exists m. split; [done|].
  destruct (model_init_inv hp text θ m Hm)
    as (_ & _ & Htn & _ & _ & _ & _ & _ & _ & _ & Hho).
  split; [by rewrite Htn, HV|]. split; [by rewrite Hho, HV|].
  split; [by rewrite (vocab_size_0 text HV)|]. split.
  - intros split g. unfold get_batch, randint.
    assert (split_data [] split = []) as ->.
    { unfold split_data. by destruct (String.eqb split "train"). }
    rewrite decide_False by (simpl; lia). done.
  - intros tr idx targets g r i Hr Hi.
    assert (BigramLanguageModel_forward G bernoulli_ hp m tr idx None g = None)
      as Hnone.
    { destruct (BigramLanguageModel_forward G bernoulli_ hp m tr idx None g)
        as [[[lg loss] g']|] eqn:Ef; [|done].
      destruct (forward_None_inv G bernoulli_ hp text θ m tr idx lg loss g g' Hm Ef)
        as (B & T & _ & Hids & _).
      rewrite Forall_forall in Hids. specialize (Hids r Hr).
      rewrite Forall_forall in Hids. specialize (Hids i Hi).
      unfold in_vocab in Hids. lia. }
    destruct targets as [tg|]; [|done].
    rewrite forward_targets, Hnone. done.
Qed.
End ModelClaims.

Lemma empty_vocabulary_builds_counterexample :
  vocab_size [] = 0 ∧
  is_Some (BigramLanguageModel_init default_hyper [] toy_params).
Proof. split; [reflexivity|]. eexists. reflexivity. Qed.

Lemma empty_vocabulary_builds_witness :
  ∃ m : BigramLanguageModel xint,
    BigramLanguageModel_init default_hyper [] toy_params = Some m ∧
    num_embeddings (token_embedding_table m) = 0%nat ∧
    out_features (lm_head m) = 0%nat ∧
    encode [] [] = Some [] ∧
    (∀ split g, get_batch nat toy_random default_hyper [] split g = None) ∧
    (∀ tr idx targets g r i, r ∈ idx → i ∈ r →
       BigramLanguageModel_forward nat toy_bernoulli default_hyper m tr idx
         targets g = None).
Proof.
  apply (empty_vocabulary_builds nat toy_random toy_bernoulli default_hyper []
           toy_params).
  - simpl. lia.
  - simpl. lia.
  - reflexivity.
  - reflexivity.
Defined.

Lemma indivisible_heads_fail_at_forward_witness :
  (∃ m : MultiHeadAttention xint,
     MultiHeadAttention_init uneven_hyper (n_embed uneven_hyper) toy_attention
       = Some m ∧
     ∀ tr (x : tensor xint) (g : nat) B T C,
       shape x = [B; T; C] → (0 < B)%nat → (0 < T)%nat →
       MultiHeadAttention_forward nat toy_bernoulli uneven_hyper m tr x g = None) ∧
  (∃ M : BigramLanguageModel xint,
     BigramLanguageModel_init uneven_hyper toy_text toy_params = Some M ∧
     (0 < n_layer uneven_hyper →
      ∀ tr idx targets g r i, r ∈ idx → i ∈ r →
        BigramLanguageModel_forward nat toy_bernoulli uneven_hyper M tr idx
          targets g = None)).
Proof.
  apply (indivisible_heads_fail_at_forward nat toy_bernoulli uneven_hyper
           toy_text toy_attention toy_params).
  - simpl. lia.
  - simpl. lia.
  - reflexivity.
  - vm_compute. discriminate.
Defined.

Lemma uneven_heads_build_counterexample :
  n_embed uneven_hyper `mod` n_head uneven_hyper = 1 ∧
  is_Some (MultiHeadAttention_init (F := xint) uneven_hyper
             (n_embed uneven_hyper) toy_attention) ∧
  is_Some (BigramLanguageModel_init uneven_hyper toy_text toy_params).
Proof.
  split; [reflexivity|]. split; eexists; reflexivity.
Qed.

(** ** Claims about the loss *)

Section LossClaim.
Context `{Scalar F}.
Variable G : Type.
Variable bernoulli_ : Q → list nat → G → (list nat → bool) * G.
Variable hp : Hyper.
Variable text : pystr.

Lemma in_vocab_nat (i : Z) :
  in_vocab text i ↔ 0 ≤ i < Z.of_nat (Z.to_nat (vocab_size text)).
Proof. unfold in_vocab. pose proof (vocab_size_nonneg text). lia. Qed.

(** C6. The loss is [None] exactly when no targets are given.  With targets,
    the returned logits are those of the pass without targets with batch and
    time flattened into one axis (position [n] is time [n mod T] of batch
    element [n / T]), and for targets that are ids of the vocabulary the loss
    is the mean over all [B * T] positions of the negative log-likelihood of
    the target.  On a full window of valid ids the pass returns, with and
    without targets. *)
Theorem forward_loss θ (m : BigramLanguageModel F) tr idx (g : G) :
  BigramLanguageModel_init hp text θ = Some m →
  (∀ lg loss g',
     BigramLanguageModel_forward G bernoulli_ hp m tr idx None g
       = Some (lg, loss, g') → loss = None) ∧
  (∀ targets lg loss g',
     BigramLanguageModel_forward G bernoulli_ hp m tr idx (Some targets) g
       = Some (lg, loss, g') →
     ∃ logits B T l,
       BigramLanguageModel_forward G bernoulli_ hp m tr idx None g
         = Some (logits, None, g') ∧
       shape2 idx = Some (B, T) ∧
       shape logits = [B; T; Z.to_nat (vocab_size text)] ∧
       shape lg = [(B * T)%nat; Z.to_nat (vocab_size text)] ∧
       (∀ n v, (n < B * T)%nat → (v < Z.to_nat (vocab_size text))%nat →
          val lg [n; v] = val logits [(n / T)%nat; (n `mod` T)%nat; v]) ∧
       length (concat targets) = (B * T)%nat ∧
       loss = Some l ∧
       (Forall (Forall (in_vocab text)) targets →
        l = mean_nll lg (B * T) (Z.to_nat (vocab_size text)) (concat targets))) ∧
  (hyper_ok hp →
   ∀ B targets,
     shape2 idx = Some (B, Z.to_nat (block_size hp)) →
     Forall (Forall (in_vocab text)) idx →
     shape2 targets = Some (B, Z.to_nat (block_size hp)) →
     Forall (Forall (in_vocab text)) targets →
     (∃ lg g', BigramLanguageModel_forward G bernoulli_ hp m tr idx None g
                 = Some (lg, None, g')) ∧
     (∃ lg l g', BigramLanguageModel_forward G bernoulli_ hp m tr idx
                   (Some targets) g = Some (lg, Some l, g'))).
Proof.
  intros Hm. split; [|split].
  - intros lg loss g' Ef.
    by destruct (forward_None_inv G bernoulli_ hp text θ m tr idx lg loss g g' Hm Ef)
      as (_ & _ & _ & _ & _ & _ & _ & ->).
  - intros targets lg loss g'. rewrite forward_targets.
    destruct (BigramLanguageModel_forward G bernoulli_ hp m tr idx None g)
      as [[[logits loss0] g0]|] eqn:Ef; [|done].
    cbn [mbind option_bind].
    destruct (forward_None_inv G bernoulli_ hp text θ m tr idx logits loss0 g g0 Hm Ef)
      as (B & T & Hs & _ & _ & _ & Hlg & ->).
    rewrite Hlg.
    destruct (view [Z.of_nat (B * T); Z.of_nat (Z.to_nat (vocab_size text))] logits)
      as [lg'|] eqn:Ev; [|done].
    cbn [mbind option_bind].
    destruct (view_rows_inv _ _ _ _ _ Hlg Ev) as (Hlg' & Hval).
    destruct (view_flat (B * T) targets) as [flat'|] eqn:Et; [|done].
    cbn [mbind option_bind].
    destruct (view_flat_inv _ _ _ Et) as (-> & Hlen).
    destruct (cross_entropy lg' (concat targets)) as [l|] eqn:Ec; [|done].
    cbn [mbind option_bind]. intros [= <- <- <-].
    destruct (cross_entropy_inv _ _ _ _ _ Hlg' Ec) as (_ & Hmean).
    exists logits, B, T, l. repeat (split; [done|]).
    intros Hvalid. apply Hmean. apply Forall_concat.
    eapply Forall_impl; [exact Hvalid|]. intros r Hr.
    eapply Forall_impl; [exact Hr|]. intros i. by rewrite in_vocab_nat.
  - intros Hok B targets Hs Hids Hts Hvalid.
    destruct (forward_None_Some G bernoulli_ hp text θ m tr idx g B _ Hm Hs Hids)
      as (logits & g' & Ef & Hlg).
    { destruct Hok as (_ & _ & _ & ? & _). lia. }
    { by apply hyper_ok_accepts. }
    split; [by exists logits, g'|].
    rewrite forward_targets, Ef. cbn [mbind option_bind]. rewrite Hlg.
    destruct (view_rows_Some logits _ _ _ Hlg) as [lg' Ev]. rewrite Ev.
    cbn [mbind option_bind].
    destruct (view_rows_inv _ _ _ _ _ Hlg Ev) as (Hlg' & _).
    rewrite (view_flat_Some _ _ _ Hts). cbn [mbind option_bind].
    destruct (cross_entropy_Some lg' (concat targets) _ _ Hlg') as [l Ec].
    { apply shape2_Some_inv in Hts as [<- Hrows].
      by apply length_concat_rect. }
    { apply Forall_concat. eapply Forall_impl; [exact Hvalid|]. intros r Hr.
      eapply Forall_impl; [exact Hr|]. intros i. by rewrite in_vocab_nat. }
    rewrite Ec. cbn [mbind option_bind]. by exists lg', l, g'.
Qed.
End LossClaim.

(** ** Generation *)

(** The last [bs] tokens of a row that has at least that many. *)
Lemma slice_from_window {A} (row : list A) (bs : Z) :
  0 < bs → bs ≤ Z.of_nat (length row) →
  slice_from (- bs) row = drop (length row - Z.to_nat bs) row.
Proof.
  intros Hbs Hlen. unfold slice_from, slice_bound.
  rewrite decide_True by lia. f_equal. lia.
Qed.

Lemma slice_from_window_length {A} (row : list A) (bs : Z) :
  0 < bs → bs ≤ Z.of_nat (length row) →
  length (slice_from (- bs) row) = Z.to_nat bs.
Proof.
  intros Hbs Hlen. rewrite slice_from_window by done. rewrite length_drop. lia.
Qed.

Lemma window_snoc {A} (row : list A) (t : A) (bs : Z) :
  0 < bs → bs ≤ Z.of_nat (length row) →
  slice_from (- bs) (row ++ [t]) = drop 1 (slice_from (- bs) row) ++ [t].
Proof.
  intros Hbs Hlen.
  rewrite !slice_from_window by (rewrite ?length_app; simpl; lia).
  rewrite length_app. simpl. rewrite drop_drop.
  rewrite drop_app_le by lia. do 2 f_equal. lia.
Qed.

Lemma window_elem {A} (row : list A) (bs : Z) (P : A → Prop) :
  Forall P row → Forall P (slice_from (- bs) row).
Proof. intros Hall. unfold slice_from. by apply Forall_drop. Qed.

(** The windows of the rows after one token was appended to each. *)
Lemma windows_snoc (idx next : list (list Z)) (bs : Z) :
  0 < bs →
  Forall (λ r, bs ≤ Z.of_nat (length r)) idx →
  Forall (λ r, ∃ i, r = [i]) next →
  slice_from (- bs) <$> zip_with app idx next =
    zip_with (λ w n, drop 1 w ++ n) (slice_from (- bs) <$> idx) next.
Proof.
  intros Hbs Hidx. revert next.
  induction Hidx as [|r idx Hr _ IH]; intros next Hnext; [done|].
  destruct Hnext as [|n next [i ->] Hnext]; [done|].
  simpl. rewrite window_snoc by done. f_equal. by apply IH.
Qed.

Lemma zip_with_app_nil {A} (idx : list (list A)) :
  zip_with app idx (replicate (length idx) []) = idx.
Proof. induction idx as [|r idx IH]; simpl; [done|]. by rewrite app_nil_r, IH. Qed.

Lemma zip_with_app_assoc {A} (a b c : list (list A)) :
  zip_with app (zip_with app a b) c = zip_with app a (zip_with app b c).
Proof.
  revert b c. induction a as [|x a IH]; intros [|y b] [|z c]; simpl; try done.
  by rewrite IH, app_assoc.
Qed.

Lemma zip_with_app_rows {A} (idx next : list (list A)) (L : nat) (P : A → Prop) :
  length next = length idx →
  Forall (λ r, length r = L) idx → Forall (Forall P) idx →
  Forall (λ r, ∃ i, r = [i] ∧ P i) next →
  Forall (λ r, length r = S L) (zip_with app idx next) ∧
  Forall (Forall P) (zip_with app idx next) ∧
  length (zip_with app idx next) = length idx.
Proof.
  intros Hlen Hidx. revert next Hlen.
  induction Hidx as [|r idx Hr _ IH]; intros next Hlen HP Hnext.
  - destruct next; [|done]. simpl. done.
  - destruct next as [|n next]; [done|]. simpl in Hlen.
    apply Forall_cons_1 in HP as [HPr HP].
    apply Forall_cons_1 in Hnext as [(i & -> & Hi) Hnext].
    destruct (IH next ltac:(lia) HP Hnext) as (IH1 & IH2 & IH3).
    simpl. repeat split.
    + constructor; [|done]. rewrite length_app. simpl. lia.
    + constructor; [|done]. apply Forall_app. split; [done|]. by constructor.
    + by rewrite IH3.
Qed.

Section GenerateFacts.
Context `{Scalar F}.
Variable G : Type.
Variable bernoulli_ : Q → list nat → G → (list nat → bool) * G.
Variable categorical_ : list F → G → nat * G.
Variable weights_ok_ : list F → bool.
Variable hp : Hyper.
Variable text : pystr.

Hypothesis Hcat : categorical_in_range G categorical_.

Lemma last_step_Some (x : tensor F) B T V :
  shape x = [B; T; V] → (0 < T)%nat →
  ∃ y, last_step x = Some y ∧ shape y = [B; V].
Proof.
  intros Hs HT. unfold last_step. rewrite Hs.
  rewrite decide_False by lia. eauto.
Qed.

Lemma multinomial_rows_spec (probs : tensor F) V b n (g : G) :
  (0 < V)%nat →
  length (multinomial_rows G categorical_ probs V b n g).1 = n ∧
  Forall (λ r, ∃ i, r = [i] ∧ 0 ≤ i < Z.of_nat V)
         (multinomial_rows G categorical_ probs V b n g).1.
Proof.
  intros HV. revert b g. induction n as [|n IH]; intros b g.
  - simpl. split; [done|constructor].
  - cbn [multinomial_rows].
    pose proof (Hcat ((λ v, val probs [b; v]) <$> seq 0 V) g) as Hi.
    destruct (categorical_ _ g) as [i g1]. cbn [fst] in Hi.
    specialize (IH (S b) g1).
    destruct (multinomial_rows G categorical_ probs V (S b) n g1) as [rows g2].
    cbn [fst] in *. destruct IH as [IH1 IH2]. split; [simpl; lia|].
    constructor; [|done]. exists (Z.of_nat i). split; [done|].
    rewrite length_fmap, length_seq in Hi.
    assert (i < V)%nat; [|lia]. apply Hi. destruct V; [lia|done].
Qed.

Lemma multinomial_Some (probs : tensor F) B V (g : G) :
  shape probs = [B; V] → (0 < V)%nat →
  (∀ b, (b < B)%nat →
     weights_ok_ ((λ v, val probs [b; v]) <$> seq 0 V) = true) →
  ∃ rows g', multinomial G categorical_ weights_ok_ probs g = Some (rows, g') ∧
    length rows = B ∧
    Forall (λ r, ∃ i, r = [i] ∧ 0 ≤ i < Z.of_nat V) rows.
Proof.
  intros Hs HV Hok. unfold multinomial. rewrite Hs. rewrite decide_False by lia.
  assert (forallb (λ b, weights_ok_ ((λ v, val probs [b; v]) <$> seq 0 V))
            (seq 0 B) = true) as ->.
  { apply forallb_forall. intros b Hb%in_seq. apply Hok. lia. }
  pose proof (multinomial_rows_spec probs V 0 B g HV) as [H1 H2].
  destruct (multinomial_rows G categorical_ probs V 0 B g) as [rows g'].
  exists rows, g'. done.
Qed.

(** On a window of valid ids the model yields one valid id per row. *)
Lemma sample_next_Some θ (m : BigramLanguageModel F) tr cond (g : G) B :
  hyper_ok hp → BigramLanguageModel_init hp text θ = Some m →
  probabilities_ok G bernoulli_ weights_ok_ hp m tr →
  shape2 cond = Some (B, Z.to_nat (block_size hp)) → (0 < B)%nat →
  Forall (Forall (in_vocab text)) cond →
  ∃ next g', sample_next G bernoulli_ categorical_ weights_ok_ hp m tr cond g = Some (next, g') ∧
    length next = B ∧
    Forall (λ r, ∃ i, r = [i] ∧ in_vocab text i) next.
Proof.
  intros Hok Hm Hprobs Hs HB Hids.
  pose proof Hok as (_ & _ & _ & Hbs & _).
  destruct (forward_None_Some G bernoulli_ hp text θ m tr cond g B _ Hm Hs Hids)
    as (logits & g1 & Ef & Hlg); [lia|by apply hyper_ok_accepts|].
  destruct (last_step_Some logits _ _ _ Hlg) as (y & Ey & Hy); [lia|].
  assert (0 < Z.to_nat (vocab_size text))%nat as HV.
  { apply shape2_Some_inv in Hs as [HlenB Hrows].
    destruct cond as [|r cond]; [simpl in HlenB; lia|].
    apply Forall_cons_1 in Hrows as [Hr _]. apply Forall_cons_1 in Hids as [Hv _].
    destruct r as [|i r]; [simpl in Hr; lia|].
    apply Forall_cons_1 in Hv as [Hi _]. unfold in_vocab in Hi. lia. }
  destruct (multinomial_Some (softmax y) B _ g1 Hy HV)
    as (rows & g' & Em & Hlen & Hrows).
  { intros b Hb. by apply (Hprobs cond g logits None g1 y B). }
  exists rows, g'. split.
  { unfold sample_next. rewrite Ef. cbn [mbind option_bind]. rewrite Ey.
    cbn [mbind option_bind]. exact Em. }
  split; [done|]. eapply Forall_impl; [exact Hrows|].
  intros r (i & -> & Hi). exists i. split; [done|]. unfold in_vocab. lia.
Qed.

Lemma windows_shape idx L :
  hyper_ok hp → context_ok hp idx L →
  shape2 (slice_from (- block_size hp) <$> idx)
    = Some (length idx, Z.to_nat (block_size hp)).
Proof.
  intros (_ & _ & _ & Hbs & _) (Hne & Hlen & HL).
  rewrite <- (length_fmap (slice_from (- block_size hp)) idx).
  apply shape2_rect; [by destruct idx|].
  apply Forall_fmap. eapply Forall_impl; [exact Hlen|]. intros r Hr.
  cbv beta in Hr. simpl. apply slice_from_window_length; lia.
Qed.

(** The windows of the rows with one id appended. *)
Lemma windows_valid_snoc (idx next : list (list Z)) (bs : Z) (P : Z → Prop) :
  0 < bs → Forall (λ r, bs ≤ Z.of_nat (length r)) idx →
  Forall (λ r, ∃ i, r = [i] ∧ P i) next →
  Forall (Forall P) (slice_from (- bs) <$> idx) →
  Forall (Forall P) (slice_from (- bs) <$> zip_with app idx next).
Proof.
  intros Hbs Hlen Hnext Hw. rewrite windows_snoc; [|done..|].
  2:{ eapply Forall_impl; [exact Hnext|]. intros r (i & -> & _). by exists i. }
  revert next Hnext. induction Hw as [|w ws Hwv _ IH]; intros next Hnext;
    [constructor|].
  destruct Hnext as [|r next (i & -> & Hi) Hnext]; [constructor|].
  simpl. constructor; [|by apply IH].
  apply Forall_app. split; [|by apply Forall_singleton].
  by apply Forall_drop.
Qed.

Lemma generate_loop_spec θ (m : BigramLanguageModel F) tr (n : nat) :
  hyper_ok hp → BigramLanguageModel_init hp text θ = Some m →
  probabilities_ok G bernoulli_ weights_ok_ hp m tr →
  ∀ idx L (g : G),
    context_ok hp idx L →
    Forall (Forall (in_vocab text)) (slice_from (- block_size hp) <$> idx) →
    ∃ news g',
      generate_loop G bernoulli_ categorical_ weights_ok_ hp m tr n idx g
        = Some (zip_with app idx news, g') ∧
      length news = length idx ∧
      Forall (λ new, length new = n ∧ Forall (in_vocab text) new) news ∧
      ∀ idx2 L2, context_ok hp idx2 L2 →
        slice_from (- block_size hp) <$> idx2
          = slice_from (- block_size hp) <$> idx →
        generate_loop G bernoulli_ categorical_ weights_ok_ hp m tr n idx2 g
          = Some (zip_with app idx2 news, g').
Proof.
  intros Hok Hm Hprobs. pose proof Hok as (_ & _ & _ & Hbs & _).
  induction n as [|n IH]; intros idx L g Hctx Hids.
  - exists (replicate (length idx) []), g. cbn [generate_loop].
    rewrite zip_with_app_nil. split; [done|]. split; [by rewrite length_replicate|].
    split.
    { apply Forall_replicate. done. }
    intros idx2 L2 _ Hw. apply (f_equal length) in Hw. rewrite !length_fmap in Hw.
    by rewrite <- Hw, zip_with_app_nil.
  - pose proof Hctx as (Hne & Hlen & HL).
    destruct (sample_next_Some θ m tr (slice_from (- block_size hp) <$> idx) g
                (length idx) Hok Hm Hprobs (windows_shape idx L Hok Hctx))
      as (next & g1 & Es & Hnlen & Hnext).
    { destruct idx; [done|simpl; lia]. }
    { done. }
    destruct (zip_with_app_rows idx next L (λ _, True) Hnlen Hlen)
      as (Hlen' & _ & Hcount).
    { apply Forall_true. intros r. by apply Forall_true. }
    { eapply Forall_impl; [exact Hnext|]. intros r (i & -> & _). by exists i. }
    assert (context_ok hp (zip_with app idx next) (S L)) as Hctx'.
    { split; [|split; [done|lia]]. intros Hnil. rewrite Hnil in Hcount.
      destruct idx; [done|simpl in Hcount; lia]. }
    assert (Forall (Forall (in_vocab text))
              (slice_from (- block_size hp) <$> zip_with app idx next)) as Hids'.
    { apply windows_valid_snoc; [done| |done..].
      eapply Forall_impl; [exact Hlen|]. intros r Hr. cbv beta in Hr |- *. lia. }
    destruct (IH (zip_with app idx next) (S L) g1 Hctx' Hids')
      as (news' & g' & Eloop & Hlen2 & Hnews' & Htwo).
    assert (Forall (λ r, ∃ i : Z, r = [i]) next) as Hsingle.
    { eapply Forall_impl; [exact Hnext|]. intros r (i & -> & _). by exists i. }
    exists (zip_with app next news'), g'. split; [|split; [|split]].
    + cbn [generate_loop]. unfold generate_step. rewrite Es.
      cbn [mbind option_bind]. unfold cat1. rewrite decide_True by done.
      cbn [mbind option_bind]. rewrite Eloop. by rewrite zip_with_app_assoc.
    + rewrite length_zip_with. lia.
    + clear -Hnext Hnews' Hnlen Hlen2 Hcount.
      assert (length news' = length next) as Hl by lia. clear Hnlen Hlen2 Hcount.
      revert news' Hnews' Hl. induction Hnext as [|r next (i & -> & Hi) _ IHn];
        intros news' Hnews' Hl; [constructor|].
      destruct news' as [|new news']; [done|].
      apply Forall_cons_1 in Hnews' as [[Hnl Hnv] Hnews'].
      simpl. constructor.
      * split; [simpl; lia|]. by constructor.
      * apply IHn; [done|]. simpl in Hl. lia.
    + intros idx2 L2 Hctx2 Hw. pose proof Hctx2 as (Hne2 & Hlen2' & HL2).
      assert (length idx2 = length idx) as Hcount2.
      { apply (f_equal length) in Hw. by rewrite !length_fmap in Hw. }
      cbn [generate_loop]. unfold generate_step. rewrite Hw, Es.
      cbn [mbind option_bind]. unfold cat1. rewrite decide_True by lia.
      cbn [mbind option_bind].
      rewrite (Htwo (zip_with app idx2 next) (S L2)).
      * by rewrite zip_with_app_assoc.
      * split; [|split].
        -- intros Hnil. apply (f_equal length) in Hnil.
           rewrite length_zip_with in Hnil.
           assert (0 < length idx2)%nat by (destruct idx2; [done|simpl; lia]).
           simpl in Hnil. lia.
        -- clear -Hlen2' Hsingle. revert next Hsingle.
           induction Hlen2' as [|r idx2 Hr _ IHl]; intros next Hsingle;
             [constructor|].
           destruct Hsingle as [|nx next [i ->] Hsingle]; [constructor|].
           simpl. constructor; [|by apply IHl].
           rewrite length_app. simpl. lia.
        -- lia.
      * rewrite !windows_snoc; try done.
        -- by rewrite Hw.
        -- eapply Forall_impl; [exact Hlen|]. intros r Hr. cbv beta in Hr |- *. lia.
        -- eapply Forall_impl; [exact Hlen2'|]. intros r Hr. cbv beta in Hr |- *. lia.
Qed.
End GenerateFacts.

(** ** Claims about generation *)

Section GenerateClaim.
Context `{Scalar F}.
Variable G : Type.
Variable bernoulli_ : Q → list nat → G → (list nat → bool) * G.
Variable categorical_ : list F → G → nat * G.
Variable weights_ok_ : list F → bool.
Variable hp : Hyper.
Variable text : pystr.

End GenerateClaim.

Lemma toy_vocab_size : vocab_size toy_text = 2.
Proof. reflexivity. Qed.

Lemma toy_in_vocab (i : Z) : 0 ≤ i < 2 → in_vocab toy_text i.
Proof. unfold in_vocab. by rewrite toy_vocab_size. Qed.

Lemma toy_hyper_ok : hyper_ok toy_hyper.
Proof. repeat split; reflexivity. Qed.

Lemma toy_categorical_in_range : categorical_in_range nat toy_categorical.
Proof. intros [|x w] g Hw; [done|]. simpl. lia. Qed.


Lemma toy_fexp_nonneg (x : xint) : ∃ e, fexp x = Fin e ∧ 0 ≤ e.
Proof.
  destruct x as [|z]; cbn; [by exists 0|].
  eexists. split; [done|]. apply Z.pow_nonneg. lia.
Qed.

Lemma toy_fsum_nonneg (n : nat) (f : nat → xint) :
  (∀ j, ∃ e, f j = Fin e ∧ 0 ≤ e) → ∃ s, fsum n f = Fin s ∧ 0 ≤ s.
Proof.
  intros Hf. induction n as [|n (s & Hs & Hpos)].
  - by exists 0.
  - rewrite fsum_S, Hs. destruct (Hf n) as (e & -> & He).
    exists (s + e). split; [done|lia].
Qed.

(** On the small instance every probability is a non-negative integer, so
    the check of the weights always passes. *)
Lemma toy_probabilities_ok (m : BigramLanguageModel xint) tr :
  probabilities_ok nat toy_bernoulli toy_weights_ok toy_hyper m tr.
Proof.
  intros cond g logits loss g1 last B V _ _ Hs b _.
  apply forallb_forall. intros w Hw. apply in_map_iff in Hw as (v & <- & _).
  unfold softmax. cbn [val]. change (unsnoc [b; v]) with ([b], v).
  lazy iota beta.
  destruct (toy_fexp_nonneg (val last [b; v])) as (e & -> & He).
  match goal with |- context [fsum ?n ?f] =>
    destruct (toy_fsum_nonneg n f) as (s & -> & Hsum) end.
  { intros j. apply toy_fexp_nonneg. }
  cbn. apply bool_decide_eq_true. by apply Z_div_nonneg_nonneg.
Qed.


(** ** The claims on the small instance *)

Lemma forward_loss_witness :
  ∃ m lg l g',
    BigramLanguageModel_init toy_hyper toy_text toy_params = Some m ∧
    BigramLanguageModel_forward nat toy_bernoulli toy_hyper m true [[0; 1]]
      (Some [[1; 0]]) 0%nat = Some (lg, Some l, g').
Proof.
  eexists.
  eassert (BigramLanguageModel_init toy_hyper toy_text toy_params = Some _) as Hm
    by reflexivity.
  destruct (forward_loss nat toy_bernoulli toy_hyper toy_text toy_params _ true
              [[0; 1]] 0%nat Hm) as (_ & _ & Hret).
  assert (Forall (Forall (in_vocab toy_text)) [[0; 1]]) as Hids.
  { apply Forall_singleton. apply Forall_cons_2; [apply toy_in_vocab; lia|].
    apply Forall_singleton. apply toy_in_vocab. lia. }
  assert (Forall (Forall (in_vocab toy_text)) [[1; 0]]) as Htgs.
  { apply Forall_singleton. apply Forall_cons_2; [apply toy_in_vocab; lia|].
    apply Forall_singleton. apply toy_in_vocab. lia. }
  destruct (Hret toy_hyper_ok 1%nat [[1; 0]] eq_refl Hids eq_refl Htgs)
    as (_ & lg & l & g' & E).
  exists lg, l, g'. split; [exact Hm|exact E].
Defined.

(** The corpus "ababababab", encoded. *)
Lemma get_batch_windows_witness :
  ∃ x y g',
    get_batch nat toy_random toy_hyper [0; 1; 0; 1; 0; 1; 0; 1; 0; 1] "train" 0%nat
      = Some (x, y, g') ∧
    Z.of_nat (length x) = 2 ∧ length y = length x.
Proof.
  destruct (get_batch_windows nat toy_random toy_hyper
              [0; 1; 0; 1; 0; 1; 0; 1; 0; 1] "train" 0%nat)
    as (x & y & g' & E & Hx & Hy & _).
  - split; [simpl; lia|reflexivity].
  - reflexivity.
  - exists x, y, g'. split; [exact E|]. split; [exact Hx|exact Hy].
Defined.

Lemma decode_encode_witness :
  encode toy_text [98; 97; 97]%N ≫= decode toy_text = Some [98; 97; 97]%N.
Proof.
  apply decode_encode. intros ch Hch. unfold toy_text.
  repeat (apply elem_of_cons in Hch as [->|Hch]; [set_solver|]).
  by apply elem_of_nil in Hch.
Defined.

Lemma encode_decode_witness :
  decode toy_text [1; 0; 0] ≫= encode toy_text = Some [1; 0; 0].
Proof.
  apply encode_decode.
  apply Forall_cons_2; [rewrite toy_vocab_size; lia|].
  apply Forall_cons_2; [rewrite toy_vocab_size; lia|].
  apply Forall_singleton. rewrite toy_vocab_size. lia.
Defined.

(** * Further properties of the code *)

(** ** The codec on arbitrary input *)

Section CodecErrors.
Variable text : pystr.

Lemma stoi_is_Some_iff ch : is_Some (stoi text !! ch) ↔ ch ∈ text.
Proof.
  split; [|apply stoi_is_Some].
  intros [i (_ & Hi)%stoi_lookup]. apply elem_of_chars.
  by eapply list_elem_of_lookup_2.
Qed.

Lemma itos_is_Some_iff i : is_Some (itos text !! i) ↔ in_vocab text i.
Proof.
  split; [|apply itos_is_Some].
  intros [ch (Hi & Hl%lookup_lt_Some)%itos_lookup].
  unfold in_vocab, vocab_size. lia.
Qed.

Lemma itos_elem_of i ch : itos text !! i = Some ch → ch ∈ text.
Proof.
  intros (_ & Hl)%itos_lookup. apply elem_of_chars.
  by eapply list_elem_of_lookup_2.
Qed.

Lemma mapM_None_iff {A B} (f : A → option B) (l : list A) :
  mapM f l = None ↔ ∃ x, x ∈ l ∧ f x = None.
Proof.
  induction l as [|x l IH]; simpl.
  - split; [done|]. by intros (x & ?%elem_of_nil & _).
  - destruct (f x) as [y|] eqn:Ex; simpl.
    + destruct (mapM f l) as [k|] eqn:El; simpl.
      * split; [done|]. intros (z & [->|Hz]%elem_of_cons & Hfz); [congruence|].
        destruct IH as [_ IH]. by discriminate IH; eauto.
      * split; [|done]. intros _. destruct IH as [IH _].
        destruct (IH eq_refl) as (z & Hz & Hfz). exists z. split; [by right|done].
    + split; [|done]. intros _. exists x. split; [by left|done].
Qed.

Lemma encode_in_vocab (s : pystr) ids :
  encode text s = Some ids → Forall (in_vocab text) ids.
Proof.
  unfold encode. intros Hids%mapM_Some.
  induction Hids as [|ch i s ids Hi _ IH]; constructor; [|done].
  by apply stoi_range in Hi.
Qed.

(** X1. Encoding raises [KeyError] exactly on a string with a character that
    does not occur in the corpus; otherwise it gives one id of the
    vocabulary per character. *)
Theorem encode_checks_characters (s : pystr) :
  (encode text s = None ↔ ∃ ch, ch ∈ s ∧ ch ∉ text) ∧
  (∀ ids, encode text s = Some ids →
     length ids = length s ∧ Forall (in_vocab text) ids).
Proof.
  split.
  - unfold encode. rewrite mapM_None_iff. apply exist_proper. intros ch.
    rewrite eq_None_not_Some, stoi_is_Some_iff. done.
  - unfold encode. intros ids Hids%mapM_Some. split.
    + symmetry. by eapply Forall2_length.
    + by apply (encode_in_vocab s), mapM_Some.
Qed.

(** X2. Decoding raises [KeyError] exactly on a list with an id outside
    [0, vocab_size); otherwise it gives one character of the corpus per
    id. *)
Theorem decode_checks_ids (ids : list Z) :
  (decode text ids = None ↔ ∃ i, i ∈ ids ∧ ¬ in_vocab text i) ∧
  (∀ s, decode text ids = Some s →
     length s = length ids ∧ ∀ ch, ch ∈ s → ch ∈ text).
Proof.
  split.
  - unfold decode.
    destruct (mapM (λ i, itos text !! i) ids) as [l|] eqn:El; simpl.
    + split; [done|]. intros (i & Hi & Hni). exfalso.
      assert (mapM (λ i, itos text !! i) ids = None); [|congruence].
      apply mapM_None_iff. exists i. split; [done|].
      by rewrite eq_None_not_Some, itos_is_Some_iff.
    + split; [|done]. intros _. apply mapM_None_iff in El as (i & Hi & Hni).
      exists i. split; [done|]. by rewrite <- itos_is_Some_iff, <- eq_None_not_Some.
  - unfold decode. intros s.
    destruct (mapM (λ i, itos text !! i) ids) as [l|] eqn:El; [|done]. simpl.
    rewrite join_singletons. intros [= <-]. apply mapM_Some in El. split.
    + symmetry. by eapply Forall2_length.
    + intros ch Hch. clear -El Hch.
      induction El as [|i c ids l Hi _ IH]; [by apply elem_of_nil in Hch|].
      apply elem_of_cons in Hch as [->|Hch]; [by eapply itos_elem_of|by apply IH].
Qed.

Lemma sorted_lookup_lt (l : list N) (i j : nat) (x y : N) :
  StronglySorted N.le l → NoDup l → (i < j)%nat →
  l !! i = Some x → l !! j = Some y → (x < y)%N.
Proof.
  intros Hs Hn. revert i j. induction Hs as [|a l Hs IH Ha]; intros i j Hij Hi Hj.
  { by rewrite lookup_nil in Hi. }
  apply NoDup_cons in Hn as [Hna Hn].
  destruct j as [|j]; [lia|]. simpl in Hj.
  destruct i as [|i]; simpl in Hi.
  - injection Hi as <-. pose proof (list_elem_of_lookup_2 _ _ _ Hj) as Hy.
    rewrite Forall_forall in Ha. specialize (Ha y Hy).
    assert (a ≠ y) by (intros ->; done). lia.
  - apply (IH Hn i j); [lia|done..].
Qed.

(** X3. Ids follow the order of the characters: of two characters of the corpus
    the one with the smaller code point has the smaller id. *)
Theorem stoi_monotone (c1 c2 : char) (i1 i2 : Z) :
  stoi text !! c1 = Some i1 → stoi text !! c2 = Some i2 →
  ((c1 < c2)%N ↔ i1 < i2).
Proof.
  intros (H1 & Hl1)%stoi_lookup (H2 & Hl2)%stoi_lookup.
  pose proof (chars_NoDup text) as Hn.
  assert (StronglySorted N.le (chars text)) as Hs.
  { apply StronglySorted_merge_sort; [apply _|]. intros x y. lia. }
  split.
  - intros Hc. destruct (decide (i1 < i2)) as [|Hge]; [done|]. exfalso.
    destruct (decide (i1 = i2)) as [->|Hne].
    + rewrite Hl1 in Hl2. injection Hl2 as ->. lia.
    + pose proof (sorted_lookup_lt _ (Z.to_nat i2) (Z.to_nat i1) c2 c1 Hs Hn
                    ltac:(lia) Hl2 Hl1). lia.
  - intros Hi. apply (sorted_lookup_lt _ (Z.to_nat i1) (Z.to_nat i2) c1 c2 Hs Hn);
      [lia|done..].
Qed.
End CodecErrors.

Lemma stoi_monotone_witness :
  stoi toy_text !! 97%N = Some 0 ∧ stoi toy_text !! 98%N = Some 1 ∧
  ((97 < 98)%N ↔ 0 < 1).
Proof.
  split; [reflexivity|]. split; [reflexivity|].
  apply (stoi_monotone toy_text); reflexivity.
Defined.

(** ** Batches: when sampling fails *)

Lemma elem_of_window_take {A} (x : A) n l : x ∈ take n l → x ∈ l.
Proof. intros (i & Hi & _)%elem_of_take. by eapply list_elem_of_lookup_2. Qed.

Lemma elem_of_window_drop {A} (x : A) n l : x ∈ drop n l → x ∈ l.
Proof.
  intros (i & Hi)%list_elem_of_lookup_1. rewrite lookup_drop in Hi.
  by eapply list_elem_of_lookup_2.
Qed.

Section BatchErrors.
Variable G : Type.
Variable random_ : G → Z * G.
Variable hp : Hyper.
Variable corpus : list Z.

Lemma split_data_elem_of split i : i ∈ split_data corpus split → i ∈ corpus.
Proof.
  unfold split_data. destruct (String.eqb split "train").
  - rewrite train_of_take. apply elem_of_window_take.
  - rewrite val_of_drop. apply elem_of_window_drop.
Qed.

Lemma split_data_length split :
  Z.of_nat (length (split_data corpus split)) =
    if String.eqb split "train" then 9 * Z.of_nat (length corpus) / 10
    else Z.of_nat (length corpus) - 9 * Z.of_nat (length corpus) / 10.
Proof.
  pose proof (split_point_range (length corpus)) as Hn.
  unfold split_data. destruct (String.eqb split "train").
  - rewrite train_of_take, length_take. unfold split_point in *. lia.
  - rewrite val_of_drop, length_drop. unfold split_point in *. lia.
Qed.

(** A batch drawn from a split that is longer than the window: both tensors
    have [batch_size] rows of [block_size] ids of the split, and the
    generator has made the draws of [randint]. *)
Lemma get_batch_Some split g :
  0 ≤ block_size hp < Z.of_nat (length (split_data corpus split)) →
  0 < batch_size hp →
  ∃ x y,
    get_batch G random_ hp corpus split g
      = Some (x, y,
              (randint_draw G random_
                 (Z.of_nat (length (split_data corpus split)) - block_size hp)
                 (Z.to_nat (batch_size hp)) g).2) ∧
    shape2 x = Some (Z.to_nat (batch_size hp), Z.to_nat (block_size hp)) ∧
    shape2 y = Some (Z.to_nat (batch_size hp), Z.to_nat (block_size hp)) ∧
    Forall (Forall (λ i, i ∈ corpus)) x ∧ Forall (Forall (λ i, i ∈ corpus)) y.
Proof.
  intros Hbs Hbatch. unfold get_batch.
  set (data := split_data corpus split) in *.
  set (bs := block_size hp) in *.
  set (high := Z.of_nat (length data) - bs).
  assert (0 < high) as Hhigh by (unfold high; lia).
  unfold randint. rewrite decide_True by lia.
  destruct (randint_draw_spec G random_ high (Z.to_nat (batch_size hp)) g Hhigh)
    as [Hlen Hix].
  destruct (randint_draw G random_ high (Z.to_nat (batch_size hp)) g)
    as [ix g'] eqn:Hdraw.
  simpl in Hlen, Hix. simpl.
  assert (ix ≠ []) as Hne by (intros ->; simpl in Hlen; lia).
  assert (Forall (λ r, length r = Z.to_nat bs)
            ((λ i, slice i (i + bs) data) <$> ix)) as Hx.
  { apply Forall_fmap. eapply Forall_impl; [exact Hix|]. intros i Hi. simpl.
    rewrite slice_window by (unfold high in Hi; lia).
    apply window_length. unfold high in Hi. lia. }
  assert (Forall (λ r, length r = Z.to_nat bs)
            ((λ i, slice (i + 1) (i + 1 + bs) data) <$> ix)) as Hy.
  { apply Forall_fmap. eapply Forall_impl; [exact Hix|]. intros i Hi. simpl.
    rewrite slice_window by (unfold high in Hi; lia).
    apply window_length. unfold high in Hi. lia. }
  rewrite (stack_Some _ (Z.to_nat bs)) by (by destruct ix).
  simpl. rewrite (stack_Some _ (Z.to_nat bs)) by (by destruct ix).
  simpl. eexists _, _. split; [done|].
  assert (∀ a b, Forall (λ i, i ∈ corpus) (slice a b data)) as Hin.
  { intros a b. apply Forall_forall. intros i Hi. unfold slice in Hi.
    apply elem_of_window_take, elem_of_window_drop in Hi.
    by apply (split_data_elem_of split). }
  split; [|split; [|split]].
  - rewrite <- Hlen, <- (length_fmap (λ i, slice i (i + bs) data)).
    apply shape2_rect; [by destruct ix|done].
  - rewrite <- Hlen, <- (length_fmap (λ i, slice (i + 1) (i + 1 + bs) data)).
    apply shape2_rect; [by destruct ix|done].
  - apply Forall_fmap, Forall_true. intros i. apply Hin.
  - apply Forall_fmap, Forall_true. intros i. apply Hin.
Qed.

(** X4. For a non-negative [block_size], [get_batch] raises exactly when the
    split has no room for a window and its successor
    ([len(data) <= block_size], where [randint] refuses an empty range) or
    when no row is asked for ([batch_size <= 0], where [randint] refuses a
    negative size and [stack] an empty list).  The
    training split has [int(0.9 * len)] ids and the validation split, which
    every name but ['train'] selects, the others. *)
Theorem get_batch_fails_iff (split : string) (g : G) :
  0 ≤ block_size hp →
  (get_batch G random_ hp corpus split g = None ↔
     Z.of_nat (length (split_data corpus split)) ≤ block_size hp ∨
     batch_size hp ≤ 0) ∧
  Z.of_nat (length (split_data corpus "train"))
    = 9 * Z.of_nat (length corpus) / 10 ∧
  (split ≠ "train" →
   split_data corpus split = val_of corpus ∧
   Z.of_nat (length (val_of corpus))
     = Z.of_nat (length corpus) - 9 * Z.of_nat (length corpus) / 10).
Proof.
  intros Hbs. split; [|split].
  - split.
    + intros Hnone.
      destruct (decide (Z.of_nat (length (split_data corpus split))
                          ≤ block_size hp)) as [|Hlen]; [by left|].
      destruct (decide (batch_size hp ≤ 0)) as [|Hb]; [by right|].
      destruct (get_batch_Some split g) as (x & y & E & _); [lia..|].
      congruence.
    + intros Hor. unfold get_batch, randint. case_decide as Hd; [|done].
      destruct Hor as [?|Hb]; [lia|].
      assert (batch_size hp = 0) as -> by lia. done.
  - by rewrite split_data_length.
  - intros Hne.
    assert (split_data corpus split = val_of corpus) as Hval.
    { unfold split_data. destruct (String.eqb split "train") eqn:E; [|done].
      by apply String.eqb_eq in E. }
    split; [done|]. rewrite <- Hval, split_data_length.
    destruct (String.eqb split "train") eqn:E; [|done].
    by apply String.eqb_eq in E.
Qed.
End BatchErrors.

Lemma get_batch_fails_iff_witness :
  0 ≤ block_size toy_hyper ∧
  get_batch nat toy_random toy_hyper [0; 1; 0] "val" 0%nat = None.
Proof.
  split; [simpl; lia|].
  apply (get_batch_fails_iff nat toy_random toy_hyper [0; 1; 0] "val" 0%nat).
  - simpl. lia.
  - left. vm_compute. discriminate.
Defined.

(** ** Evaluation mode *)

Section EvalMode.
Context `{Scalar F}.
Variable G : Type.
Variable bernoulli_ : Q → list nat → G → (list nat → bool) * G.
Variable hp : Hyper.

(** The weights of either mode are the weights of evaluation mode passed
    through the dropout layer. *)
Lemma attention_weights_dropout (m : MultiHeadAttention F) tr
    (q k att : tensor F) (g g1 : G) :
  attention_weights G bernoulli_ m tr q k g = Some (att, g1) →
  ∃ att0,
    attention_weights G bernoulli_ m false q k g = Some (att0, g) ∧
    Dropout_forward G bernoulli_ (attn_dropout m) tr att0 g = (att, g1).
Proof.
  unfold attention_weights.
  destruct (transpose (-2) (-1) k ≫= matmul q) as [a|]; [|done].
  cbn [mbind option_bind].
  destruct (last (shape k) ≫= inv_sqrt) as [s|]; [|done].
  cbn [mbind option_bind].
  destruct (masked_fill (mul_scalar a s) (eq_scalar (tril m) f0) neg_inf)
    as [a'|]; [|done].
  cbn [mbind option_bind]. intros Heq. apply (inj Some) in Heq.
  eexists. split; [reflexivity|done].
Qed.

Section Generator.
Variable G2 : Type.
Variable bernoulli2 : Q → list nat → G2 → (list nat → bool) * G2.

Lemma attention_weights_eval_gen (m : MultiHeadAttention F)
    (q k att : tensor F) (g g1 : G) (g2 : G2) :
  attention_weights G bernoulli_ m false q k g = Some (att, g1) →
  g1 = g ∧ attention_weights G2 bernoulli2 m false q k g2 = Some (att, g2).
Proof.
  unfold attention_weights.
  destruct (transpose (-2) (-1) k ≫= matmul q) as [a|]; [|done].
  cbn [mbind option_bind].
  destruct (last (shape k) ≫= inv_sqrt) as [s|]; [|done].
  cbn [mbind option_bind].
  destruct (masked_fill (mul_scalar a s) (eq_scalar (tril m) f0) neg_inf)
    as [a'|]; [|done].
  cbn [mbind option_bind Dropout_forward]. intros Heq.
  apply (inj Some) in Heq. injection Heq as <- <-. done.
Qed.

Lemma mha_forward_eval_gen (m : MultiHeadAttention F) (x out : tensor F)
    (g g1 : G) (g2 : G2) :
  MultiHeadAttention_forward G bernoulli_ hp m false x g = Some (out, g1) →
  g1 = g ∧
  MultiHeadAttention_forward G2 bernoulli2 hp m false x g2 = Some (out, g2).
Proof.
  unfold MultiHeadAttention_forward.
  destruct (shape x) as [|B [|T [|C [|]]]]; try done.
  destruct (qkv_heads hp m x) as [[[q k] v]|]; [|done].
  cbn [mbind option_bind].
  destruct (attention_weights G bernoulli_ m false q k g) as [[att g']|] eqn:Ea;
    [|done].
  apply (attention_weights_eval_gen _ _ _ _ _ _ g2) in Ea as [-> ->].
  cbn [mbind option_bind].
  destruct (matmul att v) as [y|]; [|done]. cbn [mbind option_bind].
  destruct (transpose 1 2 y ≫= view [Z.of_nat B; Z.of_nat T; Z.of_nat C])
    as [y'|]; [|done].
  cbn [mbind option_bind].
  destruct (Linear_forward (proj m) y') as [o|]; [|done].
  cbn [mbind option_bind Dropout_forward]. intros Heq.
  apply (inj Some) in Heq. injection Heq as <- <-. done.
Qed.

Lemma ffwd_forward_eval_gen (m : FeedForward F) (x out : tensor F)
    (g g1 : G) (g2 : G2) :
  FeedForward_forward G bernoulli_ m false x g = Some (out, g1) →
  g1 = g ∧ FeedForward_forward G2 bernoulli2 m false x g2 = Some (out, g2).
Proof.
  unfold FeedForward_forward.
  destruct (Linear_forward (net0 m) x) as [h|]; [|done].
  cbn [mbind option_bind].
  destruct (Linear_forward (net2 m) (relu h)) as [o|]; [|done].
  cbn [mbind option_bind Dropout_forward]. intros Heq.
  apply (inj Some) in Heq. injection Heq as <- <-. done.
Qed.

Lemma Block_forward_eval_gen (b : Block F) (x out : tensor F)
    (g g1 : G) (g2 : G2) :
  Block_forward G bernoulli_ hp b false x g = Some (out, g1) →
  g1 = g ∧ Block_forward G2 bernoulli2 hp b false x g2 = Some (out, g2).
Proof.
  unfold Block_forward.
  destruct (LayerNorm_forward (ln1 b) x) as [h|]; [|done].
  cbn [mbind option_bind].
  destruct (MultiHeadAttention_forward G bernoulli_ hp (sa b) false h g)
    as [[a g']|] eqn:Ea; [|done].
  apply (mha_forward_eval_gen _ _ _ _ _ g2) in Ea as [-> ->].
  cbn [mbind option_bind].
  destruct (add x a) as [x1|]; [|done]. cbn [mbind option_bind].
  destruct (LayerNorm_forward (ln2 b) x1) as [h2|]; [|done].
  cbn [mbind option_bind].
  destruct (FeedForward_forward G bernoulli_ (ffwd b) false h2 g)
    as [[f g']|] eqn:Ef; [|done].
  apply (ffwd_forward_eval_gen _ _ _ _ _ g2) in Ef as [-> ->].
  cbn [mbind option_bind].
  destruct (add x1 f) as [x2|]; [|done]. cbn [mbind option_bind].
  intros Heq. apply (inj Some) in Heq. injection Heq as <- <-. done.
Qed.

Lemma Sequential_forward_eval_gen (bs : list (Block F)) (x out : tensor F)
    (g g1 : G) (g2 : G2) :
  Sequential_forward G bernoulli_ hp bs false x g = Some (out, g1) →
  g1 = g ∧ Sequential_forward G2 bernoulli2 hp bs false x g2 = Some (out, g2).
Proof.
  revert x. induction bs as [|b bs IH]; intros x; cbn [Sequential_forward].
  - intros Heq. apply (inj Some) in Heq. injection Heq as <- <-. done.
  - destruct (Block_forward G bernoulli_ hp b false x g) as [[x1 g']|] eqn:Eb;
      [|done].
    apply (Block_forward_eval_gen _ _ _ _ _ g2) in Eb as [-> ->].
    cbn [mbind option_bind]. apply IH.
Qed.

Lemma forward_eval_gen (m : BigramLanguageModel F) idx targets
    (lg : tensor F) loss (g g1 : G) (g2 : G2) :
  BigramLanguageModel_forward G bernoulli_ hp m false idx targets g
    = Some (lg, loss, g1) →
  g1 = g ∧
  BigramLanguageModel_forward G2 bernoulli2 hp m false idx targets g2
    = Some (lg, loss, g2).
Proof.
  unfold BigramLanguageModel_forward.
  destruct (shape2 idx) as [[B T]|]; [|done]. cbn [mbind option_bind].
  destruct (Embedding_forward2 (token_embedding_table m) idx) as [tok|]; [|done].
  cbn [mbind option_bind].
  destruct (Embedding_forward1 (position_embedding_table m) (arange T))
    as [pos|]; [|done].
  cbn [mbind option_bind].
  destruct (add tok pos) as [x|]; [|done]. cbn [mbind option_bind].
  destruct (Sequential_forward G bernoulli_ hp (blocks m) false x g)
    as [[x1 g']|] eqn:Eb; [|done].
  apply (Sequential_forward_eval_gen _ _ _ _ _ g2) in Eb as [-> ->].
  cbn [mbind option_bind].
  destruct (LayerNorm_forward (ln_f m) x1) as [x2|]; [|done].
  cbn [mbind option_bind].
  destruct (Linear_forward (lm_head m) x2) as [logits|]; [|done].
  cbn [mbind option_bind].
  destruct targets as [targets|].
  - destruct (shape logits) as [|B' [|T' [|C' [|]]]]; try done.
    destruct (view [Z.of_nat (B' * T'); Z.of_nat C'] logits) as [l2|]; [|done].
    cbn [mbind option_bind].
    destruct (view_flat (B' * T') targets) as [t2|]; [|done].
    cbn [mbind option_bind].
    destruct (cross_entropy l2 t2) as [l|]; [|done].
    cbn [mbind option_bind].
    intros Heq. apply (inj Some) in Heq. injection Heq as <- <- <-. done.
  - intros Heq. apply (inj Some) in Heq. injection Heq as <- <- <-. done.
Qed.
End Generator.
End EvalMode.

Section EvalModeClaims.
Context `{Scalar F}.
Variable G : Type.
Variable bernoulli_ : Q → list nat → G → (list nat → bool) * G.
Variable G2 : Type.
Variable bernoulli2 : Q → list nat → G2 → (list nat → bool) * G2.
Variable hp : Hyper.

(** X9. In evaluation mode ([model.eval()]) dropout is the identity: a forward
    pass that returns leaves the generator as it found it, and returns the
    same logits and loss from any generator state and with any mask
    sampler. *)
Theorem eval_forward_ignores_generator (m : BigramLanguageModel F) idx targets
    (lg : tensor F) loss (g g1 : G) (g2 : G2) :
  BigramLanguageModel_forward G bernoulli_ hp m false idx targets g
    = Some (lg, loss, g1) →
  g1 = g ∧
  BigramLanguageModel_forward G2 bernoulli2 hp m false idx targets g2
    = Some (lg, loss, g2).
Proof. apply forward_eval_gen. Qed.
End EvalModeClaims.

Lemma eval_forward_ignores_generator_witness :
  ∃ m lg,
    BigramLanguageModel_init toy_hyper toy_text toy_params = Some m ∧
    BigramLanguageModel_forward nat toy_bernoulli toy_hyper m false [[0; 1]]
      None 0%nat = Some (lg, None, 0%nat) ∧
    BigramLanguageModel_forward nat toy_bernoulli toy_hyper m false [[0; 1]]
      None 7%nat = Some (lg, None, 7%nat).
Proof.
  eexists.
  eassert (BigramLanguageModel_init toy_hyper toy_text toy_params = Some _) as Hm
    by reflexivity.
  assert (Forall (Forall (in_vocab toy_text)) [[0; 1]]) as Hids.
  { apply Forall_singleton. apply Forall_cons_2; [apply toy_in_vocab; lia|].
    apply Forall_singleton. apply toy_in_vocab. lia. }
  destruct (forward_None_Some nat toy_bernoulli toy_hyper toy_text toy_params _
              false [[0; 1]] 0%nat 1 2 Hm eq_refl Hids ltac:(simpl; lia)
              (hyper_ok_accepts toy_hyper 1 toy_hyper_ok))
    as (lg & g' & E & _).
  exists lg.
  destruct (eval_forward_ignores_generator nat toy_bernoulli nat toy_bernoulli
              toy_hyper _ _ _ _ _ _ _ 7%nat E) as [-> E7].
  split; [exact Hm|]. split; [exact E|exact E7].
Defined.

Section AttentionMask.
Context `{Scalar F} `{ScalarKinds F} `{!ScalarLaws F}.
Variable G : Type.
Variable bernoulli_ : Q → list nat → G → (list nat → bool) * G.
Variable hp : Hyper.

End AttentionMask.

(** ** The logits of a position depend on its prefix only *)

Section Prefix.
Context `{Scalar F} `{ScalarKinds F} `{!ScalarLaws F}.
Variable G : Type.
Variable bernoulli_ : Q → list nat → G → (list nat → bool) * G.
Variable hp : Hyper.

Lemma LayerNorm_agree (l : LayerNorm F) (x x' y y' : tensor F) B B' T C b i :
  shape x = [B; T; C] → shape x' = [B'; T; C] →
  LayerNorm_forward l x = Some y → LayerNorm_forward l x' = Some y' →
  rows_agree b i T C x x' → rows_agree b i T C y y'.
Proof.
  intros Hs Hs' Ey Ey' Hx.
  destruct (LayerNorm_forward_inv3 _ _ _ _ _ _ Hs Ey) as (HC & _).
  revert Ey Ey'. unfold LayerNorm_forward. rewrite Hs, Hs'.
  change (last [B; T; C]) with (Some C). change (last [B'; T; C]) with (Some C).
  lazy iota beta. intros Ey Ey'.
  rewrite decide_True in Ey by done. rewrite decide_True in Ey' by done.
  apply (inj Some) in Ey. apply (inj Some) in Ey'. subst y y'.
  intros t c Hti HtT Hc. cbn [val unsnoc]. rewrite <- HC.
  assert (∀ j, (j < C)%nat → val x ([b; t] ++ [j]) = val x' ([b; t] ++ [j]))
    as Hrow by (intros j Hj; by apply Hx).
  rewrite (Hx t c) by done.
  rewrite (fsum_ext C (λ j, val x ([b; t] ++ [j])) (λ j, val x' ([b; t] ++ [j])))
    by done.
  f_equal. f_equal. f_equal. f_equal. f_equal. f_equal.
  apply fsum_ext. intros j Hj. by rewrite Hrow.
Qed.

Lemma Linear_agree (l : Linear F) (x x' y y' : tensor F) B B' T C O b i :
  shape x = [B; T; C] → shape x' = [B'; T; C] →
  Linear_forward l x = Some y → Linear_forward l x' = Some y' →
  rows_agree b i T C x x' → rows_agree b i T O y y'.
Proof.
  intros Hs Hs' Ey Ey' Hx.
  destruct (Linear_forward_inv3 _ _ _ _ _ _ Hs Ey) as (HC & _ & Hy).
  destruct (Linear_forward_inv3 _ _ _ _ _ _ Hs' Ey') as (_ & _ & Hy').
  intros t o Hti HtT _. rewrite Hy, Hy'. f_equal.
  apply fsum_ext. intros c Hc. rewrite Hx by lia. done.
Qed.

Lemma relu_agree (x x' : tensor F) T C b i :
  rows_agree b i T C x x' → rows_agree b i T C (relu x) (relu x').
Proof. intros Hx t c ???. cbn [relu val]. by rewrite Hx. Qed.

Lemma add_same_val (a a2 z : tensor F) s idx :
  shape a = s → shape a2 = s → add a a2 = Some z →
  Forall2 (λ d i, (i < d)%nat) s idx →
  val z idx = fadd (val a idx) (val a2 idx).
Proof.
  intros Ha Ha2. unfold add. rewrite Ha, Ha2, broadcast_refl.
  cbn [mbind option_bind]. intros Heq Hidx. apply (inj Some) in Heq. subst z.
  cbn [val]. by rewrite bcast_index_id.
Qed.

Lemma add_agree (x a x' a' z z' : tensor F) B B' T C b i :
  shape x = [B; T; C] → shape a = [B; T; C] →
  shape x' = [B'; T; C] → shape a' = [B'; T; C] →
  add x a = Some z → add x' a' = Some z' →
  (b < B)%nat → (b < B')%nat →
  rows_agree b i T C x x' → rows_agree b i T C a a' →
  rows_agree b i T C z z'.
Proof.
  intros Hx Ha Hx' Ha' Ez Ez' Hb Hb' Hxx Haa t c Hti HtT Hc.
  rewrite (add_same_val x a z _ [b; t; c] Hx Ha Ez) by (repeat constructor; lia).
  rewrite (add_same_val x' a' z' _ [b; t; c] Hx' Ha' Ez')
    by (repeat constructor; lia).
  by rewrite Hxx, Haa.
Qed.

Lemma mha_agree θ (m : MultiHeadAttention F) (x x' out out' : tensor F)
    (g g1 g' g1' : G) B B' T C b i :
  MultiHeadAttention_init hp (n_embed hp) θ = Some m →
  shape x = [B; T; C] → shape x' = [B'; T; C] →
  T = Z.to_nat (block_size hp) ∨ T = 0%nat →
  (b < B)%nat → (b < B')%nat →
  MultiHeadAttention_forward G bernoulli_ hp m false x g = Some (out, g1) →
  MultiHeadAttention_forward G bernoulli_ hp m false x' g' = Some (out', g1') →
  (∀ t, (t ≤ i)%nat → row_regular hp m x T C b t) →
  (∀ t, (t ≤ i)%nat → row_regular hp m x' T C b t) →
  rows_agree b i T C x x' → rows_agree b i T C out out'.
Proof.
  intros Hm Hs Hs' HT Hb Hb' E1 E2 Hreg Hreg' Hx t c Hti HtT Hc.
  destruct HT as [HTbs|HT0]; [|lia].
  destruct (mha_forward_eval G bernoulli_ hp θ m x out g g1 B T C Hm Hs HTbs E1)
    as (q & k & v & nh & Eh & Hnh & _ & Hval).
  destruct (mha_forward_eval G bernoulli_ hp θ m x' out' g' g1' B' T C Hm Hs' HTbs E2)
    as (q' & k' & v' & nh' & Eh' & Hnh' & _ & Hval').
  assert (nh' = nh) as -> by lia.
  rewrite Hval, Hval' by done. f_equal.
  destruct (qkv_heads_inv hp θ m x q k v B T C Hm Hs Eh)
    as (nh1 & He & HC & Hnh1 & Hnhpos & Hnum & _ & _ & _ & Hqkv).
  destruct (qkv_heads_inv hp θ m x' q' k' v' B' T C Hm Hs' Eh')
    as (nh2 & _ & _ & Hnh2 & _ & _ & _ & _ & _ & Hqkv').
  assert (nh1 = nh) as -> by lia. assert (nh2 = nh) as -> by lia.
  assert (nh * (C / nh) = C)%nat as Hdiv.
  { apply Nat.mul_cancel_l in Hnum; [|lia].
    apply Nat.mul_cancel_l in Hnum; [done|lia]. }
  assert (0 < C / nh)%nat as Hhs by (destruct (C / nh)%nat; lia).
  destruct (mha_init_inv hp _ _ _ Hm) as (_ & _ & Hin & _).
  assert (Z.to_nat (n_head hp) = nh) as Hnat by lia.
  pose proof (Hreg t Hti q k v Eh) as Hr.
  pose proof (Hreg' t Hti q' k' v' Eh') as Hr'.
  rewrite Hnat in Hr, Hr'.
  assert (∀ t' o, (t' ≤ t)%nat → fused m x b t' o = fused m x' b t' o) as Hfused.
  { intros t' o Ht'. apply fused_agree. intros c0 Hc0. apply Hx; lia. }
  apply fsum_ext. intros c' Hc'. f_equal.
  assert (c' / (C / nh) < nh)%nat as Hh.
  { apply Nat.Div0.div_lt_upper_bound. lia. }
  assert (c' `mod` (C / nh) < C / nh)%nat as Hdm.
  { apply Nat.mod_upper_bound. lia. }
  destruct (Hr _ _ Hh Hdm) as [Hpos Hfin].
  destruct (Hr' _ _ Hh Hdm) as [_ Hfin'].
  apply attended_causal; [| | |done..].
  + intros l Hl.
    destruct (Hqkv b (c' / (C / nh))%nat t l) as (-> & _); [done..|].
    destruct (Hqkv' b (c' / (C / nh))%nat t l) as (-> & _); [done..|].
    by apply Hfused.
  + intros j l Hj Hl.
    destruct (Hqkv b (c' / (C / nh))%nat j l) as (_ & -> & _); [lia|done..|].
    destruct (Hqkv' b (c' / (C / nh))%nat j l) as (_ & -> & _); [lia|done..|].
    by apply Hfused.
  + intros j Hj.
    destruct (Hqkv b (c' / (C / nh))%nat j (c' `mod` (C / nh))%nat)
      as (_ & _ & ->); [lia|done..|].
    destruct (Hqkv' b (c' / (C / nh))%nat j (c' `mod` (C / nh))%nat)
      as (_ & _ & ->); [lia|done..|].
    by apply Hfused.
Qed.

Lemma ffwd_agree θ (m : FeedForward F) (x x' y y' : tensor F)
    (g g1 g' g1' : G) B B' T C b i :
  FeedForward_init hp (n_embed hp) θ = Some m →
  shape x = [B; T; C] → shape x' = [B'; T; C] →
  FeedForward_forward G bernoulli_ m false x g = Some (y, g1) →
  FeedForward_forward G bernoulli_ m false x' g' = Some (y', g1') →
  rows_agree b i T C x x' → rows_agree b i T C y y'.
Proof.
  intros Hm Hs Hs'. unfold FeedForward_forward.
  destruct (Linear_forward (net0 m) x) as [h|] eqn:Eh; [|done].
  destruct (Linear_forward (net0 m) x') as [h'|] eqn:Eh'; [|done].
  cbn [mbind option_bind].
  destruct (Linear_forward_inv3 _ _ _ B T C Hs Eh) as (_ & Hhs & _).
  destruct (Linear_forward_inv3 _ _ _ B' T C Hs' Eh') as (_ & Hhs' & _).
  destruct (Linear_forward (net2 m) (relu h)) as [o|] eqn:Eo; [|done].
  destruct (Linear_forward (net2 m) (relu h')) as [o'|] eqn:Eo'; [|done].
  cbn [mbind option_bind Dropout_forward].
  intros Ey Ey' Hx. apply (inj Some) in Ey. apply (inj Some) in Ey'.
  injection Ey as <- _. injection Ey' as <- _.
  eapply (Linear_agree (net2 m) (relu h) (relu h')); [exact Hhs|exact Hhs'|done..|].
  apply relu_agree. by eapply (Linear_agree (net0 m) x x').
Qed.

Lemma Block_agree (blk : Block F) (x x' y y' : tensor F)
    (g g1 g' g1' : G) B B' T C b i :
  built_block hp blk →
  shape x = [B; T; C] → shape x' = [B'; T; C] →
  Z.of_nat T ≤ block_size hp ∨ T = 0%nat →
  (b < B)%nat → (b < B')%nat →
  Block_forward G bernoulli_ hp blk false x g = Some (y, g1) →
  Block_forward G bernoulli_ hp blk false x' g' = Some (y', g1') →
  (∀ h, LayerNorm_forward (ln1 blk) x = Some h →
     ∀ t, (t ≤ i)%nat → row_regular hp (sa blk) h T C b t) →
  (∀ h, LayerNorm_forward (ln1 blk) x' = Some h →
     ∀ t, (t ≤ i)%nat → row_regular hp (sa blk) h T C b t) →
  rows_agree b i T C x x' → rows_agree b i T C y y'.
Proof.
  intros Hblk Hs Hs' HT Hb Hb' E1 E2 Hreg Hreg' Hx.
  destruct (Block_forward_inv G bernoulli_ hp blk false x y g g1 B T C Hblk Hs E1)
    as (Hacc & _).
  assert (T = Z.to_nat (block_size hp) ∨ T = 0%nat) as HT'.
  { apply mha_accepts_window in Hacc. lia. }
  destruct Hblk as [θ Hinit].
  apply Block_init_inv in Hinit as (Hsa & Hff & Hl1 & Hl2).
  revert E1 E2. unfold Block_forward.
  destruct (LayerNorm_forward (ln1 blk) x) as [h|] eqn:Eh; [|done].
  destruct (LayerNorm_forward (ln1 blk) x') as [h'|] eqn:Eh'; [|done].
  cbn [mbind option_bind].
  destruct (LayerNorm_forward_inv3 _ _ _ B T C Hs Eh) as (HC & Hhs).
  destruct (LayerNorm_forward_inv3 _ _ _ B' T C Hs' Eh') as (_ & Hhs').
  destruct (MultiHeadAttention_forward G bernoulli_ hp (sa blk) false h g)
    as [[a ga]|] eqn:Ea; [|done].
  destruct (MultiHeadAttention_forward G bernoulli_ hp (sa blk) false h' g')
    as [[a' ga']|] eqn:Ea'; [|done].
  cbn [mbind option_bind].
  destruct (mha_forward_inv G bernoulli_ hp _ _ false h a g ga B T C Hsa Hhs Ea)
    as (_ & Has).
  destruct (mha_forward_inv G bernoulli_ hp _ _ false h' a' g' ga' B' T C Hsa Hhs' Ea')
    as (_ & Has').
  destruct (add x a) as [x1|] eqn:Ex1; [|done].
  destruct (add x' a') as [x1'|] eqn:Ex1'; [|done].
  cbn [mbind option_bind].
  pose proof (add_same_shape _ _ _ _ Hs Has Ex1) as Hx1.
  pose proof (add_same_shape _ _ _ _ Hs' Has' Ex1') as Hx1'.
  destruct (LayerNorm_forward (ln2 blk) x1) as [h2|] eqn:Eh2; [|done].
  destruct (LayerNorm_forward (ln2 blk) x1') as [h2'|] eqn:Eh2'; [|done].
  cbn [mbind option_bind].
  destruct (LayerNorm_forward_inv3 _ _ _ B T C Hx1 Eh2) as (_ & Hh2s).
  destruct (LayerNorm_forward_inv3 _ _ _ B' T C Hx1' Eh2') as (_ & Hh2s').
  destruct (FeedForward_forward G bernoulli_ (ffwd blk) false h2 ga)
    as [[f gf]|] eqn:Ef; [|done].
  destruct (FeedForward_forward G bernoulli_ (ffwd blk) false h2' ga')
    as [[f' gf']|] eqn:Ef'; [|done].
  cbn [mbind option_bind].
  pose proof (FeedForward_forward_inv G bernoulli_ hp _ _ false h2 f ga gf B T C Hff Hh2s Ef) as Hfs.
  pose proof (FeedForward_forward_inv G bernoulli_ hp _ _ false h2' f' ga' gf' B' T C Hff Hh2s' Ef')
    as Hfs'.
  rewrite <- Hl1, <- HC in Hfs, Hfs'.
  destruct (add x1 f) as [x2|] eqn:Ex2; [|done].
  destruct (add x1' f') as [x2'|] eqn:Ex2'; [|done].
  cbn [mbind option_bind].
  intros E1 E2. apply (inj Some) in E1. apply (inj Some) in E2.
  injection E1 as <- _. injection E2 as <- _.
  assert (rows_agree b i T C x1 x1') as Hx1a.
  { eapply (add_agree x a x' a'); [exact Hs|exact Has|exact Hs'|exact Has'|done..| |].
    - done.
    - eapply (mha_agree _ (sa blk) h h');
        [exact Hsa|exact Hhs|exact Hhs'|done|done|done|done|done| | |].
      + by apply Hreg.
      + by apply Hreg'.
      + by eapply (LayerNorm_agree (ln1 blk) x x'). }
  eapply (add_agree x1 f x1' f'); [exact Hx1|exact Hfs|exact Hx1'|exact Hfs'|done..| |].
  - done.
  - eapply (ffwd_agree _ (ffwd blk) h2 h2'); [exact Hff|exact Hh2s|exact Hh2s'|done..|].
    by eapply (LayerNorm_agree (ln2 blk) x1 x1').
Qed.

Lemma Sequential_agree (bs : list (Block F)) (x x' y y' : tensor F)
    (g g1 g' g1' : G) B B' T C b i :
  Forall (built_block hp) bs →
  shape x = [B; T; C] → shape x' = [B'; T; C] →
  Z.of_nat T ≤ block_size hp ∨ T = 0%nat →
  (b < B)%nat → (b < B')%nat →
  Sequential_forward G bernoulli_ hp bs false x g = Some (y, g1) →
  Sequential_forward G bernoulli_ hp bs false x' g' = Some (y', g1') →
  blocks_regular G bernoulli_ hp bs x T C b i →
  blocks_regular G bernoulli_ hp bs x' T C b i →
  rows_agree b i T C x x' → rows_agree b i T C y y'.
Proof.
  intros Hall. revert x x' g g'.
  induction Hall as [|blk bs Hblk Hbs IH]; intros x x' g g' Hs Hs' HT Hb Hb';
    cbn [Sequential_forward blocks_regular].
  - intros E1 E2 _ _. apply (inj Some) in E1. apply (inj Some) in E2.
    injection E1 as <- _. injection E2 as <- _. done.
  - destruct (Block_forward G bernoulli_ hp blk false x g) as [[x1 ga]|] eqn:Eb;
      [|done].
    destruct (Block_forward G bernoulli_ hp blk false x' g') as [[x1' ga']|] eqn:Eb';
      [|done].
    cbn [mbind option_bind]. intros E1 E2 [Hreg Hrest] [Hreg' Hrest'] Hx.
    destruct (Block_forward_inv G bernoulli_ hp blk false x x1 g ga B T C Hblk Hs Eb)
      as (_ & Hx1).
    destruct (Block_forward_inv G bernoulli_ hp blk false x' x1' g' ga' B' T C Hblk Hs' Eb')
      as (_ & Hx1').
    eapply (IH x1 x1');
      [exact Hx1|exact Hx1'|done|done|done|exact E1|exact E2| | |].
    + by eapply Hrest.
    + by eapply Hrest'.
    + by eapply (Block_agree blk x x').
Qed.
End Prefix.

Section PrefixModel.
Context `{Scalar F} `{ScalarKinds F} `{!ScalarLaws F}.
Variable G : Type.
Variable bernoulli_ : Q → list nat → G → (list nat → bool) * G.
Variable hp : Hyper.
Variable text : pystr.

Lemma add_suffix_val (a p z : tensor F) B T C b t c :
  shape a = [B; T; C] → shape p = [T; C] → add a p = Some z →
  (b < B)%nat → (t < T)%nat → (c < C)%nat →
  val z [b; t; c] = fadd (val a [b; t; c]) (val p [t; c]).
Proof.
  intros Ha Hp. unfold add. rewrite Ha, Hp, broadcast_suffix3.
  cbn [mbind option_bind]. intros Heq Hb Ht Hc. apply (inj Some) in Heq.
  subst z. cbn [val].
  rewrite (bcast_index_id [B; T; C] [b; t; c]) by (repeat constructor; lia).
  f_equal. unfold bcast_index. cbn [length Nat.sub drop zip_with].
  repeat case_decide; repeat f_equal; lia.
Qed.

Lemma embedded_agree (m : BigramLanguageModel F) idx idx' r r' (x x' : tensor F)
    tok tok' pos B B' T (b i : nat) :
  shape2 idx = Some (B, T) → shape2 idx' = Some (B', T) →
  idx !! b = Some r → idx' !! b = Some r' →
  take (S i) r = take (S i) r' →
  Embedding_forward2 (token_embedding_table m) idx = Some tok →
  Embedding_forward2 (token_embedding_table m) idx' = Some tok' →
  Embedding_forward1 (position_embedding_table m) (arange T) = Some pos →
  embedding_dim (position_embedding_table m)
    = embedding_dim (token_embedding_table m) →
  add tok pos = Some x → add tok' pos = Some x' →
  rows_agree b i T (embedding_dim (token_embedding_table m)) x x'.
Proof.
  intros Es Es' Hr Hr' Htake Et Et' Ep Hdim Ex Ex'.
  destruct (Embedding_forward2_inv _ _ _ Et) as (B1 & T1 & Es1 & _ & Htok).
  rewrite Es in Es1. injection Es1 as <- <-.
  destruct (Embedding_forward2_inv _ _ _ Et') as (B1 & T1 & Es1 & _ & Htok').
  rewrite Es' in Es1. injection Es1 as <- <-.
  destruct (Embedding_forward1_arange _ _ _ Ep) as (_ & Hpos).
  rewrite Hdim in Hpos.
  apply shape2_Some_inv in Es as [HB _]. apply shape2_Some_inv in Es' as [HB' _].
  pose proof (lookup_lt_Some _ _ _ Hr) as Hb.
  pose proof (lookup_lt_Some _ _ _ Hr') as Hb'.
  intros t c Hti HtT Hc.
  rewrite (add_suffix_val tok pos x _ _ _ b t c Htok Hpos Ex) by lia.
  rewrite (add_suffix_val tok' pos x' _ _ _ b t c Htok' Hpos Ex') by lia.
  f_equal. revert Et Et'. unfold Embedding_forward2.
  destruct (shape2 idx) as [[? ?]|]; [|done].
  destruct (shape2 idx') as [[? ?]|]; [|done].
  cbn [mbind option_bind]. repeat case_decide; try done.
  intros Et Et'. apply (inj Some) in Et. apply (inj Some) in Et'.
  subst tok tok'. cbn [val].
  rewrite (list_lookup_total_correct idx b r Hr).
  rewrite (list_lookup_total_correct idx' b r' Hr').
  assert (r !! t = r' !! t) as Hrt.
  { rewrite <- (lookup_take_lt r (S i) t) by lia.
    rewrite <- (lookup_take_lt r' (S i) t) by lia. by rewrite Htake. }
  rewrite !list_lookup_total_alt, Hrt. done.
Qed.

(** X10. The logits of a row at a position are a function of that row's
    tokens up to that position: two batches whose rows [b] agree on the
    first [i + 1] tokens get, in evaluation mode, the same logits in row [b]
    at every position up to [i], whatever the later tokens and the other
    rows are, when both runs meet regular rows only (positive softmax
    denominators, finite values at the later positions) at the attention of
    every block. *)
Theorem logits_depend_on_prefix θ (m : BigramLanguageModel F) idx idx'
    (r r' : list Z) (b i : nat) (g g' g1 g1' : G) (lg lg' : tensor F) l l' :
  BigramLanguageModel_init hp text θ = Some m →
  idx !! b = Some r → idx' !! b = Some r' → length r = length r' →
  take (S i) r = take (S i) r' →
  forward_regular G bernoulli_ hp m idx b i →
  forward_regular G bernoulli_ hp m idx' b i →
  BigramLanguageModel_forward G bernoulli_ hp m false idx None g
    = Some (lg, l, g1) →
  BigramLanguageModel_forward G bernoulli_ hp m false idx' None g'
    = Some (lg', l', g1') →
  ∀ t v, (t ≤ i)%nat → (t < length r)%nat →
    val lg [b; t; v] = val lg' [b; t; v].
Proof.
  intros Hm Hr Hr' Hlen Htake Hreg Hreg' E1 E2.
  destruct (forward_None_inv G bernoulli_ hp text θ m false idx lg l g g1 Hm E1)
    as (B & T & Es & _ & HT & _).
  destruct (forward_None_inv G bernoulli_ hp text θ m false idx' lg' l' g' g1' Hm E2)
    as (B' & T' & Es' & _ & _).
  destruct (shape2_Some_inv _ _ _ Es) as [HB Hrows].
  destruct (shape2_Some_inv _ _ _ Es') as [HB' Hrows'].
  pose proof (lookup_lt_Some _ _ _ Hr) as Hb.
  pose proof (lookup_lt_Some _ _ _ Hr') as Hb'.
  assert (length r = T) as HrT by (by eapply Forall_lookup_1 in Hrows).
  assert (length r' = T') as HrT' by (by eapply Forall_lookup_1 in Hrows').
  assert (T' = T) as -> by lia. rewrite HrT. clear Hlen.
  apply model_init_inv in Hm
    as (He & Hbs & Htn & Htd & Hpn & Hpd & Hblocks & _ & Hln & Hhi & Hho).
  revert E1 E2. unfold BigramLanguageModel_forward. rewrite Es, Es'.
  cbn [mbind option_bind].
  destruct (Embedding_forward2 (token_embedding_table m) idx) as [tok|] eqn:Et;
    [|done].
  destruct (Embedding_forward2 (token_embedding_table m) idx') as [tok'|] eqn:Et';
    [|done].
  cbn [mbind option_bind].
  destruct (Embedding_forward1 (position_embedding_table m) (arange T))
    as [pos|] eqn:Ep; [|done].
  cbn [mbind option_bind].
  destruct (Embedding_forward2_inv _ _ _ Et) as (B1 & T1 & Es1 & _ & Htok).
  rewrite Es in Es1. injection Es1 as <- <-.
  destruct (Embedding_forward2_inv _ _ _ Et') as (B1 & T1 & Es1 & _ & Htok').
  rewrite Es' in Es1. injection Es1 as <- <-.
  destruct (Embedding_forward1_arange _ _ _ Ep) as (_ & Hpos).
  destruct (add tok pos) as [x|] eqn:Ex; [|done].
  destruct (add tok' pos) as [x'|] eqn:Ex'; [|done].
  cbn [mbind option_bind].
  pose proof (embedded_agree m idx idx' r r' x x' tok tok' pos B B' T b i
                Es Es' Hr Hr' Htake Et Et' Ep ltac:(congruence) Ex Ex') as Hx.
  specialize (Hreg B T tok pos x Es Et Ep Ex).
  specialize (Hreg' B' T tok' pos x' Es' Et' Ep Ex').
  rewrite Htd in Htok, Htok', Hx, Hreg, Hreg'. rewrite Hpd in Hpos.
  pose proof (add_suffix3 _ _ _ _ _ _ Htok Hpos Ex) as Hxs.
  pose proof (add_suffix3 _ _ _ _ _ _ Htok' Hpos Ex') as Hxs'.
  destruct (Sequential_forward G bernoulli_ hp (blocks m) false x g)
    as [[x1 ga]|] eqn:Eb; [|done].
  destruct (Sequential_forward G bernoulli_ hp (blocks m) false x' g')
    as [[x1' ga']|] eqn:Eb'; [|done].
  cbn [mbind option_bind].
  destruct (Sequential_forward_inv G bernoulli_ hp _ false x x1 g ga _ _ _
              Hblocks Hxs Eb) as (Hx1 & _).
  destruct (Sequential_forward_inv G bernoulli_ hp _ false x' x1' g' ga' _ _ _
              Hblocks Hxs' Eb') as (Hx1' & _).
  pose proof (Sequential_agree G bernoulli_ hp (blocks m) x x' x1 x1' g ga g' ga'
                B B' T _ b i Hblocks Hxs Hxs' HT ltac:(lia) ltac:(lia) Eb Eb'
                Hreg Hreg' Hx)
    as Hx1a.
  destruct (LayerNorm_forward (ln_f m) x1) as [x2|] eqn:El; [|done].
  destruct (LayerNorm_forward (ln_f m) x1') as [x2'|] eqn:El'; [|done].
  cbn [mbind option_bind].
  destruct (LayerNorm_forward_inv3 _ _ _ _ _ _ Hx1 El) as (_ & Hx2).
  destruct (LayerNorm_forward_inv3 _ _ _ _ _ _ Hx1' El') as (_ & Hx2').
  pose proof (LayerNorm_agree (ln_f m) x1 x1' x2 x2' B B' T _ b i
                Hx1 Hx1' El El' Hx1a) as Hx2a.
  destruct (Linear_forward (lm_head m) x2) as [logits|] eqn:Eh; [|done].
  destruct (Linear_forward (lm_head m) x2') as [logits'|] eqn:Eh'; [|done].
  cbn [mbind option_bind].
  intros E1 E2. apply (inj Some) in E1. apply (inj Some) in E2.
  injection E1 as <- _ _. injection E2 as <- _ _.
  intros t v Hti HtT.
  apply (Linear_agree (lm_head m) x2 x2' logits logits' B B' T _ (S v) b i
           Hx2 Hx2' Eh Eh' Hx2a); lia.
Qed.
End PrefixModel.

Lemma triple_inj {A B C} (a a' : A) (b b' : B) (c c' : C) :
  (a, b, c) = (a', b', c') → a = a' ∧ b = b' ∧ c = c'.
Proof. intros E. injection E as -> -> ->. done. Qed.

(** The one-block model on the rationals with special values meets regular
    rows only on the batches [[0; 0]] and [[0; 1]]: the softmax denominator
    of the first position is a positive number and the value vectors of the
    second position are numbers. *)
Lemma float_forward_regular (m : BigramLanguageModel xfloat) (j : Z) :
  BigramLanguageModel_init toy_hyper toy_text float_params = Some m →
  j = 0 ∨ j = 1 →
  forward_regular nat toy_bernoulli toy_hyper m [[0; j]] 0 0.
Proof.
  intros Hm Hj. apply (inj Some) in Hm. subst m.
  intros B T tok pos x Es Et Ep Ex.
  destruct Hj as [-> | ->].
  all: apply (inj Some) in Es;
    pose proof (f_equal fst Es) as EB; pose proof (f_equal snd Es) as ET;
    cbv in EB, ET; subst B T; clear Es.
  all: apply (inj Some) in Et; subst tok.
  all: apply (inj Some) in Ep; subst pos.
  all: apply (inj Some) in Ex; subst x.
  all: split; [|done].
  all: intros h Eh t Ht q k v E hd d Hh Hd.
  all: assert (t = 0%nat) as -> by lia.
  all: assert (hd = 0%nat) as -> by (simpl in Hh; lia).
  all: apply (inj Some) in Eh; subst h.
  all: apply (inj Some) in E; apply triple_inj in E; destruct E as (<- & <- & <-).
  all: split; [vm_compute; reflexivity|].
  all: intros j' Hj1 Hj2; assert (j' = 1%nat) as -> by lia.
  all: destruct d as [|[|d]]; [| |simpl in Hd; lia]; vm_compute; exact I.
Qed.

Lemma logits_depend_on_prefix_witness :
  ∃ m lg lg',
    BigramLanguageModel_init toy_hyper toy_text float_params = Some m ∧
    BigramLanguageModel_forward nat toy_bernoulli toy_hyper m false [[0; 1]]
      None 0%nat = Some (lg, None, 0%nat) ∧
    BigramLanguageModel_forward nat toy_bernoulli toy_hyper m false [[0; 0]]
      None 0%nat = Some (lg', None, 0%nat) ∧
    ∀ v, val lg [0; 0; v]%nat = val lg' [0; 0; v]%nat.
Proof.
  eexists.
  eassert (BigramLanguageModel_init toy_hyper toy_text float_params = Some _) as Hm
    by reflexivity.
  assert (∀ j, 0 ≤ j < 2 → Forall (Forall (in_vocab toy_text)) [[0; j]]) as Hids.
  { intros j Hj. apply Forall_singleton.
    apply Forall_cons_2; [apply toy_in_vocab; lia|].
    apply Forall_singleton. by apply toy_in_vocab. }
  destruct (forward_None_Some nat toy_bernoulli toy_hyper toy_text float_params _
              false [[0; 1]] 0%nat 1 2 Hm eq_refl (Hids 1 ltac:(lia))
              ltac:(simpl; lia) (hyper_ok_accepts toy_hyper 1 toy_hyper_ok))
    as (lg & g1 & E & _).
  destruct (forward_None_Some nat toy_bernoulli toy_hyper toy_text float_params _
              false [[0; 0]] 0%nat 1 2 Hm eq_refl (Hids 0 ltac:(lia))
              ltac:(simpl; lia) (hyper_ok_accepts toy_hyper 1 toy_hyper_ok))
    as (lg' & g1' & E' & _).
  destruct (forward_eval_gen nat toy_bernoulli toy_hyper nat toy_bernoulli
              _ _ _ _ _ _ _ 0%nat E) as [-> _].
  destruct (forward_eval_gen nat toy_bernoulli toy_hyper nat toy_bernoulli
              _ _ _ _ _ _ _ 0%nat E') as [-> _].
  exists lg, lg'. split; [exact Hm|]. split; [exact E|]. split; [exact E'|].
  intros v.
  apply (logits_depend_on_prefix nat toy_bernoulli toy_hyper toy_text float_params
           _ [[0; 1]] [[0; 0]] [0; 1] [0; 0] 0%nat 0%nat 0%nat 0%nat 0%nat 0%nat
           lg lg' None None Hm eq_refl eq_refl eq_refl eq_refl
           (float_forward_regular _ 1 Hm (or_intror eq_refl))
           (float_forward_regular _ 0 Hm (or_introl eq_refl))
           E E' 0%nat v);
    simpl; lia.
Defined.

(** ** What the forward pass accepts *)

Lemma mha_accepts_iff hp B T C :
  hyper_ok hp →
  mha_accepts hp B T C ↔
    Z.of_nat C = n_embed hp ∧
    (T = Z.to_nat (block_size hp) ∨ block_size hp = 1).
Proof.
  intros Hok. split.
  - intros Hacc. pose proof (mha_accepts_window hp B T C Hacc) as HT.
    destruct Hacc as (nh & He & _). destruct Hok as (_ & _ & _ & Hbs & _).
    split; [lia|]. lia.
  - intros [HC HT]. destruct Hok as (He & Hnh & Hmod & Hbs & _).
    exists (Z.to_nat (n_head hp)).
    apply Z.mod_divide in Hmod as [k Hk]; [|lia].
    assert (0 < k) by nia.
    assert (C = Z.to_nat (n_embed hp)) as -> by lia.
    assert (Z.to_nat (n_embed hp) / Z.to_nat (n_head hp) = Z.to_nat k)%nat as Hq.
    { rewrite Hk, Z2Nat.inj_mul by lia. apply Nat.div_mul. lia. }
    assert (Z.to_nat (n_head hp) * Z.to_nat k = Z.to_nat (n_embed hp))%nat
      as Hprod by (rewrite Hk, Z2Nat.inj_mul by lia; lia).
    rewrite Hq. repeat split; try lia.
    unfold broadcast_dim. repeat case_decide; try done; f_equal; lia.
Qed.

Section Acceptance.
Context `{Scalar F}.
Variable G : Type.
Variable bernoulli_ : Q → list nat → G → (list nat → bool) * G.
Variable hp : Hyper.
Variable text : pystr.

(** X6. A residual block, in either mode, runs exactly on inputs of the
    embedding dimension that fill the window (or on any length when the
    window is one token, whose mask broadcasts), and returns the shape it
    was given. *)
Theorem block_runs_on_full_windows (blk : Block F) tr (x : tensor F) (g : G)
    (B T C : nat) :
  hyper_ok hp → built_block hp blk → shape x = [B; T; C] →
  (is_Some (Block_forward G bernoulli_ hp blk tr x g) ↔
     Z.of_nat C = n_embed hp ∧
     (T = Z.to_nat (block_size hp) ∨ block_size hp = 1)) ∧
  (∀ y g', Block_forward G bernoulli_ hp blk tr x g = Some (y, g') →
     shape y = shape x).
Proof.
  intros Hok Hblk Hs. split; [split|].
  - intros [[y g'] E].
    destruct (Block_forward_inv G bernoulli_ hp blk tr x y g g' B T C Hblk Hs E)
      as (Hacc & _).
    by apply mha_accepts_iff in Hacc.
  - intros Hacc. apply (mha_accepts_iff hp B T C Hok) in Hacc.
    destruct (Block_forward_Some G bernoulli_ hp blk tr x g B T C Hblk Hs Hacc)
      as (y & g' & E & _).
    by rewrite E.
  - intros y g' E.
    destruct (Block_forward_inv G bernoulli_ hp blk tr x y g g' B T C Hblk Hs E)
      as (_ & Hy).
    by rewrite Hy, Hs.
Qed.

(** X7. With at least one layer and a window of more than one token, on a
    batch with at least one row (a batch without rows is not considered:
    the list of rows does not record its number of columns), the model's
    forward pass without targets returns if and only if every row holds
    [block_size] ids of the vocabulary; a shorter or a longer row, or an id
    outside the vocabulary, raises.  The logits then have shape
    (B, block_size, vocab_size). *)
Theorem forward_runs_on_full_windows θ (m : BigramLanguageModel F) tr idx (g : G) :
  hyper_ok hp → BigramLanguageModel_init hp text θ = Some m →
  0 < n_layer hp → block_size hp ≠ 1 → idx ≠ [] →
  (is_Some (BigramLanguageModel_forward G bernoulli_ hp m tr idx None g) ↔
     Forall (λ r, Z.of_nat (length r) = block_size hp) idx ∧
     Forall (Forall (in_vocab text)) idx) ∧
  (∀ lg loss g',
     BigramLanguageModel_forward G bernoulli_ hp m tr idx None g
       = Some (lg, loss, g') →
     shape lg = [length idx; Z.to_nat (block_size hp);
                 Z.to_nat (vocab_size text)]).
Proof.
  intros Hok Hm Hlayers Hbs1 Hne.
  pose proof Hok as (_ & _ & _ & Hbs & _).
  assert (blocks m ≠ []) as Hblocks.
  { destruct (model_init_inv hp text θ m Hm)
      as (_ & _ & _ & _ & _ & _ & _ & Hlen & _).
    intros Hnil. rewrite Hnil in Hlen. simpl in Hlen. lia. }
  assert (∀ lg loss g',
     BigramLanguageModel_forward G bernoulli_ hp m tr idx None g
       = Some (lg, loss, g') →
     ∃ B, shape2 idx = Some (B, Z.to_nat (block_size hp)) ∧
       Forall (Forall (in_vocab text)) idx ∧
       shape lg = [B; Z.to_nat (block_size hp); Z.to_nat (vocab_size text)])
    as Hinv.
  { intros lg loss g' E.
    destruct (forward_None_inv G bernoulli_ hp text θ m tr idx lg loss g g' Hm E)
      as (B & T & Es & Hids & _ & Hacc & Hlg & _).
    specialize (Hacc Hblocks). apply mha_accepts_window in Hacc.
    assert (T = Z.to_nat (block_size hp)) as -> by lia. by exists B. }
  split; [split|].
  - intros [[[lg loss] g'] E].
    destruct (Hinv lg loss g' E) as (B & Es & Hids & _).
    destruct (shape2_Some_inv _ _ _ Es) as [HB Hrows].
    split; [|done].
    eapply Forall_impl; [exact Hrows|]. intros r Hr. cbv beta in Hr. lia.
  - intros (Hrows & Hids).
    assert (shape2 idx = Some (length idx, Z.to_nat (block_size hp))) as Es.
    { apply shape2_rect; [done|]. eapply Forall_impl; [exact Hrows|].
      intros r Hr. cbv beta in Hr. lia. }
    destruct (forward_None_Some G bernoulli_ hp text θ m tr idx g _ _ Hm Es Hids
                ltac:(lia) (hyper_ok_accepts hp _ Hok)) as (lg & g' & E & _).
    by rewrite E.
  - intros lg loss g' E. destruct (Hinv lg loss g' E) as (B & Es & _ & Hlg).
    destruct (shape2_Some_inv _ _ _ Es) as [HB _]. by rewrite HB.
Qed.

(** X8. The targets of a forward pass are checked by count and by range only:
    the call returns only if they are as many as the logits' rows and each
    is an id of the vocabulary or the ignored index -100, and it returns the
    same for any other rectangular arrangement of the same targets. *)
Theorem forward_checks_targets θ (m : BigramLanguageModel F) tr idx targets
    (g g' : G) (lg : tensor F) loss :
  BigramLanguageModel_init hp text θ = Some m →
  BigramLanguageModel_forward G bernoulli_ hp m tr idx (Some targets) g
    = Some (lg, loss, g') →
  (∃ B T, shape2 idx = Some (B, T) ∧
     length (concat targets) = (B * T)%nat) ∧
  Forall (Forall (λ t, t = -100 ∨ in_vocab text t)) targets ∧
  (∀ targets2 B2 T2,
     shape2 targets2 = Some (B2, T2) → concat targets2 = concat targets →
     BigramLanguageModel_forward G bernoulli_ hp m tr idx (Some targets2) g
       = Some (lg, loss, g')).
Proof.
  intros Hm. rewrite forward_targets.
  destruct (BigramLanguageModel_forward G bernoulli_ hp m tr idx None g)
    as [[[logits l0] g0]|] eqn:E0; [|done].
  cbn [mbind option_bind].
  destruct (forward_None_inv G bernoulli_ hp text θ m tr idx logits l0 g g0 Hm E0)
    as (B & T & Es & _ & _ & _ & Hlg & _).
  rewrite Hlg.
  destruct (view [Z.of_nat (B * T); Z.of_nat (Z.to_nat (vocab_size text))] logits)
    as [l2|] eqn:Ev; [|done].
  cbn [mbind option_bind].
  destruct (view_rows_inv _ _ _ _ _ Hlg Ev) as (Hl2 & _).
  destruct (view_flat (B * T) targets) as [t2|] eqn:Et; [|done].
  cbn [mbind option_bind].
  destruct (view_flat_inv _ _ _ Et) as (-> & Hcount).
  destruct (cross_entropy l2 (concat targets)) as [l|] eqn:Ec; [|done].
  cbn [mbind option_bind]. intros Heq.
  split; [by exists B, T|]. split.
  - revert Ec. unfold cross_entropy. rewrite Hl2. case_decide as Hd; [|done].
    intros _. destruct Hd as [_ Hall]. apply Forall_concat in Hall.
    eapply Forall_impl; [exact Hall|]. intros r Hr.
    eapply Forall_impl; [exact Hr|]. intros t [?|Hrange]; [by left|].
    right. by apply in_vocab_nat.
  - intros targets2 B2 T2 Es2 Hcat. rewrite forward_targets, E0.
    cbn [mbind option_bind]. rewrite Hlg, Ev. cbn [mbind option_bind].
    assert (view_flat (B * T) targets2 = Some (concat targets)) as ->.
    { unfold view_flat. rewrite Es2. cbn [mbind option_bind].
      destruct (shape2_Some_inv _ _ _ Es2) as [HB2 Hrows2].
      pose proof (length_concat_rect targets2 T2 Hrows2) as Hlen.
      rewrite Hcat, Hcount, HB2 in Hlen.
      rewrite decide_True by lia. by rewrite Hcat. }
    cbn [mbind option_bind]. rewrite Ec. done.
Qed.
End Acceptance.

(** ** Generation only appends *)

Section Appends.
Context `{Scalar F}.
Variable G : Type.
Variable bernoulli_ : Q → list nat → G → (list nat → bool) * G.
Variable categorical_ : list F → G → nat * G.
Variable weights_ok_ : list F → bool.
Variable hp : Hyper.

Lemma multinomial_rows_singletons (probs : tensor F) V b n (g : G) :
  length (multinomial_rows G categorical_ probs V b n g).1 = n ∧
  Forall (λ r, ∃ i, r = [i] ∧ 0 ≤ i)
         (multinomial_rows G categorical_ probs V b n g).1.
Proof.
  revert b g. induction n as [|n IH]; intros b g; cbn [multinomial_rows].
  - split; [done|constructor].
  - destruct (categorical_ _ g) as [i g1].
    specialize (IH (S b) g1).
    destruct (multinomial_rows G categorical_ probs V (S b) n g1) as [rows g2].
    cbn [fst] in *. destruct IH as [IH1 IH2]. split; [simpl; lia|].
    constructor; [|done]. exists (Z.of_nat i). split; [done|lia].
Qed.

Lemma generate_step_inv (m : BigramLanguageModel F) tr idx idx' (g g' : G) :
  generate_step G bernoulli_ categorical_ weights_ok_ hp m tr idx g = Some (idx', g') →
  ∃ next, idx' = zip_with app idx next ∧ length next = length idx ∧
    Forall (λ r, ∃ i, r = [i] ∧ 0 ≤ i) next.
Proof.
  unfold generate_step, sample_next.
  destruct (BigramLanguageModel_forward G bernoulli_ hp m tr
              (slice_from (- block_size hp) <$> idx) None g)
    as [[[logits l0] g1]|]; [|done].
  cbn [mbind option_bind].
  destruct (last_step logits) as [lst|]; [|done]. cbn [mbind option_bind].
  destruct (multinomial G categorical_ weights_ok_ (softmax lst) g1) as [[next g2]|] eqn:Em;
    [|done].
  cbn [mbind option_bind]. unfold cat1. case_decide as Hlen; [|done].
  cbn [mbind option_bind]. intros Heq. apply (inj Some) in Heq.
  injection Heq as <- <-. exists next. split; [done|]. split; [done|].
  revert Em. unfold multinomial.
  destruct (shape (softmax lst)) as [|B [|V [|]]]; try done.
  case_decide; [done|].
  destruct (forallb _ (seq 0 B)); [|done].
  intros Heq. apply (inj Some) in Heq.
  pose proof (multinomial_rows_singletons (softmax lst) V 0 B g1) as [_ Hall].
  by rewrite Heq in Hall.
Qed.

Lemma zip_with_app_lengths (next news : list (list Z)) (n : nat) :
  length news = length next →
  Forall (λ r, ∃ i, r = [i] ∧ 0 ≤ i) next →
  Forall (λ new, length new = n ∧ Forall (λ i, 0 ≤ i) new) news →
  Forall (λ new, length new = S n ∧ Forall (λ i, 0 ≤ i) new)
         (zip_with app next news).
Proof.
  intros Hl Hnext. revert news Hl.
  induction Hnext as [|r next (i & -> & Hi) _ IH]; intros news Hl Hnews;
    [constructor|].
  destruct news as [|new news]; [done|].
  apply Forall_cons_1 in Hnews as [[Hnl Hnv] Hnews].
  simpl. constructor.
  - split; [simpl; lia|]. by constructor.
  - apply IH; [|done]. simpl in Hl. lia.
Qed.

Lemma generate_loop_inv (m : BigramLanguageModel F) tr (n : nat) idx out
    (g g' : G) :
  generate_loop G bernoulli_ categorical_ weights_ok_ hp m tr n idx g = Some (out, g') →
  ∃ news, out = zip_with app idx news ∧ length news = length idx ∧
    Forall (λ new, length new = n ∧ Forall (λ i, 0 ≤ i) new) news.
Proof.
  revert idx g. induction n as [|n IH]; intros idx g; cbn [generate_loop].
  - intros Heq. apply (inj Some) in Heq. injection Heq as <- <-.
    exists (replicate (length idx) []). rewrite zip_with_app_nil.
    split; [done|]. split; [by rewrite length_replicate|].
    by apply Forall_replicate.
  - destruct (generate_step G bernoulli_ categorical_ weights_ok_ hp m tr idx g)
      as [[idx1 g1]|] eqn:Es; [|done].
    cbn [mbind option_bind]. intros Eloop.
    destruct (generate_step_inv m tr idx idx1 g g1 Es)
      as (next & -> & Hnl & Hnext).
    destruct (IH _ _ Eloop) as (news & -> & Hl & Hnews).
    rewrite length_zip_with in Hl.
    exists (zip_with app next news). split; [by rewrite zip_with_app_assoc|].
    split; [rewrite length_zip_with; lia|].
    apply zip_with_app_lengths; [lia|done..].
Qed.

(** X12. [generate] only appends: whenever it returns, for any model, mode and
    context, every row of the result is the row it was given followed by
    [max_new_tokens] new non-negative ids, and no row is added or dropped.
    With [max_new_tokens <= 0] it returns the context and the generator
    untouched. *)
Theorem generate_only_appends (m : BigramLanguageModel F) tr idx
    (max_new_tokens : Z) (g : G) :
  (∀ out g',
     generate G bernoulli_ categorical_ weights_ok_ hp m tr idx max_new_tokens g
       = Some (out, g') →
     ∃ news, out = zip_with app idx news ∧ length news = length idx ∧
       Forall (λ new, length new = Z.to_nat max_new_tokens ∧
                      Forall (λ i, 0 ≤ i) new) news) ∧
  (max_new_tokens ≤ 0 →
   generate G bernoulli_ categorical_ weights_ok_ hp m tr idx max_new_tokens g
     = Some (idx, g)).
Proof.
  split.
  - intros out g'. apply generate_loop_inv.
  - intros Hk. unfold generate.
    assert (Z.to_nat max_new_tokens = 0%nat) as -> by lia. done.
Qed.
End Appends.

(** ** Evaluation and sampling *)

Section DriverFacts.
Context `{Scalar F}.
Variable G : Type.
Variable random_ : G → Z * G.
Variable bernoulli_ : Q → list nat → G → (list nat → bool) * G.
Variable categorical_ : list F → G → nat * G.
Variable weights_ok_ : list F → bool.
Variable hp : Hyper.
Variable text : pystr.
Variable corpus : list Z.

Lemma forward_targets_Some θ (m : BigramLanguageModel F) tr idx targets (g : G) B :
  hyper_ok hp → BigramLanguageModel_init hp text θ = Some m →
  shape2 idx = Some (B, Z.to_nat (block_size hp)) →
  Forall (Forall (in_vocab text)) idx →
  shape2 targets = Some (B, Z.to_nat (block_size hp)) →
  Forall (Forall (in_vocab text)) targets →
  ∃ lg l g', BigramLanguageModel_forward G bernoulli_ hp m tr idx (Some targets) g
               = Some (lg, Some l, g').
Proof.
  intros Hok Hm Hs Hids Hts Hvalid.
  destruct (forward_None_Some G bernoulli_ hp text θ m tr idx g B _ Hm Hs Hids)
    as (logits & g' & Ef & Hlg).
  { destruct Hok as (_ & _ & _ & ? & _). lia. }
  { by apply hyper_ok_accepts. }
  rewrite forward_targets, Ef. cbn [mbind option_bind]. rewrite Hlg.
  destruct (view_rows_Some logits _ _ _ Hlg) as [lg' Ev]. rewrite Ev.
  cbn [mbind option_bind].
  destruct (view_rows_inv _ _ _ _ _ Hlg Ev) as (Hlg' & _).
  rewrite (view_flat_Some _ _ _ Hts). cbn [mbind option_bind].
  destruct (cross_entropy_Some lg' (concat targets) _ _ Hlg') as [l Ec].
  { apply shape2_Some_inv in Hts as [<- Hrows].
    by apply length_concat_rect. }
  { apply Forall_concat. eapply Forall_impl; [exact Hvalid|]. intros r Hr.
    eapply Forall_impl; [exact Hr|]. intros i. by rewrite in_vocab_nat. }
  rewrite Ec. cbn [mbind option_bind]. by exists lg', l, g'.
Qed.

Lemma eval_losses_Some θ (m : BigramLanguageModel F) split (n : nat) (g : G) :
  hyper_ok hp → BigramLanguageModel_init hp text θ = Some m →
  Forall (in_vocab text) corpus → 0 < batch_size hp →
  block_size hp < Z.of_nat (length (split_data corpus split)) →
  ∃ batches losses g',
    draw_batches G random_ hp corpus split n g = Some (batches, g') ∧
    eval_losses G random_ bernoulli_ hp corpus m split n g = Some (losses, g') ∧
    length losses = n ∧
    Forall2 (eval_loss_of G bernoulli_ hp m) batches losses.
Proof.
  intros Hok Hm Hcorpus Hbatch Hlen.
  pose proof Hok as (_ & _ & _ & Hbs & _).
  revert g. induction n as [|n IH]; intros g; cbn [eval_losses draw_batches].
  - exists [], [], g. repeat split; constructor.
  - destruct (get_batch_Some G random_ hp corpus split g) as (x & y & -> & Hx & Hy & Hxin & Hyin);
      [lia|done|].
    cbn [mbind option_bind].
    assert (∀ rows, Forall (Forall (λ i, i ∈ corpus)) rows →
                    Forall (Forall (in_vocab text)) rows) as Hvocab.
    { intros rows Hrows. eapply Forall_impl; [exact Hrows|]. intros r Hr.
      eapply Forall_impl; [exact Hr|]. intros i Hi.
      rewrite Forall_forall in Hcorpus. by apply Hcorpus. }
    set (g1 := (randint_draw G random_
                  (Z.of_nat (length (split_data corpus split)) - block_size hp)
                  (Z.to_nat (batch_size hp)) g).2).
    destruct (forward_targets_Some θ m false x y g1 _ Hok Hm Hx (Hvocab _ Hxin)
                Hy (Hvocab _ Hyin)) as (lg & l & g2 & Ef).
    assert (eval_loss_of G bernoulli_ hp m (x, y) l) as Hl.
    { intros g0. exists lg.
      by destruct (forward_eval_gen G bernoulli_ hp G bernoulli_ m x (Some y)
                     lg (Some l) g1 g2 g0 Ef) as [_ ?]. }
    destruct (forward_eval_gen G bernoulli_ hp G bernoulli_ m x (Some y)
                lg (Some l) g1 g2 g1 Ef) as [-> _].
    rewrite Ef. cbn [mbind option_bind].
    destruct (IH g1) as (batches & rest & g3 & -> & -> & Hrest & Hall).
    cbn [mbind option_bind]. exists ((x, y) :: batches), (l :: rest), g3.
    split; [done|]. split; [done|]. split; [simpl; by rewrite Hrest|].
    by constructor.
Qed.

Lemma eval_losses_None (m : BigramLanguageModel F) split (n : nat) (g : G) :
  Z.of_nat (length (split_data corpus split)) ≤ block_size hp →
  eval_losses G random_ bernoulli_ hp corpus m split (S n) g = None.
Proof.
  intros Hlen. cbn [eval_losses]. unfold get_batch, randint.
  rewrite decide_False by lia. done.
Qed.

(** X13. [estimate_loss] on the encoded corpus, for a model built with usable
    hyperparameters.  When both splits are longer than the window it
    returns a dict with exactly the keys ['train'] and ['val']: the value at
    a key is the mean of [eval_iters] losses, the k-th of which is the loss
    the model gives in evaluation mode on the k-th batch drawn from that
    split ([eval_iters] batches of the training split first, then
    [eval_iters] batches of the validation split, from one generator).
    When a split is not longer than the window (a corpus too short for its
    tenth to hold [block_size + 1] ids) and a batch is asked for, it
    raises. *)
Theorem estimate_loss_returns θ (m : BigramLanguageModel F) (eval_iters : Z)
    (g : G) :
  hyper_ok hp → BigramLanguageModel_init hp text θ = Some m →
  encode text text = Some corpus →
  0 < batch_size hp → 0 ≤ eval_iters →
  (block_size hp < Z.of_nat (length (train_of corpus)) →
   block_size hp < Z.of_nat (length (val_of corpus)) →
   ∃ train_batches val_batches train_losses val_losses g1 g',
     draw_batches G random_ hp corpus "train" (Z.to_nat eval_iters) g
       = Some (train_batches, g1) ∧
     draw_batches G random_ hp corpus "val" (Z.to_nat eval_iters) g1
       = Some (val_batches, g') ∧
     estimate_loss G random_ bernoulli_ hp corpus m eval_iters g
       = Some (<["val" := mean val_losses]>
                 (<["train" := mean train_losses]> ∅), g') ∧
     length train_losses = Z.to_nat eval_iters ∧
     length val_losses = Z.to_nat eval_iters ∧
     Forall2 (eval_loss_of G bernoulli_ hp m) train_batches train_losses ∧
     Forall2 (eval_loss_of G bernoulli_ hp m) val_batches val_losses) ∧
  (0 < eval_iters →
   Z.of_nat (length (train_of corpus)) ≤ block_size hp ∨
   Z.of_nat (length (val_of corpus)) ≤ block_size hp →
   estimate_loss G random_ bernoulli_ hp corpus m eval_iters g = None).
Proof.
  intros Hok Hm Henc Hbatch Hiters.
  pose proof (encode_in_vocab text text corpus Henc) as Hcorpus.
  assert (split_data corpus "train" = train_of corpus) as Htr by reflexivity.
  assert (split_data corpus "val" = val_of corpus) as Hva by reflexivity.
  unfold estimate_loss. rewrite decide_False by lia. split.
  - intros Htrain Hval.
    destruct (eval_losses_Some θ m "train" (Z.to_nat eval_iters) g Hok Hm Hcorpus
                Hbatch) as (btr & ltr & g1 & Hbtr & -> & Hltr & Hatr);
      [by rewrite Htr|].
    cbn [mbind option_bind].
    destruct (eval_losses_Some θ m "val" (Z.to_nat eval_iters) g1 Hok Hm Hcorpus
                Hbatch) as (bva & lva & g2 & Hbva & -> & Hlva & Hava);
      [by rewrite Hva|].
    cbn [mbind option_bind]. by exists btr, bva, ltr, lva, g1, g2.
  - intros Hpos Hshort.
    assert (∃ n, Z.to_nat eval_iters = S n) as [n ->].
    { exists (Z.to_nat eval_iters - 1)%nat. lia. }
    destruct (decide (Z.of_nat (length (train_of corpus)) ≤ block_size hp))
      as [Hshort_tr|Hlong].
    + rewrite eval_losses_None by (by rewrite Htr). done.
    + destruct (eval_losses_Some θ m "train" (S n) g Hok Hm Hcorpus Hbatch)
        as (btr & ltr & g1 & _ & -> & _); [rewrite Htr; lia|].
      cbn [mbind option_bind].
      rewrite eval_losses_None by (rewrite Hva; lia). done.
Qed.

Hypothesis Hcat : categorical_in_range G categorical_.

End DriverFacts.

(** ** The single head *)

Section SingleHeadFacts.
Context `{Scalar F}.
Variable G : Type.
Variable bernoulli_ : Q → list nat → G → (list nat → bool) * G.
Variable hp : Hyper.
Variable pow_neg_half_ : nat → F.

Lemma LinearNoBias_forward_3 (l : LinearNoBias F) (x : tensor F) B T C :
  shape x = [B; T; C] →
  if decide (C = nb_in_features l)
  then ∃ y, LinearNoBias_forward l x = Some y ∧
            shape y = [B; T; nb_out_features l]
  else LinearNoBias_forward l x = None.
Proof.
  intros Hs. unfold LinearNoBias_forward. rewrite Hs.
  change (reverse [B; T; C]) with [C; T; B]. lazy iota beta.
  case_decide; [|done]. eexists. split; [done|]. done.
Qed.

Lemma matmul_3 (a b : tensor F) s0 n m m' p :
  shape a = [s0; n; m] → shape b = [s0; m'; p] →
  if decide (m = m')
  then ∃ z, matmul a b = Some z ∧ shape z = [s0; n; p]
  else matmul a b = None.
Proof.
  intros Ha Hb. unfold matmul. rewrite Ha, Hb.
  change (reverse [s0; n; m]) with [m; n; s0].
  change (reverse [s0; m'; p]) with [p; m'; s0]. lazy iota beta.
  case_decide; [|done].
  change (reverse [s0]) with [s0]. rewrite broadcast_refl.
  cbn [mbind option_bind]. eexists. split; [done|]. done.
Qed.

Lemma broadcast_mask3 (B T bs : nat) :
  broadcast [B; T; T] [bs; bs] = (λ d, [B; d; d]) <$> broadcast_dim T bs.
Proof.
  unfold broadcast.
  change (reverse [B; T; T]) with [T; T; B].
  change (reverse [bs; bs]) with [bs; bs]. cbn [broadcast_rev].
  destruct (broadcast_dim T bs) as [d|]; done.
Qed.

Lemma Head_init_inv (head_size : Z) θ (m : Head F) :
  Head_init hp head_size θ = Some m →
  0 ≤ head_size ∧ 0 ≤ n_embed hp ∧ 0 ≤ block_size hp ∧
  nb_in_features (key m) = Z.to_nat (n_embed hp) ∧
  nb_in_features (query m) = Z.to_nat (n_embed hp) ∧
  nb_in_features (value m) = Z.to_nat (n_embed hp) ∧
  nb_out_features (key m) = Z.to_nat head_size ∧
  nb_out_features (query m) = Z.to_nat head_size ∧
  nb_out_features (value m) = Z.to_nat head_size ∧
  shape (head_tril m) = [Z.to_nat (block_size hp); Z.to_nat (block_size hp)].
Proof.
  unfold Head_init, nn_LinearNoBias. case_decide as Hd; [|done].
  cbn [mbind option_bind].
  destruct (ones [block_size hp; block_size hp] ≫= tril_of) as [t|] eqn:Et; [|done].
  cbn [mbind option_bind].
  destruct (nn_Dropout (dropout hp)) as [d|]; [|done].
  cbn [mbind option_bind]. intros Heq. apply (inj Some) in Heq. subst m.
  apply tril_ones in Et as (? & ? & _). cbn. repeat split; try done; lia.
Qed.

(** X16. The single-head layer has the mask of the multi-head one: built for
    [n_embed] features, it runs, in either mode, exactly on inputs of
    [n_embed > 0] features whose length is the window (or any length when
    the window is one token), and returns shape (B, T, head_size).  An
    input shorter than the window raises. *)
Theorem head_runs_on_full_windows (head_size : Z) θ (m : Head F) tr
    (x : tensor F) (g : G) (B T C : nat) :
  Head_init hp head_size θ = Some m → shape x = [B; T; C] →
  (is_Some (Head_forward G bernoulli_ pow_neg_half_ m tr x g) ↔
     Z.of_nat C = n_embed hp ∧ (0 < C)%nat ∧
     (T = Z.to_nat (block_size hp) ∨ block_size hp = 1)) ∧
  (∀ out g', Head_forward G bernoulli_ pow_neg_half_ m tr x g = Some (out, g') →
     shape out = [B; T; Z.to_nat head_size]).
Proof.
  intros Hm Hs.
  destruct (Head_init_inv head_size θ m Hm)
    as (Hhs & He & Hbs & Hki & Hqi & Hvi & Hko & Hqo & Hvo & Htril).
  unfold Head_forward. rewrite Hs.
  pose proof (LinearNoBias_forward_3 (key m) x B T C Hs) as Hk.
  pose proof (LinearNoBias_forward_3 (query m) x B T C Hs) as Hq.
  pose proof (LinearNoBias_forward_3 (value m) x B T C Hs) as Hv.
  rewrite Hki in Hk. rewrite Hqi in Hq. rewrite Hvi in Hv.
  destruct (decide (C = Z.to_nat (n_embed hp))) as [HC|HC].
  2:{ rewrite Hk. cbn [mbind option_bind]. split; [|done].
      split; [by intros [? ?]|]. intros (? & ? & _). lia. }
  destruct Hk as (k & -> & Hks). destruct Hq as (q & -> & Hqs).
  destruct Hv as (v & Ev & Hvs).
  rewrite Hko in Hks. rewrite Hqo in Hqs. rewrite Hvo in Hvs.
  cbn [mbind option_bind].
  assert (transpose (-2) (-1) k
          = Some (Tensor [B; Z.to_nat head_size; T]
                    (λ idx, val k (swap_at 1 2 idx)))) as ->.
  { unfold transpose. rewrite Hks. done. }
  cbn [mbind option_bind].
  pose proof (matmul_3 q (Tensor [B; Z.to_nat head_size; T]
                            (λ idx, val k (swap_at 1 2 idx)))
                B T _ _ T Hqs eq_refl) as Hqk.
  rewrite decide_True in Hqk by done. destruct Hqk as (wei & -> & Hweis).
  cbn [mbind option_bind]. unfold pow_neg_half.
  destruct (decide (C = 0%nat)) as [HC0|HC0].
  { cbn [mbind option_bind]. split; [|done].
    split; [by intros [? ?]|]. intros (? & ? & _). lia. }
  cbn [mbind option_bind]. unfold masked_fill.
  cbn [shape mul_scalar eq_scalar]. rewrite Hweis, Htril, broadcast_mask3.
  destruct (broadcast_dim T (Z.to_nat (block_size hp))) as [d|] eqn:Ed.
  2:{ cbn [fmap option_fmap option_map mbind option_bind]. split; [|done].
      split; [by intros [? ?]|]. intros (_ & _ & HT).
      unfold broadcast_dim in Ed. repeat case_decide; try done; lia. }
  cbn [fmap option_fmap option_map mbind option_bind].
  match goal with |- context [Dropout_forward G bernoulli_ ?dr tr ?a g] =>
    pose proof (Dropout_forward_shape G bernoulli_ dr tr a g) as Hdrop;
    destruct (Dropout_forward G bernoulli_ dr tr a g) as [w g1] end.
  cbn [fst shape softmax] in Hdrop.
  rewrite Ev. cbn [mbind option_bind].
  pose proof (matmul_3 w v B d d T _ Hdrop Hvs) as Hwv.
  apply broadcast_dim_Some in Ed.
  destruct (decide (d = T)) as [->|Hd].
  - destruct Hwv as (out & -> & Houts). cbn [mbind option_bind].
    split.
    + split; [intros _|by eexists]. split; [lia|]. split; [lia|]. lia.
    + intros out' g' Heq. apply (inj Some) in Heq. injection Heq as <- _. done.
  - rewrite Hwv. cbn [mbind option_bind]. split; [|done].
    split; [by intros [? ?]|]. intros (_ & _ & HT). lia.
Qed.
End SingleHeadFacts.

Section PositionWise.
Context `{Scalar F}.
Variable G : Type.
Variable bernoulli_ : Q → list nat → G → (list nat → bool) * G.
Variable hp : Hyper.

(** X11. The feed-forward layer acts on each position by itself: in evaluation
    mode its output at a position of one input equals its output at a
    position of another input whenever the two inputs have the same
    features there. *)
Theorem feed_forward_is_position_wise (m : FeedForward F)
    (x x' y y' : tensor F) (g g1 g' g1' : G) (B T B' T' C b t b' t' : nat) :
  shape x = [B; T; C] → shape x' = [B'; T'; C] →
  FeedForward_forward G bernoulli_ m false x g = Some (y, g1) →
  FeedForward_forward G bernoulli_ m false x' g' = Some (y', g1') →
  (∀ c, (c < C)%nat → val x [b; t; c] = val x' [b'; t'; c]) →
  ∀ o, val y [b; t; o] = val y' [b'; t'; o].
Proof.
  intros Hs Hs'. unfold FeedForward_forward.
  destruct (Linear_forward (net0 m) x) as [h|] eqn:Eh; [|done].
  destruct (Linear_forward (net0 m) x') as [h'|] eqn:Eh'; [|done].
  cbn [mbind option_bind].
  destruct (Linear_forward_inv3 _ _ _ B T C Hs Eh) as (HC & Hhs & Hh).
  destruct (Linear_forward_inv3 _ _ _ B' T' C Hs' Eh') as (_ & Hhs' & Hh').
  destruct (Linear_forward (net2 m) (relu h)) as [o|] eqn:Eo; [|done].
  destruct (Linear_forward (net2 m) (relu h')) as [o'|] eqn:Eo'; [|done].
  cbn [mbind option_bind Dropout_forward].
  destruct (Linear_forward_inv3 (net2 m) (relu h) o B T _ Hhs Eo) as (_ & _ & Ho).
  destruct (Linear_forward_inv3 (net2 m) (relu h') o' B' T' _ Hhs' Eo')
    as (_ & _ & Ho').
  intros Ey Ey' Hx. apply (inj Some) in Ey. apply (inj Some) in Ey'.
  injection Ey as <- _. injection Ey' as <- _.
  intros c. rewrite Ho, Ho'. f_equal. apply fsum_ext. intros j _.
  cbn [relu val]. rewrite Hh, Hh'. do 3 f_equal.
  apply fsum_ext. intros c0 Hc0. rewrite Hx by lia. done.
Qed.
End PositionWise.

Section EvalLoss.
Context `{Scalar F}.
Variable G : Type.
Variable random_ : G → Z * G.
Variable bernoulli_ bernoulli2 : Q → list nat → G → (list nat → bool) * G.
Variable hp : Hyper.
Variable corpus : list Z.

Lemma forward_eval_sampler (m : BigramLanguageModel F) idx targets (g : G) :
  BigramLanguageModel_forward G bernoulli_ hp m false idx targets g
  = BigramLanguageModel_forward G bernoulli2 hp m false idx targets g.
Proof.
  destruct (BigramLanguageModel_forward G bernoulli_ hp m false idx targets g)
    as [[[lg l] g1]|] eqn:E1.
  - destruct (forward_eval_gen G bernoulli_ hp G bernoulli2 m idx targets
                lg l g g1 g E1) as [-> E2]. by rewrite E2.
  - destruct (BigramLanguageModel_forward G bernoulli2 hp m false idx targets g)
      as [[[lg l] g1]|] eqn:E2; [|done].
    destruct (forward_eval_gen G bernoulli2 hp G bernoulli_ m idx targets
                lg l g g1 g E2) as [_ E]. congruence.
Qed.

Lemma eval_losses_sampler (m : BigramLanguageModel F) split n (g : G) :
  eval_losses G random_ bernoulli_ hp corpus m split n g
  = eval_losses G random_ bernoulli2 hp corpus m split n g.
Proof.
  revert g. induction n as [|n IH]; intros g; cbn [eval_losses]; [done|].
  destruct (get_batch G random_ hp corpus split g) as [[[X Y] g1]|]; [|done].
  cbn [mbind option_bind]. rewrite forward_eval_sampler.
  destruct (BigramLanguageModel_forward G bernoulli2 hp m false X (Some Y) g1)
    as [[[lg l] g2]|]; [|done].
  cbn [mbind option_bind]. destruct l as [l|]; [|done].
  cbn [mbind option_bind]. by rewrite IH.
Qed.

(** X14. [estimate_loss] runs the model in evaluation mode: what it
    returns, and the generator it leaves, are the same whatever masks
    dropout would draw. *)
Theorem estimate_loss_ignores_dropout (m : BigramLanguageModel F)
    (eval_iters : Z) (g : G) :
  estimate_loss G random_ bernoulli_ hp corpus m eval_iters g
  = estimate_loss G random_ bernoulli2 hp corpus m eval_iters g.
Proof.
  unfold estimate_loss. case_decide; [done|].
  rewrite eval_losses_sampler.
  destruct (eval_losses G random_ bernoulli2 hp corpus m "train"
              (Z.to_nat eval_iters) g) as [[ltr g1]|]; [|done].
  cbn [mbind option_bind]. by rewrite eval_losses_sampler.
Qed.
End EvalLoss.

(** ** The constructor *)

Section Constructor.
Context `{Scalar F}.
Variable hp : Hyper.
Variable text : pystr.

Lemma mha_init_dropout (e : Z) (θ : AttentionParams F) (m : MultiHeadAttention F) :
  MultiHeadAttention_init hp e θ = Some m → dropout_ok hp.
Proof.
  unfold MultiHeadAttention_init.
  destruct (nn_Linear e (3 * e) (attn_params θ)) as [la|]; [|done].
  destruct (nn_Linear e e (proj_params θ)) as [lp|]; [|done].
  cbn [mbind option_bind]. unfold nn_Dropout, dropout_ok.
  destruct (Qle_bool 0 (dropout hp) && Qle_bool (dropout hp) 1); done.
Qed.

(** X17. What the constructor checks.  [BigramLanguageModel()] raises
    exactly when [n_embed] or [block_size] is negative, or when a layer is
    built ([n_layer > 0]) with a dropout rate outside [0, 1].  It accepts
    any [n_head], any corpus, and an [n_layer <= 0], which gives a model
    with no block. *)
Theorem model_builds_iff (θ : ModelParams F) :
  (is_Some (BigramLanguageModel_init hp text θ) ↔
     0 ≤ n_embed hp ∧ 0 ≤ block_size hp ∧ (0 < n_layer hp → dropout_ok hp)) ∧
  (∀ m, BigramLanguageModel_init hp text θ = Some m →
     length (blocks m) = Z.to_nat (n_layer hp)).
Proof.
  split; [split|].
  - intros [m Hm]. pose proof Hm as Hinv.
    apply model_init_inv in Hinv
      as (He & Hbs & _ & _ & _ & _ & Hblocks & Hlen & _).
    split; [done|]. split; [done|]. intros Hlayers.
    destruct (blocks m) as [|b bs] eqn:Eb; [simpl in Hlen; lia|].
    apply Forall_cons_1 in Hblocks as [[θb Hb] _].
    apply Block_init_inv in Hb as (Hsa & _).
    by eapply mha_init_dropout.
  - intros (He & Hbs & Hdrop).
    destruct (decide (0 < n_layer hp)) as [Hlayers|Hlayers].
    { by apply model_init_Some; [..|apply Hdrop]. }
    unfold BigramLanguageModel_init.
    pose proof (vocab_size_nonneg text) as Hv.
    unfold nn_Embedding, nn_LayerNorm, nn_Linear.
    rewrite !decide_True by lia. cbn [mbind option_bind].
    assert (Z.to_nat (n_layer hp) = 0%nat) as -> by lia.
    cbn [seq mapM mbind option_bind mret option_ret].
    rewrite ?decide_True by lia. done.
  - intros m Hm.
    by apply model_init_inv in Hm as (_ & _ & _ & _ & _ & _ & _ & Hlen & _).
Qed.
End Constructor.

(** ** The small instance, continued *)

Lemma toy_ids_in_vocab (a b : Z) :
  0 ≤ a < 2 → 0 ≤ b < 2 → Forall (Forall (in_vocab toy_text)) [[a; b]].
Proof.
  intros Ha Hb. apply Forall_singleton.
  apply Forall_cons_2; [by apply toy_in_vocab|].
  apply Forall_singleton. by apply toy_in_vocab.
Qed.

Lemma encode_checks_characters_witness :
  encode toy_text [97; 99]%N = None ∧
  ∃ ids, encode toy_text [98; 97]%N = Some ids ∧ length ids = 2%nat.
Proof.
  destruct (encode_checks_characters toy_text [97; 99]%N) as [Hnone _].
  destruct (encode_checks_characters toy_text [98; 97]%N) as [_ Hsome].
  split.
  - apply Hnone. exists 99%N. split; [by right; left|].
    unfold toy_text. intros Hin.
    repeat (apply elem_of_cons in Hin as [Hin|Hin]; [discriminate Hin|]).
    by apply elem_of_nil in Hin.
  - eexists. eassert (encode toy_text [98; 97]%N = Some _) as E by reflexivity.
    split; [exact E|]. by destruct (Hsome _ E).
Defined.

Lemma decode_checks_ids_witness :
  decode toy_text [0; 2] = None ∧
  ∃ s, decode toy_text [1; 0] = Some s ∧ length s = 2%nat.
Proof.
  destruct (decode_checks_ids toy_text [0; 2]) as [Hnone _].
  destruct (decode_checks_ids toy_text [1; 0]) as [_ Hsome].
  split.
  - apply Hnone. exists 2. split; [by right; left|].
    unfold in_vocab. rewrite toy_vocab_size. lia.
  - eexists. eassert (decode toy_text [1; 0] = Some _) as E by reflexivity.
    split; [exact E|]. by destruct (Hsome _ E).
Defined.


Lemma block_runs_on_full_windows_witness :
  ∃ blk,
    Block_init toy_hyper 2 1 toy_block = Some blk ∧
    is_Some (Block_forward nat toy_bernoulli toy_hyper blk true (toy_input 5)
               0%nat).
Proof.
  eexists.
  eassert (Block_init toy_hyper 2 1 toy_block = Some _) as Hb by reflexivity.
  split; [exact Hb|].
  destruct (block_runs_on_full_windows nat toy_bernoulli toy_hyper _ true
              (toy_input 5) 0%nat 1 2 2 toy_hyper_ok
              (ex_intro _ toy_block Hb) eq_refl) as [Hiff _].
  apply Hiff. split; [reflexivity|]. left. reflexivity.
Defined.

Lemma forward_runs_on_full_windows_witness :
  ∃ m,
    BigramLanguageModel_init toy_hyper toy_text toy_params = Some m ∧
    is_Some (BigramLanguageModel_forward nat toy_bernoulli toy_hyper m true
               [[0; 1]] None 0%nat) ∧
    BigramLanguageModel_forward nat toy_bernoulli toy_hyper m true
      [[0]] None 0%nat = None.
Proof.
  eexists.
  eassert (BigramLanguageModel_init toy_hyper toy_text toy_params = Some _) as Hm
    by reflexivity.
  split; [exact Hm|]. split.
  - destruct (forward_runs_on_full_windows nat toy_bernoulli toy_hyper toy_text
                toy_params _ true [[0; 1]] 0%nat toy_hyper_ok Hm
                ltac:(simpl; lia) ltac:(simpl; lia) ltac:(done)) as [Hiff _].
    apply Hiff. split.
    + apply Forall_singleton. reflexivity.
    + apply toy_ids_in_vocab; lia.
  - destruct (forward_runs_on_full_windows nat toy_bernoulli toy_hyper toy_text
                toy_params _ true [[0]] 0%nat toy_hyper_ok Hm
                ltac:(simpl; lia) ltac:(simpl; lia) ltac:(done)) as [Hiff _].
    apply eq_None_not_Some. intros (Hrows & _)%Hiff.
    rewrite Forall_singleton in Hrows. simpl in Hrows. lia.
Defined.

Lemma forward_checks_targets_witness :
  ∃ m lg l g',
    BigramLanguageModel_init toy_hyper toy_text toy_params = Some m ∧
    BigramLanguageModel_forward nat toy_bernoulli toy_hyper m true [[0; 1]]
      (Some [[1; 0]]) 0%nat = Some (lg, Some l, g') ∧
    BigramLanguageModel_forward nat toy_bernoulli toy_hyper m true [[0; 1]]
      (Some [[1]; [0]]) 0%nat = Some (lg, Some l, g').
Proof.
  eexists.
  eassert (BigramLanguageModel_init toy_hyper toy_text toy_params = Some _) as Hm
    by reflexivity.
  destruct (forward_targets_Some nat toy_bernoulli toy_hyper toy_text toy_params
              _ true [[0; 1]] [[1; 0]] 0%nat 1 toy_hyper_ok Hm eq_refl
              (toy_ids_in_vocab 0 1 ltac:(lia) ltac:(lia)) eq_refl
              (toy_ids_in_vocab 1 0 ltac:(lia) ltac:(lia)))
    as (lg & l & g' & E).
  exists lg, l, g'. split; [exact Hm|]. split; [exact E|].
  destruct (forward_checks_targets nat toy_bernoulli toy_hyper toy_text
              toy_params _ true [[0; 1]] [[1; 0]] 0%nat g' lg (Some l) Hm E)
    as (_ & _ & Hsame).
  apply (Hsame [[1]; [0]] 2%nat 1%nat); reflexivity.
Defined.

Lemma estimate_loss_returns_witness :
  ∃ (m : BigramLanguageModel xint) corpus train_batches val_batches
    train_losses val_losses g1 g',
    BigramLanguageModel_init toy_hyper toy_long_text toy_params = Some m ∧
    encode toy_long_text toy_long_text = Some corpus ∧
    draw_batches nat toy_random toy_hyper corpus "train" 2 0%nat
      = Some (train_batches, g1) ∧
    draw_batches nat toy_random toy_hyper corpus "val" 2 g1
      = Some (val_batches, g') ∧
    estimate_loss nat toy_random toy_bernoulli toy_hyper corpus m 2 0%nat
      = Some (<["val" := mean val_losses]>
                (<["train" := mean train_losses]> ∅), g') ∧
    length train_losses = 2%nat ∧ length val_losses = 2%nat ∧
    Forall2 (eval_loss_of nat toy_bernoulli toy_hyper m) train_batches train_losses ∧
    Forall2 (eval_loss_of nat toy_bernoulli toy_hyper m) val_batches val_losses.
Proof.
  eexists. eexists.
  eassert (BigramLanguageModel_init toy_hyper toy_long_text toy_params = Some _)
    as Hm by reflexivity.
  eassert (encode toy_long_text toy_long_text = Some _) as Henc
    by (vm_compute; reflexivity).
  destruct (estimate_loss_returns nat toy_random toy_bernoulli toy_hyper
              toy_long_text _ toy_params _ 2 0%nat toy_hyper_ok Hm Henc
              ltac:(simpl; lia) ltac:(lia)) as [Hret _].
  destruct Hret as (btr & bva & ltr & lva & g1 & g' & Ebtr & Ebva & E & Hltr
                    & Hlva & Hatr & Hava).
  { vm_compute. reflexivity. }
  { vm_compute. reflexivity. }
  exists btr, bva, ltr, lva, g1, g'. split; [exact Hm|]. split; [exact Henc|].
  split; [exact Ebtr|]. split; [exact Ebva|].
  split; [exact E|]. split; [exact Hltr|]. split; [exact Hlva|].
  split; [exact Hatr|exact Hava].
Defined.


Lemma head_runs_on_full_windows_witness :
  ∃ m : Head xint,
    Head_init toy_hyper 1 toy_head = Some m ∧
    is_Some (Head_forward nat toy_bernoulli (λ _, Fin 1) m true (toy_input 5)
               0%nat).
Proof.
  eexists.
  eassert (Head_init toy_hyper 1 toy_head = Some _) as Hm by reflexivity.
  split; [exact Hm|].
  destruct (head_runs_on_full_windows nat toy_bernoulli toy_hyper (λ _, Fin 1)
              1 toy_head _ true (toy_input 5) 0%nat 1 2 2 Hm eq_refl)
    as [Hiff _].
  apply Hiff. split; [reflexivity|]. split; [lia|]. left. reflexivity.
Defined.

Lemma feed_forward_is_position_wise_witness :
  ∃ m y y' g1 g1',
    FeedForward_init toy_hyper 2
      {| net0_params := toy_linear; net2_params := toy_linear |} = Some m ∧
    FeedForward_forward nat toy_bernoulli m false (toy_input 5) 0%nat
      = Some (y, g1) ∧
    FeedForward_forward nat toy_bernoulli m false (toy_input 9) 0%nat
      = Some (y', g1') ∧
    ∀ o, val y [0; 0; o]%nat = val y' [0; 0; o]%nat.
Proof.
  eexists.
  eassert (FeedForward_init toy_hyper 2
             {| net0_params := toy_linear; net2_params := toy_linear |}
           = Some _) as Hm by reflexivity.
  destruct (FeedForward_forward_Some nat toy_bernoulli toy_hyper _ _ false
              (toy_input 5) 0%nat 1 2 Hm eq_refl) as (y & g1 & E).
  destruct (FeedForward_forward_Some nat toy_bernoulli toy_hyper _ _ false
              (toy_input 9) 0%nat 1 2 Hm eq_refl) as (y' & g1' & E').
  exists y, y', g1, g1'. split; [exact Hm|]. split; [exact E|].
  split; [exact E'|].
  apply (feed_forward_is_position_wise nat toy_bernoulli _ (toy_input 5)
           (toy_input 9) y y' 0%nat g1 0%nat g1' 1 2 1 2 2 0 0 0 0
           eq_refl eq_refl E E').
  intros c _. reflexivity.
Defined.

